(** * DREME: discriminative regular expression motif elicitation

    A shallow embedding of the motif-search core of [dreme.py] and the
    properties of its components: the enrichment scorer, the word census,
    the ambiguity generalizer, the matcher, the greedy refiner and the
    find-and-erase loop.

    Conventions of the embedding.
    - A Python [str] is a [list ascii]; [lit "ACGT"] is a literal.
    - A Python [int] is a [Z].
    - A Python [dict] is a stdpp [gmap]; where the program iterates over a
      dictionary, the iteration order is a list given to the model.
    - A raised exception ([KeyError], [ZeroDivisionError]) is [None].
    - A Python [float] of the count estimates is an IEEE 754 double: a
      rational, every operation rounded to the nearest double.
    - Log p-values are Python floats (or the integer [0]); they are kept
      abstract: a type [num] with the comparisons the program uses. *)

From Stdlib Require Import ZArith QArith Qround Qabs Qpower List Ascii String Bool Lia Lqa.
From Stdlib Require Import Floats.SpecFloat.
From stdpp Require Import gmap strings list.

Local Open Scope Z_scope.

(** ** Python strings *)

Abbreviation str := (list ascii).

Definition lit (s : string) : str := list_ascii_of_string s.

Module Py.

(** Byte-wise comparison of two Python strings, [a < b]. *)
Fixpoint str_lt (a b : str) : bool :=
  match a, b with
  | _, [] => false
  | [], _ :: _ => true
  | x :: a', y :: b' =>
      if (nat_of_ascii x <? nat_of_ascii y)%nat then true
      else if (nat_of_ascii y <? nat_of_ascii x)%nat then false
      else str_lt a' b'
  end.

(** [min(a, b)]: the first of the smallest items. *)
Definition min (a b : str) : str := if str_lt b a then b else a.

(** [range(lo, hi)]. *)
Definition range (lo hi : Z) : list Z :=
  map (fun k => lo + Z.of_nat k) (seq 0 (Z.to_nat (hi - lo))).

Definition len (s : str) : Z := Z.of_nat (length s).

(** A slice bound as Python clips it: a negative bound counts from the end. *)
Definition clip (n : Z) (i : Z) : nat :=
  let i := if i <? 0 then i + n else i in
  Z.to_nat (Z.min (Z.max i 0) n).

(** [s[i:j]]. *)
Definition slice (s : str) (i j : Z) : str :=
  let lo := clip (len s) i in
  let hi := clip (len s) j in
  take (hi - lo)%nat (drop lo s).

(** [s[:i] + [c] + s[i+1:]] for an index [0 <= i]. *)
Definition subst (s : str) (i : nat) (c : ascii) : str :=
  take i s ++ c :: drop (S i) s.

(** Lookup in a dictionary written as its list of items. *)
Fixpoint assoc {V} (d : list (ascii * V)) (c : ascii) : option V :=
  match d with
  | [] => None
  | (k, v) :: d' => if Ascii.eqb k c then Some v else assoc d' c
  end.

(** A loop that threads a value and stops at the first exception. *)
Fixpoint fold_opt {A B} (f : A -> B -> option A) (a : A) (l : list B) : option A :=
  match l with
  | [] => Some a
  | b :: l' => match f a b with Some a' => fold_opt f a' l' | None => None end
  end.

End Py.

(** ** The DNA alphabet and its tables *)

Definition _dna_alphabet : str := lit "ACGT".

Definition _ambig_to_dna : list (ascii * str) :=
  [ ("A"%char, lit "A"); ("C"%char, lit "C"); ("G"%char, lit "G");
    ("T"%char, lit "T"); ("R"%char, lit "AG"); ("Y"%char, lit "CT");
    ("K"%char, lit "GT"); ("M"%char, lit "AC"); ("S"%char, lit "CG");
    ("W"%char, lit "AT"); ("B"%char, lit "CGT"); ("D"%char, lit "AGT");
    ("H"%char, lit "ACT"); ("V"%char, lit "ACG"); ("N"%char, lit "ACGT") ].

(** [_alph]: only its keys are used. *)
Definition _alph : str := lit "ACGT".

Definition _dna_ambigs : str := lit "RYKMSWBDHVN".

Definition _dna_ambig_mappings : list (ascii * str) :=
  [ ("R"%char, lit "AG"); ("M"%char, lit "AC"); ("W"%char, lit "AT");
    ("Y"%char, lit "CT"); ("S"%char, lit "CG"); ("K"%char, lit "GT");
    ("H"%char, lit "AY"); ("V"%char, lit "AS"); ("D"%char, lit "AK");
    ("B"%char, lit "CK"); ("N"%char, lit "AB") ].

(** The fifteen letters of a pattern ([_dna_alphabet + _dna_ambigs]). *)
Definition all_letters : str := _dna_alphabet ++ _dna_ambigs.

Definition is_iupac (c : ascii) : bool :=
  existsb (Ascii.eqb c) all_letters.

Definition is_base (c : ascii) : bool :=
  existsb (Ascii.eqb c) _dna_alphabet.

Definition iupac_pattern (w : str) : Prop := Forall (fun c => is_iupac c = true) w.

(** [string.maketrans(from, to)] as the list of its pairs. *)
Definition maketrans (from to : str) : list (ascii * ascii) := combine from to.

(** [s.translate(table)]: a letter outside the table is kept. *)
Definition translate (table : list (ascii * ascii)) (s : str) : str :=
  map (fun c => default c (Py.assoc table c)) s.

Definition rc_table : list (ascii * ascii) :=
  maketrans (lit "ACGTURYKMBVDHSWN") (lit "TGCAAYRMKVBHDSWN").

Definition get_rc (re : str) : str := rev (translate rc_table re).

(** The key under which a pattern is stored when both strands are
    searched, [min(w, get_rc(w))]. *)
Definition canonical (w : str) : str := Py.min w (get_rc w).

(** ** Enrichment scorer *)

(** A computation that may call the hypergeometric tail primitive
    [log_getFETprob] of the module [hypergeometric]. *)
Inductive fet (num : Type) : Type :=
  | Ret (v : num)
  | CallFET (a b c d : Z) (k : num -> fet num).
Arguments Ret {num} v.
Arguments CallFET {num} a b c d k.

Fixpoint fet_run {num} (oracle : Z -> Z -> Z -> Z -> num) (m : fet num) : num :=
  match m with
  | Ret v => v
  | CallFET a b c d k => fet_run oracle (k (oracle a b c d))
  end.

Fixpoint fet_calls {num} (oracle : Z -> Z -> Z -> Z -> num) (m : fet num)
  : list (Z * Z * Z * Z) :=
  match m with
  | Ret _ => []
  | CallFET a b c d k => (a, b, c, d) :: fet_calls oracle (k (oracle a b c d))
  end.

Section Scorer.
Context {num : Type}.
(** The number [0]. *)
Variable num0 : num.
(** [log_getFETprob(a, b, c, d)[4]]. *)
Variable log_getFETprob : Z -> Z -> Z -> Z -> num.

Definition getLogPvalue_prog (p P n N : Z) : fet num :=
  if p * N >? n * P then CallFET (N - n) n (P - p) p Ret
  else Ret num0.

Definition getLogPvalue (p P n N : Z) : num :=
  fet_run log_getFETprob (getLogPvalue_prog p P n N).
End Scorer.

(** ** Word census *)

Module Census.

(** The table of [count_seqs_with_words]: word -> [seq_count, last_seq]. *)
Abbreviation table := (gmap str (Z * Z)).

Definition update_seqs_with_words (seqs_with_words : table) (word : str)
    (seq_no : Z) (given_only : bool) : table :=
  let word := if negb given_only then Py.min word (get_rc word) else word in
  match seqs_with_words !! word with
  | Some (count, last) =>
      if last <? seq_no then <[word := (count + 1, seq_no)]> seqs_with_words
      else seqs_with_words
  | None => <[word := (1, seq_no)]> seqs_with_words
  end.

(** [1 in [c in word for c in "nN"]]. *)
Definition has_ambiguous (word : str) : bool :=
  existsb (fun c => existsb (Ascii.eqb c) word) (lit "nN").

(** The loop over the words of width [w] of one sequence. *)
Definition count_in_seq (d : table) (w : Z) (seq_no : Z) (s : str)
    (given_only : bool) : table :=
  fold_left
    (fun d i =>
       let word := Py.slice s i (i + w) in
       if has_ambiguous word then d
       else update_seqs_with_words d word seq_no given_only)
    (Py.range 0 (Py.len s - w + 1)) d.

(** The loop over all sequences, [seq_no] counting from [seq_no0 + 1]. *)
Fixpoint count_in_seqs (d : table) (w : Z) (seq_no0 : Z) (seqs : list str)
    (given_only : bool) : table :=
  match seqs with
  | [] => d
  | s :: rest =>
      let seq_no := seq_no0 + 1 in
      count_in_seqs (count_in_seq d w seq_no s given_only) w seq_no rest given_only
  end.

Definition count_seqs_with_words (seqs : list str) (minw maxw : Z)
    (given_only : bool) : table :=
  fold_left (fun d w => count_in_seqs d w 0 seqs given_only)
    (Py.range minw (maxw + 1)) ∅.

End Census.

(** ** Matcher *)

Module Regex.

(** A character class [[...]]: the letters it accepts. *)
Abbreviation charclass := (list ascii).

(** The compiled form of the expressions [make_dna_re] builds: an
    alternation of sequences of character classes, wrapped in [^(...)$]
    when [anchored]. *)
Record matcher := { alternatives : list (list charclass); anchored : bool }.

(** The text of the regular expression a matcher stands for. *)
Definition class_text (cls : charclass) : str := lit "[" ++ cls ++ lit "]".
Definition classes_text (cs : list charclass) : str := concat (map class_text cs).
Fixpoint alternatives_text (alts : list (list charclass)) : str :=
  match alts with
  | [] => []
  | [cs] => classes_text cs
  | cs :: rest => classes_text cs ++ lit "|" ++ alternatives_text rest
  end.
Definition matcher_text (m : matcher) : str :=
  if anchored m then lit "^(" ++ alternatives_text (alternatives m) ++ lit ")$"
  else alternatives_text (alternatives m).

Definition class_match (cls : charclass) (c : ascii) : bool :=
  existsb (Ascii.eqb c) cls.

(** A sequence of classes against the start of [s]: the length matched. *)
Fixpoint classes_match (cs : list charclass) (s : str) : option nat :=
  match cs with
  | [] => Some 0%nat
  | cls :: cs' =>
      match s with
      | [] => None
      | c :: s' =>
          if class_match cls c then S <$> classes_match cs' s' else None
      end
  end.

(** [$]: the end of the string, or just before a final newline. *)
Definition at_end (s : str) : bool :=
  match s with
  | [] => true
  | [c] => Ascii.eqb c "010"%char
  | _ => false
  end.

(** The first alternative that matches at the start of [s] (and, when
    [to_end], up to its end). *)
Fixpoint alternatives_match (alts : list (list charclass)) (to_end : bool)
    (s : str) : option nat :=
  match alts with
  | [] => None
  | cs :: rest =>
      match classes_match cs s with
      | Some n =>
          if negb to_end || at_end (drop n s) then Some n
          else alternatives_match rest to_end s
      | None => alternatives_match rest to_end s
      end
  end.

(** A match that starts at position [pos], where [s] is the rest of the
    subject from there: its length. *)
Definition match_here (m : matcher) (pos : nat) (s : str) : option nat :=
  if anchored m then
    if (pos =? 0)%nat then alternatives_match (alternatives m) true s else None
  else alternatives_match (alternatives m) false s.

(** [m.search(s)]: the leftmost match, as (start, length). *)
Fixpoint search_from (m : matcher) (pos : nat) (s : str) : option (nat * nat) :=
  match match_here m pos s with
  | Some n => Some (pos, n)
  | None =>
      match s with
      | [] => None
      | _ :: s' => search_from m (S pos) s'
      end
  end.

Definition search (m : matcher) (s : str) : option (nat * nat) :=
  search_from m 0 s.

(** [finditer(m, s)]: the non-overlapping matches from left to right, as
    (start, length); [skip] letters of the current match remain. *)
Fixpoint finditer_go (m : matcher) (pos skip : nat) (s : str) : list (nat * nat) :=
  match skip with
  | S k =>
      match s with
      | [] => []
      | _ :: s' => finditer_go m (S pos) k s'
      end
  | O =>
      match match_here m pos s with
      | Some n =>
          (pos, n) ::
          match s with
          | [] => []
          | _ :: s' => finditer_go m (S pos) (n - 1) s'
          end
      | None =>
          match s with
          | [] => []
          | _ :: s' => finditer_go m (S pos) 0 s'
          end
      end
  end.

Definition finditer (m : matcher) (s : str) : list (nat * nat) :=
  finditer_go m 0 0 s.

(** [findall(m, s)]: the matched substrings. *)
Definition findall (m : matcher) (s : str) : list str :=
  map (fun '(b, n) => take n (drop b s)) (finditer m s).

(** [m.sub(repl, s)] for a replacement without escapes; [adj] says that a
    match has just ended here, where an empty match is not replaced. *)
Fixpoint sub_go (m : matcher) (repl : str) (pos skip : nat) (adj : bool)
    (s : str) : str :=
  match skip with
  | S k =>
      match s with
      | [] => []
      | _ :: s' => sub_go m repl (S pos) k true s'
      end
  | O =>
      match match_here m pos s with
      | Some O =>
          (if adj then [] else repl) ++
          match s with
          | [] => []
          | c :: s' => c :: sub_go m repl (S pos) 0 false s'
          end
      | Some (S k) =>
          repl ++
          match s with
          | [] => []
          | _ :: s' => sub_go m repl (S pos) k true s'
          end
      | None =>
          match s with
          | [] => []
          | c :: s' => c :: sub_go m repl (S pos) 0 false s'
          end
      end
  end.

Definition sub (m : matcher) (repl : str) (s : str) : str :=
  sub_go m repl 0 0 false s.

End Regex.

(** [RE += '[' + _ambig_to_dna[c] + ']'] over the letters of a pattern;
    a letter without an entry raises [KeyError]. *)
Definition expand_classes (iupac_re : str) : option (list Regex.charclass) :=
  mapM (Py.assoc _ambig_to_dna) iupac_re.

Definition make_dna_re (iupac_re : str) (given_only complete : bool)
  : option Regex.matcher :=
  RE ← expand_classes iupac_re;
  alts ← (if negb given_only then
            rc_RE ← expand_classes (get_rc iupac_re);
            Some [RE; rc_RE]
          else Some [RE]);
  Some {| Regex.alternatives := alts; Regex.anchored := complete |}.

(** The text [make_dna_re] hands to [compile], built as the program
    builds it. *)
Definition make_dna_re_text (iupac_re : str) (given_only complete : bool)
  : option str :=
  RE ← Py.fold_opt (fun RE c => cls ← Py.assoc _ambig_to_dna c;
                          Some (RE ++ lit "[" ++ cls ++ lit "]")) [] iupac_re;
  RE ← (if negb given_only then
          rc_RE ← Py.fold_opt (fun RE c => cls ← Py.assoc _ambig_to_dna c;
                                     Some (RE ++ lit "[" ++ cls ++ lit "]"))
                    [] (get_rc iupac_re);
          Some (RE ++ lit "|" ++ rc_RE)
        else Some RE);
  Some (if complete then lit "^(" ++ RE ++ lit ")$" else RE).

(** [len(re) * 'N']. *)
Definition n_run (re : str) : str := replicate (length re) "N"%char.

Definition erase_re (re : str) (pos_seqs neg_seqs : list str)
  : option (list str * list str) :=
  let ens := n_run re in
  ms ← make_dna_re re false false;
  Some (map (Regex.sub ms ens) pos_seqs, map (Regex.sub ms ens) neg_seqs).

Definition count_matching (ms : Regex.matcher) (seqs : list str) : Z :=
  Z.of_nat (length (filter (fun s => is_Some (Regex.search ms s)) seqs)).

Definition count_seqs_matching_iupac_re (re : str) (pos_seqs neg_seqs : list str)
    (given_only : bool) : option (Z * Z) :=
  ms ← make_dna_re re given_only false;
  Some (count_matching ms pos_seqs, count_matching ms neg_seqs).

(** The non-overlapping matches on either strand, each on the strand of
    the pattern. *)
Definition get_alignment_from_re (re : str) (seqs : list str) (given_only : bool)
  : option (list str) :=
  m_both ← make_dna_re re given_only false;
  m_given ← make_dna_re re true false;
  Some (flat_map
          (fun seqstr =>
             map (fun m => match Regex.search m_given m with
                           | Some _ => m
                           | None => get_rc m
                           end)
               (Regex.findall m_both seqstr))
          seqs).

(** ** Enrichment records *)

(** [[p, P, n, N, log_pvalue]], with the Hamming distance as a sixth item
    for a record that comes from consensus refinement. *)
Record pvalue_record (num : Type) := mk_record {
  r_p : Z; r_P : Z; r_n : Z; r_N : Z; r_logp : num; r_dist : option Z }.
Arguments mk_record {num} _ _ _ _ _ _.
Arguments r_p {num} _.
Arguments r_P {num} _.
Arguments r_n {num} _.
Arguments r_N {num} _.
Arguments r_logp {num} _.
Arguments r_dist {num} _.

(** ** Floats *)

(** A finite double is the rational it stands for. An operation on
    doubles gives the exact result rounded to the nearest double, a tie
    to the one with an even significand; a result of magnitude [2^1024]
    or more is infinite. *)
Module Double.

Definition pow2 (e : Z) : Q := Qpower 2 e.

(** The binary exponent of [x <> 0]: [2^e <= |x| < 2^(e+1)]. *)
Definition exponent (x : Q) : Z :=
  let k := Z.log2 (Z.abs (Qnum x)) - Z.log2 (Zpos (Qden x)) in
  if Qle_bool (pow2 k) (Qabs x) then k else k - 1.

(** The nearest integer, a half to the even one. *)
Definition round_even (q : Q) : Z :=
  let f := Qfloor q in
  match Qcompare (q - inject_Z f) (1 # 2) with
  | Lt => f
  | Gt => f + 1
  | Eq => if Z.even f then f else f + 1
  end.

(** The nearest double: a multiple of [2^(e-52)] for a significand of 53
    bits, of [2^-1074] in the subnormal range. *)
Definition round (x : Q) : Q :=
  if Qeq_bool x 0 then 0%Q
  else
    let u := pow2 (Z.max (exponent x - 52) (-1074)) in
    (inject_Z (round_even (x / u)) * u)%Q.

Definition finite (x : Q) : bool := negb (Qle_bool (pow2 1024) (Qabs x)).

(** [float(z)] for an integer, also where an integer operand is coerced
    to a float; [OverflowError] when [z] is too large. *)
Definition of_int (z : Z) : option Q :=
  let x := round (inject_Z z) in
  if finite x then Some x else None.

End Double.

(** [round(x)] of Python 2 for a finite float [x], as an integer: a half
    is rounded away from zero. *)
Definition py_round (q : Q) : Z :=
  if Qle_bool 0%Q q then Qfloor (q + (1 # 2))%Q
  else - Qfloor (- q + (1 # 2))%Q.

(** [int(round((c1 + c2) - float(c1*c2)/T))]: the size of the union of two
    sets of [c1] and [c2] of [T] sequences, were they independent. The
    product and the sum are exact integers; the conversions, the division
    and the subtraction are operations on doubles. A division by zero
    raises [ZeroDivisionError], the conversion of an integer that is too
    large and [int] of an infinite float [OverflowError]. *)
Definition union_estimate (c1 c2 T : Z) : option Z :=
  prod ← Double.of_int (c1 * c2);
  T' ← Double.of_int T;
  if Qeq_bool T' 0 then None
  else
    let quotient := Double.round (prod / T') in
    sum ← Double.of_int (c1 + c2);
    let x := Double.round (sum - quotient) in
    if Double.finite x then Some (py_round x) else None.

(** The estimate as the specification states it,
    [round(c1 + c2 - c1*c2/T)], over the rationals. *)
Definition spec_union_estimate (c1 c2 T : Z) : Z :=
  py_round (inject_Z (c1 + c2) - inject_Z (c1 * c2) / inject_Z T)%Q.

(** The same expression with the operations of the library's
    specification of IEEE 754 arithmetic, at the precision and the
    exponent range of binary64; the model above is compared with it on
    sample counts. *)
Module Binary64.

Definition of_int (z : Z) : option spec_float :=
  match binary_normalize 53 1024 z 0 false with
  | S754_infinity _ | S754_nan => None
  | x => Some x
  end.

Definition to_Q (x : spec_float) : option Q :=
  match x with
  | S754_zero _ => Some 0%Q
  | S754_finite s m e =>
      Some ((if s then -1 else 1) * inject_Z (Zpos m) * Double.pow2 e)%Q
  | _ => None
  end.

Definition is_zero (x : spec_float) : bool :=
  match x with S754_zero _ => true | _ => false end.

Definition union_estimate (c1 c2 T : Z) : option Z :=
  prod ← of_int (c1 * c2);
  T' ← of_int T;
  if is_zero T' then None
  else
    sum ← of_int (c1 + c2);
    x ← to_Q (SFsub 53 1024 sum (SFdiv 53 1024 prod T'));
    Some (py_round x).

End Binary64.

(** The key of a pattern: itself on the given strand, else the smaller of
    the pattern and its reverse complement. *)
Definition index_of (given_only : bool) (new_re : str) : str :=
  if given_only then new_re else Py.min new_re (get_rc new_re).

Definition has_key (alph : str) (c : ascii) : bool := existsb (Ascii.eqb c) alph.

(** ** Ambiguity generalizer and greedy refiner *)

Section Core.
Context {num : Type}.
Variable num0 : num.
(** [a < b] on log p-values. *)
Variable num_lt : num -> num -> bool.
Variable log_getFETprob : Z -> Z -> Z -> Z -> num.
(** The order in which [for k in c_counts] visits the keys. *)
Variable c_counts_keys : gmap ascii (Z * Z) -> list ascii.
(** [hamming.get_best_hamming_alignment], without the alignment:
    (dist, log_pvalue, p, P, n, N). *)
Variable get_best_hamming_alignment :
  str -> list str -> list str -> bool -> Z * num * Z * Z * Z * Z.

Abbreviation re_table := (gmap str (pvalue_record num)).

(** The first loop over a column of [re_generalize]: the counts of the
    significant patterns that differ from [re] in column [i] only. *)
Definition base_counts (re : str) (re_pvalues : re_table) (alph : str)
    (log_add_pthresh : num) (given_only : bool) (i : nat)
  : gmap ascii (Z * Z) :=
  fold_left
    (fun c_counts k =>
       let new_re := Py.subst re i k in
       let index := index_of given_only new_re in
       match re_pvalues !! index with
       | Some r =>
           if num_lt (r_logp r) log_add_pthresh
           then <[k := (r_p r, r_n r)]> c_counts
           else c_counts
       | None => c_counts
       end)
    alph ∅.

(** The second loop: the counts for the ambiguous letters, in the order
    of [ambigs]. *)
Definition combine_ambigs (P N : Z) (ambigs : str)
    (ambig_mappings : list (ascii * str)) (c_counts : gmap ascii (Z * Z))
  : option (gmap ascii (Z * Z)) :=
  Py.fold_opt
    (fun c_counts ambig =>
       pair ← Py.assoc ambig_mappings ambig;
       k1 ← pair !! 0%nat;
       match c_counts !! k1 with
       | Some (p1, n1) =>
           k2 ← pair !! 1%nat;
           match c_counts !! k2 with
           | Some (p2, n2) =>
               p ← union_estimate p1 p2 P;
               n ← union_estimate n1 n2 N;
               Some (<[ambig := (p, n)]> c_counts)
           | None => Some c_counts
           end
       | None => Some c_counts
       end)
    c_counts ambigs.

Definition c_counts_at (re : str) (re_pvalues : re_table) (alph ambigs : str)
    (ambig_mappings : list (ascii * str)) (log_add_pthresh : num)
    (given_only : bool) (P N : Z) (i : nat) : option (gmap ascii (Z * Z)) :=
  combine_ambigs P N ambigs ambig_mappings
    (base_counts re re_pvalues alph log_add_pthresh given_only i).

(** The third loop: the generalized patterns of column [i] are stored. *)
Definition store_generalized (re : str) (alph : str) (given_only : bool)
    (P N : Z) (i : nat) (c_counts : gmap ascii (Z * Z))
    (new_re_pvalues : re_table) : re_table :=
  fold_left
    (fun new_re_pvalues k =>
       if has_key alph k then new_re_pvalues
       else
         match c_counts !! k with
         | Some (p, n) =>
             let log_pvalue := getLogPvalue num0 log_getFETprob p P n N in
             let new_re := Py.subst re i k in
             if bool_decide (head new_re = Some "N"%char)
                || bool_decide (last new_re = Some "N"%char)
             then new_re_pvalues
             else
               let index := index_of given_only new_re in
               <[index := mk_record p P n N log_pvalue None]> new_re_pvalues
         | None => new_re_pvalues
         end)
    (c_counts_keys c_counts) new_re_pvalues.

Definition re_generalize (re : str) (re_pvalues : re_table) (alph ambigs : str)
    (ambig_mappings : list (ascii * str)) (new_re_pvalues : re_table)
    (log_add_pthresh : num) (given_only : bool) : option re_table :=
  value ← re_pvalues !! re;
  let P := r_P value in
  let N := r_N value in
  Py.fold_opt
    (fun new_re_pvalues i =>
       c ← re !! i;
       if negb (has_key alph c) then Some new_re_pvalues
       else
         c_counts ← c_counts_at re re_pvalues alph ambigs ambig_mappings
                       log_add_pthresh given_only P N i;
         Some (store_generalized re alph given_only P N i c_counts
                 new_re_pvalues))
    new_re_pvalues (seq 0 (length re)).

Definition compute_exact_re_enrichment (re : str) (pos_seqs neg_seqs : list str)
    (given_only : bool) : option (pvalue_record num) :=
  '(p, n) ← count_seqs_matching_iupac_re re pos_seqs neg_seqs given_only;
  let P := Z.of_nat (length pos_seqs) in
  let N := Z.of_nat (length neg_seqs) in
  let log_pvalue := getLogPvalue num0 log_getFETprob p P n N in
  Some (mk_record p P n N log_pvalue None).

(** The state of one round of [re_refine]: the improved patterns, the
    table of all records and the patterns refined so far. *)
Definition refine_state : Type := re_table * re_table * gset str.

(** The record of a new pattern: its exact enrichment, or the estimate of
    the Hamming heuristic. *)
Definition new_record (pos_seqs neg_seqs : list str) (hamming_dist : Z)
    (given_only : bool) (new_re : str) : option (pvalue_record num) :=
  if hamming_dist =? -1
  then compute_exact_re_enrichment new_re pos_seqs neg_seqs given_only
  else
    let '(dist, log_pvalue, p, P, n, N) :=
      get_best_hamming_alignment new_re pos_seqs neg_seqs given_only in
    Some (mk_record p P n N log_pvalue (Some dist)).

(** One substitution, [re[i]] replaced by [new_letter]. *)
Definition try_substitution (re : str) (pos_seqs neg_seqs : list str)
    (hamming_dist : Z) (given_only : bool) (i : nat) (old_letter : ascii)
    (st : re_table * re_table) (new_letter : ascii)
  : option (re_table * re_table) :=
  let '(improved_re_pvalues, re_pvalues) := st in
  if Ascii.eqb new_letter old_letter then Some st
  else
    let new_re := Py.subst re i new_letter in
    let index := Py.min new_re (get_rc new_re) in
    match re_pvalues !! index with
    | Some _ => Some st
    | None =>
        new_pvalue ← new_record pos_seqs neg_seqs hamming_dist given_only new_re;
        parent ← re_pvalues !! re;
        let improved_re_pvalues :=
          if num_lt (r_logp new_pvalue) (r_logp parent)
          then <[index := new_pvalue]> improved_re_pvalues
          else improved_re_pvalues in
        Some (improved_re_pvalues, <[index := new_pvalue]> re_pvalues)
    end.

(** All substitutions of one candidate. *)
Definition refine_candidate (re : str) (allowed_letters : str)
    (pos_seqs neg_seqs : list str) (hamming_dist : Z) (given_only : bool)
    (st : re_table * re_table) : option (re_table * re_table) :=
  Py.fold_opt
    (fun st i =>
       old_letter ← re !! i;
       Py.fold_opt
         (try_substitution re pos_seqs neg_seqs hamming_dist given_only i
            old_letter)
         st allowed_letters)
    st (seq 0 (length re)).

(** [re_refine]; [candidate_pvalues] is the dictionary as the list of its
    items in the order of the iteration. Returns the improved patterns
    with the updated [re_pvalues] and [done_re_list]. *)
Definition re_refine (re_pvalues : re_table)
    (candidate_pvalues : list (str * pvalue_record num))
    (done_re_list : gset str) (allowed_letters : str)
    (pos_seqs neg_seqs : list str) (hamming_dist : Z) (given_only : bool)
  : option refine_state :=
  Py.fold_opt
    (fun (st : refine_state) (cand : str * pvalue_record num) =>
       let '(improved_re_pvalues, re_pvalues, done_re_list) := st in
       let re := cand.1 in
       if bool_decide (re ∈ done_re_list) then Some st
       else
         let done_re_list := {[re]} ∪ done_re_list in
         '(improved_re_pvalues, re_pvalues) ←
           refine_candidate re allowed_letters pos_seqs neg_seqs hamming_dist
             given_only (improved_re_pvalues, re_pvalues);
         Some (improved_re_pvalues, re_pvalues, done_re_list))
    (∅, re_pvalues, done_re_list) candidate_pvalues.

End Core.

(** ** Background letter frequencies *)

(** The counting loops of [get_probs]: every letter of the alphabet
    starts at [1]; a letter of a sequence with an entry adds one to it, a
    letter without one gets the entry [0]. *)
Definition count_letter (freqs : gmap ascii Z) (char : ascii) : gmap ascii Z :=
  match freqs !! char with
  | Some k => <[char := k + 1]> freqs
  | None => <[char := 0]> freqs
  end.

Definition letter_freqs (seqs : list str) (alphabet_string : str) : gmap ascii Z :=
  fold_left (fun freqs seq => fold_left count_letter seq freqs) seqs
    (fold_left (fun freqs char => <[char := 1]> freqs) alphabet_string ∅).

(** [get_probs]: [n] is the sum of the entries of the letters of the
    alphabet, and the probability of a letter its entry over [n]. A
    missing entry raises [KeyError], [n = 0.0] [ZeroDivisionError]; the
    division of floats is read as that of rationals. *)
Definition get_probs (seqs : list str) (alphabet_string : str)
  : option (gmap ascii Q) :=
  let freqs := letter_freqs seqs alphabet_string in
  n ← Py.fold_opt (fun n char => k ← freqs !! char; Some (n + k)) 0 alphabet_string;
  Py.fold_opt
    (fun probs char =>
       k ← freqs !! char;
       if n =? 0 then None
       else Some (<[char := (inject_Z k / inject_Z n)%Q]> probs))
    ∅ alphabet_string.

(** The number of times a letter occurs in the sequences. *)
Definition occurrences (char : ascii) (seqs : list str) : Z :=
  Z.of_nat (length (filter (fun c => c = char) (concat seqs))).

(** The value of [n]: the sum over the alphabet of one more than the
    number of occurrences. *)
Definition total (seqs : list str) (l : str) : Z :=
  fold_left (fun n c => n + (1 + occurrences c seqs)) l 0.

(** ** The find-and-erase loop of [main] *)

Inductive stop_cause := StopTime | StopEvalue | StopCount.

(** What the loop does, in order: an iteration starts ("Looking for motif
    n..."), the best word is erased ("Erasing best word..."). *)
Inductive event :=
  | Looking (motif_num : Z)
  | Erasing (word : str).

(** How the loop ends: it breaks with a stop cause, or an exception other
    than [TimeoutError] escapes. The sequence sets are given as they are
    at that point. *)
Inductive loop_end :=
  | Stop (cause : stop_cause) (nmotifs : Z) (pos_seqs neg_seqs : list str)
  | Uncaught.

Record config := mk_config {
  minw : Z; maxw : Z; mink : Z; maxk : Z;
  max_motifs : option Z; max_time : option Z }.

(** The checks of [main] on the widths; [None] is [sys.exit(1)]. *)
Definition check_widths (c : config) : option config :=
  maxw1 ← (if minw c >? maxw c
           then if maxw c =? -1 then Some (minw c) else None
           else Some (maxw c));
  let minw2 := if minw c =? -1 then mink c else minw c in
  let maxw2 := if maxw1 =? -1 then maxk c else maxw1 in
  if mink c >? maxk c then None
  else
    Some {| minw := minw2; maxw := maxw2;
            mink := Z.min maxw2 (mink c); maxk := Z.min maxw2 (maxk c);
            max_motifs := max_motifs c; max_time := max_time c |}.

(** The defaults of [main]. *)
Definition default_config : config :=
  {| minw := -1; maxw := -1; mink := 3; maxk := 8;
     max_motifs := None; max_time := None |}.

(** [erase_re] interrupted by the alarm after [j] sequences were
    rewritten. *)
Definition erase_re_upto (j : nat) (re : str) (pos_seqs neg_seqs : list str)
  : option (list str * list str) :=
  let ens := n_run re in
  ms ← make_dna_re re false false;
  let erase_first k seqs :=
    map (Regex.sub ms ens) (take k seqs) ++ drop k seqs in
  Some (erase_first j pos_seqs, erase_first (j - length pos_seqs)%nat neg_seqs).

(** The outcome of [os.makedirs(outdir)]: the directory is made, or
    [OSError] is raised, with [errno.EEXIST] or with another error. *)
Inductive makedirs_result := Made | EEXIST | OtherOSError.

(** The options of [main] that name files, as the command line sets
    them. *)
Record files := mk_files {
  pos_seq_file_name : option str;
  neg_seq_file_name : option str;
  outdir : str;
  clobber : bool;
  seed : Z;
  description_file : option str }.

(** [if name:] for a file name: neither [None] nor the empty string. *)
Definition given (name : option str) : option str :=
  match name with
  | Some (c :: name) => Some (c :: name)
  | _ => None
  end.

(** [main] exits with status 1, an exception escapes before the loop, or
    it enters the loop; the run is [None] when the model runs out of
    fuel. *)
Inductive main_result :=
  | Exit1
  | Raised
  | Entered (run : option (list event * loop_end)).

Section Loop.
Context {num : Type}.
Variable num_lt num_le : num -> num -> bool.
(** [log(ethresh)]. *)
Variable log_ethresh : num.
(** [find_print] when the time is not up: the best word and its log
    E-value, or [None] when an exception escapes it. The search and the
    report it makes are not modelled. *)
Variable find_print : config -> Z -> list str -> list str -> option (str * num).
(** Whether [TimeoutError] is raised while motif [n] is searched. *)
Variable find_times_out : Z -> bool.
(** Whether the time is up when the erasing of motif [n] starts
    ([enable_timeout] raises [TimeoutError]). *)
Variable deadline_passed : Z -> bool.
(** Whether the alarm goes off while motif [n] is erased, and after how
    many sequences. *)
Variable erase_times_out : Z -> option nat.

Fixpoint find_erase_loop (c : config) (fuel : nat) (pos_seqs neg_seqs : list str)
    (nmotifs : Z) : option (list event * loop_end) :=
  match fuel with
  | O => None
  | S fuel =>
      let looking := Looking (nmotifs + 1) in
      let timed := bool_decide (is_Some (max_time c)) in
      if timed && find_times_out (nmotifs + 1)
      then Some ([looking], Stop StopTime nmotifs pos_seqs neg_seqs)
      else
        match find_print c (nmotifs + 1) pos_seqs neg_seqs with
        | None => Some ([looking], Uncaught)
        | Some (word, Evalue) =>
            if num_lt log_ethresh Evalue
            then Some ([looking], Stop StopEvalue nmotifs pos_seqs neg_seqs)
            else
              let nmotifs := nmotifs + 1 in
              if bool_decide (max_motifs c = Some nmotifs)
              then Some ([looking], Stop StopCount nmotifs pos_seqs neg_seqs)
              else if timed && deadline_passed nmotifs
              then Some ([looking], Stop StopTime nmotifs pos_seqs neg_seqs)
              else if num_le Evalue log_ethresh then
                match (if timed then erase_times_out nmotifs else None) with
                | Some j =>
                    match erase_re_upto j word pos_seqs neg_seqs with
                    | Some (pos_seqs, neg_seqs) =>
                        Some ([looking; Erasing word],
                              Stop StopTime nmotifs pos_seqs neg_seqs)
                    | None => Some ([looking; Erasing word], Uncaught)
                    end
                | None =>
                    match erase_re word pos_seqs neg_seqs with
                    | Some (pos_seqs, neg_seqs) =>
                        '(evs, e) ← find_erase_loop c fuel pos_seqs neg_seqs nmotifs;
                        Some (looking :: Erasing word :: evs, e)
                    | None => Some ([looking; Erasing word], Uncaught)
                    end
                end
              else
                '(evs, e) ← find_erase_loop c fuel pos_seqs neg_seqs nmotifs;
                Some (looking :: evs, e)
        end
  end.

(** [os.makedirs(outdir)]. *)
Variable makedirs : str -> makedirs_result.
(** [sequence.convert_ambigs(sequence.readFASTA(name, None, True))] for a
    file name: the sequences, or [None] when an exception escapes. The
    module [sequence] is not part of [dreme.py]. *)
Variable read_seqs : str -> option (list str).
(** [shuffle.dinuclShuffle(s)] after [random.seed(seed)] and the shuffling
    of the sequences [done]; [None] when an exception escapes. *)
Variable dinuclShuffle : Z -> list str -> str -> option str.
(** [open(description_file).read()]. *)
Variable read_description : str -> option str.
(** Whether [dreme.xml] is opened in the output directory and
    [write_xml_dtd] and [write_xml_top] return: they write to the file and
    ask for the modification times of the sequence files; of the
    sequences they get the two counts and the frequencies. *)
Variable write_xml_top : files -> Z -> Z -> gmap ascii Q -> bool.

(** [[shuffle.dinuclShuffle(s) for s in pos_seqs]]. *)
Fixpoint shuffle_seqs (seed : Z) (done seqs : list str) : option (list str) :=
  match seqs with
  | [] => Some []
  | s :: seqs =>
      t ← dinuclShuffle seed done s;
      ts ← shuffle_seqs seed (done ++ [s]) seqs;
      Some (t :: ts)
  end.

(** The negative sequences: read from the file when one is given, else
    the shuffled positive sequences. *)
Definition negative_seqs (f : files) (pos_seqs : list str) : option (list str) :=
  match given (neg_seq_file_name f) with
  | Some name => read_seqs name
  | None => shuffle_seqs (seed f) [] pos_seqs
  end.

(** [main] from the check of the required arguments on, for the options
    as the command line has set them, up to the end of the loop: the
    check for the positive file, the checks on the widths, the output
    directory, the reading of the sequences, the frequencies, the
    description, the head of the XML output, the loop. What is printed,
    the choice of the logo writer, the copies of the sequences kept for
    the report and the setting of the alarm handler are left out: they
    have no part in what follows. *)
Definition main (f : files) (c : config) (fuel : nat) : main_result :=
  match pos_seq_file_name f with
  | None => Exit1
  | Some pos_name =>
  match check_widths c with
  | None => Exit1
  | Some c =>
  match makedirs (outdir f) with
  | OtherOSError => Raised
  | made =>
  if match made with EEXIST => negb (clobber f) | _ => false end then Exit1 else
  match read_seqs pos_name with
  | None => Raised
  | Some pos_seqs =>
  match negative_seqs f pos_seqs with
  | None => Raised
  | Some neg_seqs =>
  match get_probs neg_seqs _dna_alphabet with
  | None => Raised
  | Some neg_freqs =>
  match (match given (description_file f) with
         | Some name => read_description name
         | None => Some []
         end) with
  | None => Raised
  | Some description =>
  if write_xml_top f (Z.of_nat (length pos_seqs)) (Z.of_nat (length neg_seqs))
       neg_freqs
  then Entered (find_erase_loop c fuel pos_seqs neg_seqs 0)
  else Raised
  end end end end end end end.

End Loop.

(** ** Predicates of the statements *)

(** *** Matcher and erasure *)

(** A string over A, C, G and T. *)
Definition bases_only (s : str) : Prop := Forall (fun c => is_base c = true) s.

(** A matcher over the four bases whose alternatives all have [w] classes. *)
Definition dna_matcher (w : nat) (m : Regex.matcher) : Prop :=
  Forall (fun cs => length cs = w /\ Forall bases_only cs) (Regex.alternatives m).

(** [b] is [a], or the letter [N] written over it. *)
Definition masked (a b : ascii) : Prop := b = a \/ b = "N"%char.

(** [w * 'N']. *)
Definition run_of_N (w : nat) : str := replicate w "N"%char.

(** *** Word census *)

(** The count recorded for a word, [0] when it has no entry. *)
Definition seq_count (d : Census.table) (word : str) : Z :=
  match d !! word with Some (c, _) => c | None => 0 end.

(** Every count is positive and at most the last sequence number seen,
    which is at most [bound]. *)
Definition census_inv (bound : Z) (d : Census.table) : Prop :=
  forall word c l, d !! word = Some (c, l) -> 0 < c <= l /\ l <= bound.

(** What one sequence may do to the entry of a word: nothing to its count,
    or one more with the sequence number recorded. *)
Definition counted_once (d d' : Census.table) (word : str) (seq_no : Z) : Prop :=
  seq_count d' word = seq_count d word \/
  (seq_count d' word = seq_count d word + 1 /\
   exists c l, d' !! word = Some (c, l) /\ seq_no <= l).

(** No word of the table has an [N]. *)
Definition census_no_N (d : Census.table) : Prop :=
  forall word, is_Some (d !! word) -> ~ In "N"%char word.

(** *** Ambiguity generalizer *)

(** [a] and [b] have the same length and differ at position [i] only. *)
Definition differs_only_at (a b : str) (i : nat) : Prop :=
  length a = length b /\ forall j : nat, a !! j <> b !! j <-> j = i.

(** The order of [_dna_ambigs]: the codes of two bases, then the codes of
    three (a base and a code of two), then [N] (a base and a code of
    three). *)
Definition doublets_triples_N : Prop :=
  _dna_ambigs = lit "RYKMSW" ++ lit "BDHV" ++ lit "N" /\
  Forall (fun a => exists k1 k2,
            Py.assoc _dna_ambig_mappings a = Some [k1; k2] /\
            In k1 _alph /\ In k2 _alph) (lit "RYKMSW") /\
  Forall (fun a => exists k1 k2,
            Py.assoc _dna_ambig_mappings a = Some [k1; k2] /\
            In k1 _alph /\ In k2 (lit "RYKMSW")) (lit "BDHV") /\
  exists k2, Py.assoc _dna_ambig_mappings "N"%char = Some ["A"%char; k2] /\
             In k2 (lit "BDHV").

(** The letters of every ambiguity code of [ambigs] are in [seen] or come
    earlier in [ambigs]. *)
Fixpoint ambigs_ordered (mappings : list (ascii * str)) (seen ambigs : str) : bool :=
  match ambigs with
  | [] => true
  | a :: rest =>
      match Py.assoc mappings a with
      | Some [k1; k2] =>
          has_key seen k1 && has_key seen k2
          && ambigs_ordered mappings (seen ++ [a]) rest
      | _ => false
      end
  end.

(** The counts the specification gives an ambiguity code, from those of
    its two letters. *)
Definition spec_combined (c_counts : gmap ascii (Z * Z)) (P N : Z) (k1 k2 : ascii)
  : option (Z * Z) :=
  match c_counts !! k1, c_counts !! k2 with
  | Some (p1, n1), Some (p2, n2) =>
      Some (spec_union_estimate p1 p2 P, spec_union_estimate n1 n2 N)
  | _, _ => None
  end.

(** All counts of a column are counts of sequences of the two sets. *)
Definition counts_within (P N : Z) (c_counts : gmap ascii (Z * Z)) : Prop :=
  forall k p n, c_counts !! k = Some (p, n) -> 0 <= p <= P /\ 0 <= n <= N.

(** The counts of the significant record of the pattern with letter [k]
    in column [i]. *)
Definition significant_counts {num : Type} (num_lt : num -> num -> bool)
    (re : str) (re_pvalues : gmap str (pvalue_record num))
    (log_add_pthresh : num) (given_only : bool) (i : nat) (k : ascii)
  : option (Z * Z) :=
  match re_pvalues !! index_of given_only (Py.subst re i k) with
  | Some r => if num_lt (r_logp r) log_add_pthresh then Some (r_p r, r_n r) else None
  | None => None
  end.

(** What [re_generalize] stores for the letter [k] in column [i]. *)
Definition stored_for (re : str) (given_only : bool) (i : nat) (k : ascii)
    (key : str) : Prop :=
  let new_re := Py.subst re i k in
  head new_re <> Some "N"%char /\ last new_re <> Some "N"%char /\
  key = index_of given_only new_re.

(** *** Greedy refiner *)

(** [new_re] is [re] with the letter at one position replaced by another
    letter of [allowed]. *)
Definition substitution_of (allowed : str) (re new_re : str) : Prop :=
  exists (i : nat) (old new : ascii),
    re !! i = Some old /\ In new allowed /\ new <> old /\
    new_re = Py.subst re i new.

(** A substitution made from a parent pattern. *)
Definition parent_substitution (is_parent : str -> Prop) (allowed : str)
    (re new_re : str) : Prop :=
  is_parent re /\ substitution_of allowed re new_re.

(** The candidates of a round that were not refined before. *)
Definition to_refine {num : Type} (candidate_pvalues : list (str * pvalue_record num))
    (done_re_list : gset str) (re : str) : Prop :=
  In re (candidate_pvalues.*1) /\ re ∉ done_re_list.

(** How substitutions change the improved patterns and the table of
    records, from [st] to [st']: records are added, none is changed; a
    pattern with a record before keeps its place in or out of the
    improved patterns; a new record is that of a substitution made from a
    parent pattern, and it is among the improved patterns when its log
    p-value is less than that of its parent. *)
Definition refined_by {num : Type} (num_lt : num -> num -> bool)
    (record_of : str -> option (pvalue_record num))
    (is_sub : str -> str -> Prop)
    (st st' : gmap str (pvalue_record num) * gmap str (pvalue_record num)) : Prop :=
  (forall k r, st.2 !! k = Some r -> st'.2 !! k = Some r) /\
  (forall k, is_Some (st.2 !! k) \/ st'.2 !! k = None -> st'.1 !! k = st.1 !! k) /\
  (forall key r, st.2 !! key = None -> st'.2 !! key = Some r ->
     exists re new_re pr,
       is_sub re new_re /\ key = canonical new_re /\ record_of new_re = Some r /\
       st'.2 !! re = Some pr /\
       st'.1 !! key = if num_lt (r_logp r) (r_logp pr) then Some r else st.1 !! key).

(** Every substitution of [re] has a record in the table [T]. *)
Definition all_tried {num : Type} (allowed : str) (re : str)
    (T : gmap str (pvalue_record num)) : Prop :=
  forall new_re, substitution_of allowed re new_re -> is_Some (T !! canonical new_re).

(** How one round changes the state of [re_refine]: the records and the
    improved patterns as [refined_by] says, and every pattern that joins
    [done_re_list] has had all its substitutions tried. *)
Definition round_of {num : Type} (num_lt : num -> num -> bool)
    (record_of : str -> option (pvalue_record num))
    (is_sub : str -> str -> Prop) (allowed : str)
    (st st' : gmap str (pvalue_record num) * gmap str (pvalue_record num) * gset str)
  : Prop :=
  refined_by num_lt record_of is_sub st.1 st'.1 /\
  st.2 ⊆ st'.2 /\
  forall re, re ∈ st'.2 -> re ∈ st.2 \/ all_tried allowed re st'.1.2.

(** ** Sample inputs *)

(** A sequence of length zero. *)
Definition empty_seq : str := [].

(** The keys of [c_counts] in the order of the map. *)
Definition sample_keys (d : gmap ascii (Z * Z)) : list ascii := (map_to_list d).*1.

(** Records of two words, with log p-values as integers: [CAA] in 5 of 10
    positive and none of 10 negative sequences, [TAA] in 4 and 1. *)
Definition sample_table : gmap str (pvalue_record Z) :=
  <[lit "CAA" := mk_record 5 10 0 10 (-20) None]>
    (<[lit "TAA" := mk_record 4 10 1 10 (-15) None]> ∅).

(** Two positive and two negative sequences, and the exact records of the
    patterns [A] and [C] in them. *)
Definition sample_pos : list str := [lit "CC"; lit "CA"].
Definition sample_neg : list str := [lit "AA"; lit "AT"].
Definition sample_record_A : pvalue_record Z := mk_record 1 2 2 2 0 None.
Definition sample_record_C (logp : Z) : pvalue_record Z := mk_record 2 2 0 2 logp None.

(** The records of [CAA] and [AAA] among [2^27 + 1] positive and 10
    negative sequences. *)
Definition large_table : gmap str (pvalue_record Z) :=
  {[ lit "CAA" := mk_record (2 ^ 27) (2 ^ 27 + 1) 1 10 (-30) None;
     lit "AAA" := mk_record (2 ^ 26) (2 ^ 27 + 1) 1 10 (-20) None ]}.

(** A run of [main] on degenerate input: the directory is made, the
    reader finds no sequence in [pos.fa] and one sequence of length zero
    in [neg.fa], a call of the shuffle would raise an error, the search
    finds nothing below the threshold [-3] and the time is not limited. *)
Definition degenerate_reader (name : str) : option (list str) :=
  if bool_decide (name = lit "neg.fa") then Some [empty_seq] else Some [].

Definition degenerate_main (neg_name : option str) : main_result :=
  main Z.ltb Z.leb (-3) (fun _ _ _ _ => Some ([], 1000))
    (fun _ => false) (fun _ => false) (fun _ => None)
    (fun _ => Made) degenerate_reader (fun _ _ _ => None) (fun _ => None)
    (fun _ _ _ _ => true)
    {| pos_seq_file_name := Some (lit "pos.fa"); neg_seq_file_name := neg_name;
       outdir := lit "dreme_out"; clobber := true; seed := 1;
       description_file := None |}
    default_config 1.

(** Counts and totals to compare the two models of the float arithmetic
    on: all counts for some small totals, and large, negative and zero
    values, with results that are rounded, that are off the exact
    estimate, and that overflow. *)
Definition sample_counts : list (Z * Z * Z) :=
  flat_map
    (fun T =>
       let counts := map Z.of_nat (seq 0 (S (Z.to_nat T))) in
       flat_map (fun c1 => map (fun c2 => (c1, c2, T)) counts) counts)
    [1; 2; 3; 4; 5; 6; 7; 10]
  ++ [ (2 ^ 27, 2 ^ 26, 2 ^ 27 + 1); (2 ^ 53 + 1, 1, 2 ^ 53 + 1);
       (2 ^ 53 + 1, 2, 2 ^ 53 + 1); (123456789, 987654321, 1234567891);
       (3, 5, 0); (-3, 5, 7); (3, 5, -7); (2 ^ 600, 2 ^ 600, 7);
       (2 ^ 1023, 2 ^ 1023, 2 ^ 1023); (2 ^ 1024, 1, 1); (1, 1, 2 ^ 1024);
       (2 ^ 52 + 1, 2 ^ 52 + 3, 2 ^ 53 - 1); (33554432, 33554431, 33554432);
       (2 ^ 30 + 1, 2 ^ 30 - 1, 2 ^ 31 - 1) ].

(** ** Further definitions *)

(** [w] is an instance of the pattern [re]: letter by letter, a base of
    the class of the pattern's letter. *)
Definition letter_matches (L c : ascii) : Prop :=
  exists cls, Py.assoc _ambig_to_dna L = Some cls /\ In c cls.

Definition instance_of (re w : str) : Prop := Forall2 letter_matches re w.

(** [re'] generalises [re]: letter by letter, every base the letter of
    [re] stands for is one the letter of [re'] stands for. *)
Definition generalises (re re' : str) : Prop :=
  Forall2 (fun L L' => forall c, letter_matches L c -> letter_matches L' c) re re'.

(** [s] has an instance of [re] as a substring, on the given strand or,
    unless [given_only], as an instance of the reverse complement. *)
Definition has_site (re : str) (given_only : bool) (s : str) : Prop :=
  exists a w b, s = a ++ w ++ b /\
    (instance_of re w \/ (given_only = false /\ instance_of (get_rc re) w)).

(** The key under which [update_seqs_with_words] counts a word. *)
Definition census_key (given_only : bool) (word : str) : str :=
  if given_only then word else canonical word.

(** The sequence [s] has a word without [N] or [n] that is counted under
    [key]. *)
Definition occurs (given_only : bool) (key s : str) : Prop :=
  exists a word b, s = a ++ word ++ b /\ Census.has_ambiguous word = false /\
                   census_key given_only word = key.

(** [n] of the sequences of a list satisfy [P]. *)
Inductive number_with (P : str -> Prop) : list str -> Z -> Prop :=
| number_nil : number_with P [] 0
| number_yes s seqs n : P s -> number_with P seqs n -> number_with P (s :: seqs) (n + 1)
| number_no s seqs n : ~ P s -> number_with P seqs n -> number_with P (s :: seqs) n.

(** Whether the pass of width [w] over [s] meets a word counted under
    [key]. *)
Definition hit (given_only : bool) (key : str) (w : Z) (s : str) (i : Z) : bool :=
  let word := Py.slice s i (i + w) in
  negb (Census.has_ambiguous word) && bool_decide (census_key given_only word = key).

Definition touched (b : bool) (d d' : Census.table) (key : str) (seq_no : Z) : Prop :=
  if b then d' !! key = Some (seq_count d key + 1, seq_no)
  else d' !! key = d !! key.

Section WordRecords.
Context {num : Type}.
Variable num0 : num.
Variable log_getFETprob : Z -> Z -> Z -> Z -> num.

(** [apply_fisher_test]: a record for every word of the positive table,
    with its count in the negative table or [0]. *)
Definition apply_fisher_test (pos_sequence_counts neg_sequence_counts : Census.table)
    (P N : Z) : gmap str (pvalue_record num) :=
  map_imap
    (fun word (v : Z * Z) =>
       let p := v.1 in
       let n := match neg_sequence_counts !! word with
                | Some v' => v'.1
                | None => 0
                end in
       let log_pvalue := getLogPvalue num0 log_getFETprob p P n N in
       Some (mk_record p P n N log_pvalue None))
    pos_sequence_counts.

End WordRecords.

(** [get_type]: a record with a sixth item that is not negative is that of
    a consensus. *)
Definition get_type {num : Type} (pvalue_record : pvalue_record num) : str :=
  match r_dist pvalue_record with
  | Some d => if 0 <=? d then lit "consensus" else lit "RE"
  | None => lit "RE"
  end.

(** A table of five-item records over [P] positive and [N] negative
    sequences, with counts within these totals. *)
Definition records_ok {num : Type} (P N : Z) (T : gmap str (pvalue_record num)) : Prop :=
  forall k r, T !! k = Some r ->
    r_P r = P /\ r_N r = N /\ 0 <= r_p r <= P /\ 0 <= r_n r <= N /\
    get_type r = lit "RE".

(** The padding step of [re_extend_cores]: [pad = maxw - len(re)],
    [left_pad = pad/2] (the quotient rounded down),
    [right_pad = pad - left_pad]; a string times a negative number is
    empty. *)
Definition re_extend_cores_pad (re : str) (maxw : Z) : str :=
  let pad := maxw - Py.len re in
  let left_pad := pad / 2 in
  let right_pad := pad - left_pad in
  replicate (Z.to_nat left_pad) "N"%char ++ re
    ++ replicate (Z.to_nat right_pad) "N"%char.

(** The sequences without the letters that are not in the alphabet. *)
Definition only_letters (alphabet_string : str) (seqs : list str) : list str :=
  map (filter (fun c => c ∈ alphabet_string)) seqs.

(** ** The most common position of a pattern *)

(** [[0] * size]. *)
Definition int_zeros (size : Z) : list Z := replicate (Z.to_nat size) 0.

(** The body of the loop of [get_best_offset] over the sequences: the
    counts are extended to the length of the sequence and the count at
    the start of every match is incremented; an index past the end raises
    [IndexError]. *)
Definition count_offsets (m_given : Regex.matcher) (counts : list Z) (s : str)
  : option (list Z) :=
  let counts :=
    if Z.of_nat (length counts) <? Py.len s
    then counts ++ int_zeros (Py.len s - Z.of_nat (length counts))
    else counts in
  Py.fold_opt
    (fun counts (m : nat * nat) =>
       let offset := m.1 in
       c ← counts !! offset;
       Some (<[offset := c + 1]> counts))
    counts (Regex.finditer m_given s).

(** [a < b] on pairs of integers. *)
Definition pair_lt (a b : Z * Z) : bool :=
  (a.1 <? b.1) || ((a.1 =? b.1) && (a.2 <? b.2)).

(** [max] of a list of pairs: the first of the greatest items; on the
    empty list it raises [ValueError]. *)
Definition max_pair (l : list (Z * Z)) : option (Z * Z) :=
  match l with
  | [] => None
  | x :: l' => Some (fold_left (fun best y => if pair_lt best y then y else best) l' x)
  end.

Definition get_best_offset (re : str) (seqs : list str) : option Z :=
  m_given ← make_dna_re re true false;
  counts ← Py.fold_opt (count_offsets m_given) [] seqs;
  best ← max_pair (imap (fun offset c => (c, Z.of_nat offset)) counts);
  Some best.2.

(** The number of matches that start at [offset], over all sequences. *)
Definition starts_at (m : Regex.matcher) (seqs : list str) (offset : nat) : Z :=
  Z.of_nat (length (filter (fun bn : nat * nat => bn.1 = offset)
                      (flat_map (Regex.finditer m) seqs))).

(** The length of the longest sequence. *)
Definition longest (seqs : list str) : nat := foldr Nat.max 0%nat (map length seqs).

(** The sequences of a set are those of another one, some letters
    overwritten by [N]. *)
Definition masked_set (seqs seqs' : list str) : Prop :=
  Forall2 (Forall2 masked) seqs seqs'.

(** The number of searches and of erasures among the events of a run. *)
Definition searches (evs : list event) : Z :=
  Z.of_nat (length (List.filter
                      (fun e => match e with Looking _ => true | _ => false end) evs)).
Definition erasures (evs : list event) : Z :=
  Z.of_nat (length (List.filter
                      (fun e => match e with Erasing _ => true | _ => false end) evs)).

(** ** Sequence strings *)

(** [str.upper()] on ASCII: the letters [a] to [z] become [A] to [Z]. *)
Definition upper_char (c : ascii) : ascii :=
  let n := nat_of_ascii c in
  if (97 <=? n)%nat && (n <=? 122)%nat then ascii_of_nat (n - 32) else c.

Definition upper (s : str) : str := map upper_char s.

(** [get_strings_from_seqs], on the strings of the records: upper case,
    then [U] to [T] and the ambiguity codes to [N]. *)
Definition get_strings_from_seqs (seqs : list str) : list str :=
  let ms := maketrans (lit "URYKMBVDHSW") (lit "TNNNNNNNNNN") in
  map (fun str => translate ms (upper str)) seqs.

(** A lower-case letter. *)
Definition is_lower (c : ascii) : bool :=
  (97 <=? nat_of_ascii c)%nat && (nat_of_ascii c <=? 122)%nat.

(** ** The components of a motif *)

Record MotifComponent (num : Type) := mk_component {
  c_re : str; c_p : Z; c_n : Z; c_log_pv : num; c_log_ev : num }.
Arguments mk_component {num} _ _ _ _ _.
Arguments c_re {num} _.
Arguments c_p {num} _.
Arguments c_n {num} _.
Arguments c_log_pv {num} _.
Arguments c_log_ev {num} _.

Section Components.
Context {num : Type}.
Variable num_lt : num -> num -> bool.
(** [log_pv + log(len(re_pvalues))]. *)
Variable log_evalue : num -> nat -> num.

(** [get_matching_significant_components]; [re_pvalues] is the dictionary
    as the list of its items in the order of the iteration. An empty
    [match_re] counts as false. *)
Definition get_matching_significant_components (best_re : str)
    (re_pvalues : list (str * pvalue_record num)) (log_add_pthresh : num)
  : option (list (MotifComponent num)) :=
  m_given ← make_dna_re best_re true true;
  Some (flat_map
          (fun item : str * pvalue_record num =>
             let re := item.1 in
             let r := item.2 in
             let match_re :=
               if bool_decide (is_Some (Regex.search m_given re)) then re
               else
                 let rc_re := get_rc re in
                 if bool_decide (is_Some (Regex.search m_given rc_re)) then rc_re
                 else [] in
             if negb (bool_decide (match_re = [])) && num_lt (r_logp r) log_add_pthresh
             then [mk_component match_re (r_p r) (r_n r) (r_logp r)
                     (log_evalue (r_logp r) (length re_pvalues))]
             else [])
          re_pvalues).

End Components.

(** [s] as a whole is an instance of the pattern, a final newline apart. *)
Definition full_match (re s : str) : Prop :=
  exists w rest, s = w ++ rest /\ instance_of re w /\
                 (rest = [] \/ rest = ["010"%char]).

(** ** The best pattern *)

(** What [output_best_re] returns: the best pattern, its reverse
    complement, its log p-value, its log E-value and its log E-value in
    the sequences before any erasing. *)
Record best_re_result (num : Type) := mk_best {
  b_re : str; b_rc : str; b_log_pvalue : num; b_log_Evalue : num;
  b_unerased_log_Evalue : num }.
Arguments mk_best {num} _ _ _ _ _.
Arguments b_re {num} _.
Arguments b_rc {num} _.
Arguments b_log_pvalue {num} _.
Arguments b_log_Evalue {num} _.
Arguments b_unerased_log_Evalue {num} _.

Section BestRE.
Context {num : Type}.
Variable num0 : num.
(** [a < b] and [a == b] on log p-values. *)
Variable num_lt num_eqb : num -> num -> bool.
Variable log_getFETprob : Z -> Z -> Z -> Z -> num.
(** [1e300]. *)
Variable huge : num.
(** [log_pvalue + log(len(re_pvalues))]. *)
Variable log_evalue : num -> nat -> num.
(** The order in which [for re in re_pvalues] visits the keys. *)
Variable re_keys : gmap str (pvalue_record num) -> list str.

(** [a < b] on tuples [(log_pvalue, re)]: the first items that differ
    decide. *)
Definition candidate_lt (a b : num * str) : bool :=
  if num_eqb a.1 b.1 then Py.str_lt a.2 b.2 else num_lt a.1 b.1.

(** [min] of a non-empty list: the first of the smallest items. *)
Definition min_candidate (x : num * str) (l : list (num * str)) : num * str :=
  fold_left (fun best y => if candidate_lt y best then y else best) l x.

(** [output_best_re] without the output it writes: the selection of the
    best pattern within the width range and the values it returns. The
    assertion on the length of the record and the exact enrichment of the
    pattern in the unerased sequences can raise. *)
Definition output_best_re (re_pvalues : gmap str (pvalue_record num))
    (minw maxw : Z) (unerased_pos_seqs unerased_neg_seqs : list str)
    (given_only : bool) : option (best_re_result num) :=
  candidates ←
    mapM (fun re => r ← re_pvalues !! re; Some (r_logp r, re))
      (List.filter (fun re => (minw <=? Py.len re) && (Py.len re <=? maxw))
         (re_keys re_pvalues));
  match candidates with
  | [] => Some (mk_best [] [] huge huge huge)
  | x :: l =>
      let best_re := (min_candidate x l).2 in
      r ← re_pvalues !! best_re;
      if bool_decide (r_dist r = None) then
        let best_log_pvalue := r_logp r in
        let best_log_Evalue := log_evalue best_log_pvalue (size re_pvalues) in
        unerased_log_pvalue ←
          compute_exact_re_enrichment num0 log_getFETprob best_re
            unerased_pos_seqs unerased_neg_seqs given_only;
        let unerased_log_Evalue :=
          log_evalue (r_logp unerased_log_pvalue) (size re_pvalues) in
        Some (mk_best best_re (get_rc best_re) best_log_pvalue best_log_Evalue
                unerased_log_Evalue)
      else None
  end.

End BestRE.

(** The width of a pattern is within the range. *)
Definition in_width_range (minw maxw : Z) (re : str) : Prop :=
  minw <= Py.len re <= maxw.

(** * Properties *)

(** ** Strings and reverse complements *)

Lemma nat_of_ascii_inj (x y : ascii) : nat_of_ascii x = nat_of_ascii y -> x = y.
Proof.
  intros H. rewrite <- (ascii_nat_embedding x), <- (ascii_nat_embedding y).
  now rewrite H.
Qed.

Lemma str_lt_asym (a b : str) : Py.str_lt a b = true -> Py.str_lt b a = false.
Proof.
  revert b. induction a as [|x a IH]; intros [|y b]; simpl; try easy.
  destruct (Nat.ltb_spec (nat_of_ascii x) (nat_of_ascii y)) as [Hxy|Hxy].
  - intros _. destruct (Nat.ltb_spec (nat_of_ascii y) (nat_of_ascii x)); [lia|].
    destruct (Nat.ltb_spec (nat_of_ascii x) (nat_of_ascii y)); [easy|lia].
  - destruct (Nat.ltb_spec (nat_of_ascii y) (nat_of_ascii x)); [easy|].
    apply IH.
Qed.

Lemma str_lt_total (a b : str) :
  Py.str_lt a b = false -> Py.str_lt b a = false -> a = b.
Proof.
  revert b. induction a as [|x a IH]; intros [|y b]; simpl; try easy.
  destruct (Nat.ltb_spec (nat_of_ascii x) (nat_of_ascii y)) as [Hxy|Hxy]; [easy|].
  destruct (Nat.ltb_spec (nat_of_ascii y) (nat_of_ascii x)) as [Hyx|Hyx]; [easy|].
  intros Hab Hba. f_equal.
  - apply nat_of_ascii_inj. lia.
  - now apply IH.
Qed.

Lemma py_min_comm (a b : str) : Py.min a b = Py.min b a.
Proof.
  unfold Py.min.
  destruct (Py.str_lt b a) eqn:Hba, (Py.str_lt a b) eqn:Hab; try reflexivity.
  - apply str_lt_asym in Hba. congruence.
  - symmetry. now apply str_lt_total.
Qed.

Lemma is_iupac_cases (c : ascii) :
  is_iupac c = true -> In c all_letters.
Proof.
  unfold is_iupac. intros H. apply existsb_exists in H as (x & Hin & Heq).
  apply Ascii.eqb_eq in Heq. now subst.
Qed.

Lemma complement_involutive (c : ascii) :
  is_iupac c = true ->
  default (default c (Py.assoc rc_table c))
    (Py.assoc rc_table (default c (Py.assoc rc_table c))) = c.
Proof.
  intros H. apply is_iupac_cases in H. simpl in H.
  repeat (destruct H as [<-|H]; [reflexivity|]). destruct H.
Qed.

Lemma complement_iupac (c : ascii) :
  is_iupac c = true -> is_iupac (default c (Py.assoc rc_table c)) = true.
Proof.
  intros H. apply is_iupac_cases in H. simpl in H.
  repeat (destruct H as [<-|H]; [reflexivity|]). destruct H.
Qed.

Lemma translate_rc_involutive (w : str) :
  iupac_pattern w -> translate rc_table (translate rc_table w) = w.
Proof.
  unfold translate. rewrite map_map.
  induction 1 as [|c w Hc _ IH]; cbn [map]; [reflexivity|].
  f_equal; [now apply complement_involutive | exact IH].
Qed.

Lemma translate_rev (t : list (ascii * ascii)) (w : str) :
  translate t (rev w) = rev (translate t w).
Proof. unfold translate. apply map_rev. Qed.

Lemma get_rc_involutive (w : str) : iupac_pattern w -> get_rc (get_rc w) = w.
Proof.
  intros H. unfold get_rc.
  now rewrite translate_rev, rev_involutive, translate_rc_involutive.
Qed.

Lemma get_rc_length (w : str) : length (get_rc w) = length w.
Proof. unfold get_rc, translate. now rewrite length_rev, length_map. Qed.

Lemma get_rc_iupac (w : str) : iupac_pattern w -> iupac_pattern (get_rc w).
Proof.
  unfold iupac_pattern, get_rc, translate. intros H.
  apply Forall_rev, Forall_map.
  eapply Forall_impl; [exact H|]. intros c Hc. now apply complement_iupac.
Qed.

Lemma py_min_cases (a b : str) : Py.min a b = a \/ Py.min a b = b.
Proof. unfold Py.min. destruct (Py.str_lt b a); auto. Qed.

Lemma assoc_In {V} (d : list (ascii * V)) (c : ascii) (v : V) :
  Py.assoc d c = Some v -> In (c, v) d.
Proof.
  induction d as [|[k x] d IH]; cbn [Py.assoc]; [easy|].
  destruct (Ascii.eqb_spec k c) as [->|_].
  - intros [= ->]. now left.
  - intros H. right. now apply IH.
Qed.

Lemma complement_N (c : ascii) :
  default c (Py.assoc rc_table c) = "N"%char -> c = "N"%char.
Proof.
  destruct (Py.assoc rc_table c) as [v|] eqn:E; [|easy].
  apply assoc_In in E. cbn in E. intros Hv. cbn in Hv. subst v.
  repeat (destruct E as [E|E];
          [first [discriminate E | injection E as <-; reflexivity]|]).
  destruct E.
Qed.

(** C3: for a pattern over the fifteen IUPAC letters, the canonical form
    (the smaller of the pattern and its reverse complement) is the same
    from the pattern and from its reverse complement. *)
Theorem canonical_get_rc (w : str) :
  iupac_pattern w -> canonical w = canonical (get_rc w).
Proof.
  intros H. unfold canonical.
  rewrite (get_rc_involutive w H). apply py_min_comm.
Qed.

Lemma canonical_get_rc_witness :
  iupac_pattern (lit "YAAC") /\
  canonical (lit "YAAC") = canonical (get_rc (lit "YAAC")).
Proof.
  assert (H : iupac_pattern (lit "YAAC")) by (repeat constructor).
  split; [exact H | exact (canonical_get_rc (lit "YAAC") H)].
Defined.

(** ** Enrichment scorer *)

(** C1: [getLogPvalue(p, P, n, N)] is [0] when [p*N <= n*P], and the tail
    primitive is not called; when [p*N > n*P] it is called once, on
    [(N-n, n, P-p, p)], and its result is returned. *)
Theorem getLogPvalue_short_circuit {num : Type} (num0 : num)
    (log_getFETprob : Z -> Z -> Z -> Z -> num) (p P n N : Z) :
  (p * N <= n * P ->
     getLogPvalue num0 log_getFETprob p P n N = num0 /\
     fet_calls log_getFETprob (getLogPvalue_prog num0 p P n N) = []) /\
  (p * N > n * P ->
     getLogPvalue num0 log_getFETprob p P n N = log_getFETprob (N - n) n (P - p) p /\
     fet_calls log_getFETprob (getLogPvalue_prog num0 p P n N)
       = [(N - n, n, P - p, p)]).
Proof.
  unfold getLogPvalue, getLogPvalue_prog.
  destruct (Z.gtb_spec (p * N) (n * P)); split; intros; try lia; now simpl.
Qed.

Lemma getLogPvalue_short_circuit_witness :
  let log_getFETprob : Z -> Z -> Z -> Z -> Z := fun _ _ _ _ => -3 in
  (2 * 10 <= 5 * 10 /\
   getLogPvalue 0 log_getFETprob 2 10 5 10 = 0 /\
   fet_calls log_getFETprob (getLogPvalue_prog 0 2 10 5 10) = []) /\
  (7 * 10 > 1 * 10 /\
   getLogPvalue 0 log_getFETprob 7 10 1 10 = log_getFETprob 9 1 3 7 /\
   fet_calls log_getFETprob (getLogPvalue_prog 0 7 10 1 10) = [(9, 1, 3, 7)]).
Proof.
  cbv zeta.
  assert (H1 : 2 * 10 <= 5 * 10) by lia.
  assert (H2 : 7 * 10 > 1 * 10) by lia.
  split.
  - split; [exact H1|].
    exact (proj1 (getLogPvalue_short_circuit 0 (fun _ _ _ _ => -3) 2 10 5 10) H1).
  - split; [exact H2|].
    exact (proj2 (getLogPvalue_short_circuit 0 (fun _ _ _ _ => -3) 7 10 1 10) H2).
Defined.

(** ** Matcher *)

Lemma ambig_to_dna_bases (c : ascii) (cls : str) :
  Py.assoc _ambig_to_dna c = Some cls -> bases_only cls /\ cls <> [].
Proof.
  intros H. apply assoc_In in H. unfold _ambig_to_dna in H.
  cbn [In] in H.
  repeat (destruct H as [[= <- <-]|H]; [split; [repeat constructor|easy]|]).
  destruct H.
Qed.

Lemma ambig_to_dna_total (c : ascii) :
  is_iupac c = true -> is_Some (Py.assoc _ambig_to_dna c).
Proof.
  intros H. apply is_iupac_cases in H. cbn in H.
  repeat (destruct H as [<-|H]; [eexists; reflexivity|]). destruct H.
Qed.

Lemma expand_classes_total (re : str) :
  iupac_pattern re -> is_Some (expand_classes re).
Proof.
  intros H. unfold expand_classes. apply mapM_is_Some.
  eapply Forall_impl; [exact H|]. intros c Hc. now apply ambig_to_dna_total.
Qed.

Lemma expand_classes_spec (re : str) (cs : list Regex.charclass) :
  expand_classes re = Some cs ->
  length cs = length re /\ Forall (fun cls => bases_only cls /\ cls <> []) cs.
Proof.
  unfold expand_classes. intros H. split.
  - symmetry. eapply length_mapM, H.
  - apply mapM_Some in H. induction H as [|c cls re cs Hc _ IH]; constructor.
    + now apply ambig_to_dna_bases in Hc.
    + exact IH.
Qed.

Lemma class_match_base (cls : Regex.charclass) (c : ascii) :
  bases_only cls -> Regex.class_match cls c = true -> is_base c = true.
Proof.
  unfold Regex.class_match. intros Hcls H.
  apply existsb_exists in H as (x & Hin & Heq). apply Ascii.eqb_eq in Heq. subst x.
  unfold bases_only in Hcls. rewrite Forall_forall in Hcls.
  apply Hcls. now apply list_elem_of_In.
Qed.

Lemma classes_match_length (cs : list Regex.charclass) (s : str) (n : nat) :
  Regex.classes_match cs s = Some n -> n = length cs /\ (n <= length s)%nat.
Proof.
  revert s n. induction cs as [|cls cs IH]; intros s n; cbn [Regex.classes_match].
  - intros [= <-]. cbn. lia.
  - destruct s as [|c s]; [easy|].
    destruct (Regex.class_match cls c); [|easy].
    destruct (Regex.classes_match cs s) as [k|] eqn:Hk; [|easy].
    intros [= <-]. destruct (IH _ _ Hk). cbn. lia.
Qed.

Lemma classes_match_bases (cs : list Regex.charclass) (s : str) (n : nat) :
  Forall bases_only cs ->
  Regex.classes_match cs s = Some n -> bases_only (take n s).
Proof.
  intros Hcs. revert s n.
  induction Hcs as [|cls cs Hcls _ IH]; intros s n; cbn [Regex.classes_match].
  - intros [= <-]. constructor.
  - destruct s as [|c s]; [easy|].
    destruct (Regex.class_match cls c) eqn:Hc; [|easy].
    destruct (Regex.classes_match cs s) as [k|] eqn:Hk; [|easy].
    intros [= <-]. cbn [take]. constructor.
    + eapply class_match_base; eassumption.
    + now apply IH.
Qed.

Lemma alternatives_match_In (alts : list (list Regex.charclass)) (to_end : bool)
    (s : str) (n : nat) :
  Regex.alternatives_match alts to_end s = Some n ->
  exists cs, In cs alts /\ Regex.classes_match cs s = Some n.
Proof.
  induction alts as [|cs alts IH]; cbn [Regex.alternatives_match]; [easy|].
  destruct (Regex.classes_match cs s) as [k|] eqn:Hk.
  - destruct (negb to_end || Regex.at_end (drop k s)).
    + intros [= <-]. exists cs. split; [now left|exact Hk].
    + intros H. destruct (IH H) as (cs' & Hin & Hm). exists cs'. split; [now right|exact Hm].
  - intros H. destruct (IH H) as (cs' & Hin & Hm). exists cs'. split; [now right|exact Hm].
Qed.

Lemma match_here_In (m : Regex.matcher) (pos : nat) (s : str) (n : nat) :
  Regex.match_here m pos s = Some n ->
  exists cs, In cs (Regex.alternatives m) /\ Regex.classes_match cs s = Some n.
Proof.
  unfold Regex.match_here. destruct (Regex.anchored m).
  - destruct (pos =? 0)%nat; [|easy]. apply alternatives_match_In.
  - apply alternatives_match_In.
Qed.

Lemma make_dna_re_spec (re : str) (given_only complete : bool) (ms : Regex.matcher) :
  make_dna_re re given_only complete = Some ms ->
  Regex.anchored ms = complete /\ dna_matcher (length re) ms /\
  Regex.alternatives ms <> [].
Proof.
  unfold make_dna_re, dna_matcher. intros H.
  destruct (expand_classes re) as [RE|] eqn:HRE; [|easy]. cbn in H.
  apply expand_classes_spec in HRE as [Hlen Hb].
  assert (HRE : length RE = length re /\ Forall bases_only RE).
  { split; [exact Hlen|]. eapply Forall_impl; [exact Hb|]. now intros cls [? _]. }
  destruct given_only; cbn in H.
  - injection H as <-. cbn. repeat split; [|easy].
    apply Forall_cons; split; [exact HRE|constructor].
  - destruct (expand_classes (get_rc re)) as [rc_RE|] eqn:Hrc; [|easy].
    cbn in H. injection H as <-. cbn. repeat split; [|easy].
    apply expand_classes_spec in Hrc as [Hlen' Hb'].
    rewrite get_rc_length in Hlen'.
    apply Forall_cons; split; [exact HRE|].
    apply Forall_cons; split; [|constructor].
    split; [exact Hlen'|].
    eapply Forall_impl; [exact Hb'|]. now intros cls [? _].
Qed.

Lemma make_dna_re_total (re : str) (given_only complete : bool) :
  iupac_pattern re -> is_Some (make_dna_re re given_only complete).
Proof.
  intros H. unfold make_dna_re.
  destruct (expand_classes_total re H) as [RE ->]. cbn.
  destruct given_only; cbn; [now eexists|].
  destruct (expand_classes_total _ (get_rc_iupac re H)) as [rc_RE ->]. cbn.
  now eexists.
Qed.

Lemma match_here_bases (w : nat) (m : Regex.matcher) (pos : nat) (s : str) (n : nat) :
  dna_matcher w m -> Regex.match_here m pos s = Some n ->
  n = w /\ (n <= length s)%nat /\ bases_only (take n s).
Proof.
  intros Hm H. apply match_here_In in H as (cs & Hin & Hcs).
  unfold dna_matcher in Hm. rewrite Forall_forall in Hm.
  destruct (Hm cs) as [Hlen Hb]; [now apply list_elem_of_In|].
  destruct (classes_match_length _ _ _ Hcs) as [-> Hle].
  repeat split; try assumption. eapply classes_match_bases; eassumption.
Qed.

(** The matcher stands for the text that the program compiles. *)
Lemma expand_classes_text (re acc : str) :
  Py.fold_opt (fun RE c => cls ← Py.assoc _ambig_to_dna c;
                           Some (RE ++ lit "[" ++ cls ++ lit "]")) acc re
  = (fun cs => acc ++ Regex.classes_text cs) <$> expand_classes re.
Proof.
  unfold expand_classes. revert acc.
  induction re as [|c re IH]; intros acc; cbn [Py.fold_opt mapM].
  - cbn. f_equal. symmetry. apply app_nil_r.
  - destruct (Py.assoc _ambig_to_dna c) as [cls|]; [|reflexivity].
    cbn [mbind option_bind]. rewrite IH.
    destruct (mapM (Py.assoc _ambig_to_dna) re) as [cs|]; [|reflexivity].
    cbn. unfold Regex.classes_text, Regex.class_text. cbn [map concat].
    f_equal. rewrite <- app_assoc. reflexivity.
Qed.

Lemma make_dna_re_text_matcher (re : str) (given_only complete : bool) :
  make_dna_re_text re given_only complete
  = Regex.matcher_text <$> make_dna_re re given_only complete.
Proof.
  unfold make_dna_re_text, make_dna_re. rewrite !expand_classes_text.
  destruct (expand_classes re) as [RE|]; [|reflexivity].
  destruct given_only; cbn.
  - now destruct complete.
  - destruct (expand_classes (get_rc re)) as [rc_RE|]; [|reflexivity].
    now destruct complete.
Qed.

(** The matches that [finditer] reports are matches. *)
Lemma finditer_go_matches (m : Regex.matcher) (s : str) (pos skip b n : nat) :
  In (b, n) (Regex.finditer_go m pos skip s) ->
  (pos <= b)%nat /\ Regex.match_here m b (drop (b - pos) s) = Some n.
Proof.
  revert pos skip. induction s as [|c s IH]; intros pos skip.
  - destruct skip; cbn [Regex.finditer_go]; [|easy].
    destruct (Regex.match_here m pos []) as [k|] eqn:Hk; [|easy].
    intros [[= <- <-]|[]]. split; [lia|]. now rewrite Nat.sub_diag.
  - destruct skip; cbn [Regex.finditer_go].
    + destruct (Regex.match_here m pos (c :: s)) as [k|] eqn:Hk.
      * intros [[= <- <-]|H].
        -- split; [lia|]. now rewrite Nat.sub_diag.
        -- apply IH in H as [Hle H]. split; [lia|].
           replace (b - pos)%nat with (S (b - S pos)) by lia. exact H.
      * intros H. apply IH in H as [Hle H]. split; [lia|].
        replace (b - pos)%nat with (S (b - S pos)) by lia. exact H.
    + intros H. apply IH in H as [Hle H]. split; [lia|].
      replace (b - pos)%nat with (S (b - S pos)) by lia. exact H.
Qed.

Lemma search_from_matches (m : Regex.matcher) (s : str) (pos b n : nat) :
  Regex.search_from m pos s = Some (b, n) ->
  (pos <= b)%nat /\ Regex.match_here m b (drop (b - pos) s) = Some n.
Proof.
  revert pos. induction s as [|c s IH]; intros pos; cbn [Regex.search_from].
  - destruct (Regex.match_here m pos []) as [k|] eqn:Hk; [|easy].
    intros [= <- <-]. split; [lia|]. now rewrite Nat.sub_diag.
  - destruct (Regex.match_here m pos (c :: s)) as [k|] eqn:Hk.
    + intros [= <- <-]. split; [lia|]. now rewrite Nat.sub_diag.
    + intros H. apply IH in H as [Hle H]. split; [lia|].
      replace (b - pos)%nat with (S (b - S pos)) by lia. exact H.
Qed.

Lemma bases_only_no_N (s : str) : bases_only s -> ~ In "N"%char s.
Proof.
  unfold bases_only. rewrite Forall_forall. intros H Hin.
  apply list_elem_of_In in Hin. now apply H in Hin.
Qed.

(** ** Erasure *)

Lemma class_match_N (cls : Regex.charclass) :
  bases_only cls -> Regex.class_match cls "N"%char = false.
Proof.
  intros H. destruct (Regex.class_match cls "N"%char) eqn:E; [|reflexivity].
  now apply (class_match_base _ _ H) in E.
Qed.

Lemma classes_match_masked (cs : list Regex.charclass) (s s' : str) :
  Forall bases_only cs -> Forall2 masked s s' ->
  Regex.classes_match cs s = None -> Regex.classes_match cs s' = None.
Proof.
  intros Hcs. revert s s'.
  induction Hcs as [|cls cs Hcls _ IH]; intros s s' Hss; cbn [Regex.classes_match];
    [easy|].
  destruct Hss as [|c c' s s' Hc Hss]; [easy|].
  destruct Hc as [->| ->].
  - destruct (Regex.class_match cls c); [|easy].
    destruct (Regex.classes_match cs s) eqn:E; [easy|].
    intros _. now rewrite (IH _ _ Hss E).
  - now rewrite (class_match_N _ Hcls).
Qed.

Lemma alternatives_match_masked (alts : list (list Regex.charclass)) (s s' : str) :
  Forall (fun cs => Forall bases_only cs) alts -> Forall2 masked s s' ->
  Regex.alternatives_match alts false s = None ->
  Regex.alternatives_match alts false s' = None.
Proof.
  intros Halts Hss. induction Halts as [|cs alts Hcs _ IH];
    cbn [Regex.alternatives_match negb orb]; [easy|].
  destruct (Regex.classes_match cs s) eqn:E; [easy|].
  intros H. now rewrite (classes_match_masked _ _ _ Hcs Hss E), IH.
Qed.

Lemma match_here_unanchored (m : Regex.matcher) (pos : nat) (s : str) :
  Regex.anchored m = false ->
  Regex.match_here m pos s = Regex.alternatives_match (Regex.alternatives m) false s.
Proof. intros H. unfold Regex.match_here. now rewrite H. Qed.

Lemma sub_go_pos (m : Regex.matcher) (r s : str) (p p' k : nat) (a : bool) :
  Regex.anchored m = false ->
  Regex.sub_go m r p k a s = Regex.sub_go m r p' k a s.
Proof.
  intros Hm. revert p p' k a. induction s as [|c s IH]; intros p p' k a.
  - destruct k; cbn [Regex.sub_go]; [|reflexivity].
    now rewrite !match_here_unanchored.
  - destruct k; cbn [Regex.sub_go].
    + rewrite !match_here_unanchored by exact Hm.
      destruct (Regex.alternatives_match _ _ _) as [[|n]|];
        now rewrite (IH (S p) (S p')).
    + apply IH.
Qed.

Lemma sub_go_skip (m : Regex.matcher) (r s : str) (p k : nat) (a : bool) :
  Regex.anchored m = false -> (k <= length s)%nat ->
  Regex.sub_go m r p (S k) a s = Regex.sub_go m r p 1 true (drop k s).
Proof.
  intros Hm. revert p k a. induction s as [|c s IH]; intros p k a Hk.
  - cbn in Hk. replace k with 0%nat by lia. reflexivity.
  - destruct k as [|k]; [reflexivity|].
    cbn [Regex.sub_go drop]. cbn in Hk. rewrite IH by lia.
    now apply sub_go_pos.
Qed.

(** Without width the replacement is empty and nothing changes. *)
Lemma sub_go_width_0 (m : Regex.matcher) (s : str) (p : nat) (a : bool) :
  dna_matcher 0 m -> Regex.sub_go m [] p 0 a s = s.
Proof.
  intros Hm. revert p a. induction s as [|c s IH]; intros p a;
    cbn [Regex.sub_go].
  - destruct (Regex.match_here m p []) as [n|] eqn:E; [|reflexivity].
    destruct (match_here_bases _ _ _ _ _ Hm E) as [-> _]. now destruct a.
  - destruct (Regex.match_here m p (c :: s)) as [n|] eqn:E.
    + destruct (match_here_bases _ _ _ _ _ Hm E) as [-> _].
      rewrite IH. now destruct a.
    + now rewrite IH.
Qed.

(** With a width no match is empty, and [adj] plays no part. *)
Lemma sub_go_adj (m : Regex.matcher) (w : nat) (r s : str) (p : nat) (a : bool) :
  dna_matcher (S w) m ->
  Regex.sub_go m r p 0 a s = Regex.sub_go m r p 0 false s.
Proof.
  intros Hm. destruct s as [|c s]; cbn [Regex.sub_go].
  - destruct (Regex.match_here m p []) as [[|j]|] eqn:E; try reflexivity.
    now destruct (match_here_bases _ _ _ _ _ Hm E) as [? _].
  - destruct (Regex.match_here m p (c :: s)) as [[|j]|] eqn:E; try reflexivity.
    now destruct (match_here_bases _ _ _ _ _ Hm E) as [? _].
Qed.

Lemma sub_nil (m : Regex.matcher) (w : nat) (r : str) :
  dna_matcher (S w) m -> Regex.sub m r [] = [].
Proof.
  intros Hm. unfold Regex.sub. cbn [Regex.sub_go].
  destruct (Regex.match_here m 0 []) as [n|] eqn:E; [|reflexivity].
  destruct (match_here_bases _ _ _ _ _ Hm E) as (-> & Hle & _).
  cbn in Hle. lia.
Qed.

Lemma sub_no_match (m : Regex.matcher) (r : str) (c : ascii) (s : str) :
  Regex.anchored m = false ->
  Regex.alternatives_match (Regex.alternatives m) false (c :: s) = None ->
  Regex.sub m r (c :: s) = c :: Regex.sub m r s.
Proof.
  intros Hm H. unfold Regex.sub. cbn [Regex.sub_go].
  rewrite match_here_unanchored, H by exact Hm. f_equal. now apply sub_go_pos.
Qed.

Lemma sub_match (m : Regex.matcher) (w : nat) (r s : str) (n : nat) :
  Regex.anchored m = false -> dna_matcher (S w) m ->
  Regex.alternatives_match (Regex.alternatives m) false s = Some n ->
  Regex.sub m r s = r ++ Regex.sub m r (drop (S w) s) /\ (S w <= length s)%nat.
Proof.
  intros Hm Hdna H. rewrite <- (match_here_unanchored m 0) in H by exact Hm.
  destruct (match_here_bases _ _ _ _ _ Hdna H) as (-> & Hle & _).
  split; [|exact Hle].
  destruct s as [|c s]; [cbn in Hle; lia|].
  unfold Regex.sub. cbn [Regex.sub_go]. rewrite H. f_equal.
  cbn in Hle. cbn [drop]. destruct w as [|k].
  - rewrite drop_0, (sub_go_pos m r s 1 0 0 true) by exact Hm.
    now apply (sub_go_adj m 0).
  - rewrite sub_go_skip by (exact Hm || lia).
    destruct (drop k s) as [|c' t] eqn:Ed.
    + apply (f_equal length) in Ed. rewrite length_drop in Ed. cbn in Ed. lia.
    + cbn [Regex.sub_go].
      replace (drop (S k) s) with t.
      2:{ replace (S k) with (k + 1)%nat by lia. rewrite <- drop_drop, Ed.
          reflexivity. }
      rewrite (sub_go_pos m r t 2 0 0 true) by exact Hm.
      now apply (sub_go_adj m (S k)).
Qed.

Lemma no_match_at_N (m : Regex.matcher) (w : nat) (s : str) :
  dna_matcher (S w) m ->
  Regex.alternatives_match (Regex.alternatives m) false ("N"%char :: s) = None.
Proof.
  unfold dna_matcher. induction 1 as [|cs alts [Hlen Hcs] _ IH];
    cbn [Regex.alternatives_match]; [reflexivity|].
  destruct cs as [|cls cs]; [discriminate Hlen|].
  apply Forall_cons in Hcs as [Hcls _].
  cbn [Regex.classes_match]. now rewrite (class_match_N _ Hcls).
Qed.

Lemma sub_run_of_N (m : Regex.matcher) (w : nat) (r : str) (k : nat) (s : str) :
  Regex.anchored m = false -> dna_matcher (S w) m ->
  Regex.sub m r (run_of_N k ++ s) = run_of_N k ++ Regex.sub m r s.
Proof.
  intros Hm Hdna. induction k as [|k IH]; [reflexivity|].
  unfold run_of_N in *. cbn [replicate app].
  rewrite sub_no_match by (exact Hm || now apply (no_match_at_N m w)).
  now rewrite IH.
Qed.

Lemma masked_refl (s : str) : Forall2 masked s s.
Proof. induction s; constructor; [now left|assumption]. Qed.

Lemma masked_run_of_N (s : str) : Forall2 masked s (run_of_N (length s)).
Proof. induction s; constructor; [now right|assumption]. Qed.

(** Erasing changes letters into [N] and nothing else. *)
Lemma sub_masked (m : Regex.matcher) (w : nat) (s : str) :
  Regex.anchored m = false -> dna_matcher (S w) m ->
  Forall2 masked s (Regex.sub m (run_of_N (S w)) s).
Proof.
  intros Hm Hdna. remember (length s) as n eqn:Hn.
  assert (Hle : (length s <= n)%nat) by lia. clear Hn.
  revert s Hle. induction n as [|n IH]; intros s Hle.
  - destruct s; [|cbn in Hle; lia]. rewrite (sub_nil m w) by exact Hdna. constructor.
  - destruct s as [|c s]; [rewrite (sub_nil m w) by exact Hdna; constructor|].
    cbn in Hle.
    destruct (Regex.alternatives_match (Regex.alternatives m) false (c :: s))
      as [k|] eqn:E.
    + destruct (sub_match m w (run_of_N (S w)) _ _ Hm Hdna E) as [-> Hlen].
      rewrite <- (take_drop (S w) (c :: s)) at 1.
      apply Forall2_app.
      * replace (S w) with (length (take (S w) (c :: s))) at 2
          by (rewrite length_take; lia).
        apply masked_run_of_N.
      * apply IH. rewrite length_drop. cbn [length]. lia.
    + rewrite sub_no_match by assumption. constructor; [now left|].
      apply IH. lia.
Qed.

(** Erasing a second time changes nothing. *)
Lemma sub_idempotent (m : Regex.matcher) (w : nat) (s : str) :
  Regex.anchored m = false -> dna_matcher w m ->
  Regex.sub m (run_of_N w) (Regex.sub m (run_of_N w) s)
  = Regex.sub m (run_of_N w) s.
Proof.
  intros Hm Hdna. destruct w as [|w].
  { unfold Regex.sub, run_of_N. cbn [replicate].
    now rewrite !sub_go_width_0. }
  remember (length s) as n eqn:Hn.
  assert (Hle : (length s <= n)%nat) by lia. clear Hn.
  revert s Hle. induction n as [|n IH]; intros s Hle.
  - destruct s; [|cbn in Hle; lia]. now rewrite !(sub_nil m w).
  - destruct s as [|c s]; [now rewrite !(sub_nil m w)|].
    cbn in Hle.
    destruct (Regex.alternatives_match (Regex.alternatives m) false (c :: s))
      as [k|] eqn:E.
    + destruct (sub_match m w (run_of_N (S w)) _ _ Hm Hdna E) as [-> Hlen].
      rewrite (sub_run_of_N m w) by assumption.
      f_equal. apply IH. rewrite length_drop. cbn [length]. lia.
    + rewrite sub_no_match by assumption.
      rewrite sub_no_match.
      * f_equal. apply IH. lia.
      * exact Hm.
      * apply (alternatives_match_masked _ (c :: s)).
        -- eapply Forall_impl; [exact Hdna|]. now intros cs [_ ?].
        -- constructor; [now left|]. now apply sub_masked.
        -- exact E.
Qed.

(** C7: erasing a pattern from sequence sets from which it was already
    erased leaves every sequence as it is. *)
Theorem erase_re_idempotent (re : str)
    (pos_seqs neg_seqs pos_seqs' neg_seqs' : list str) :
  erase_re re pos_seqs neg_seqs = Some (pos_seqs', neg_seqs') ->
  erase_re re pos_seqs' neg_seqs' = Some (pos_seqs', neg_seqs').
Proof.
  unfold erase_re. destruct (make_dna_re re false false) as [ms|] eqn:Hms; [|easy].
  cbn. intros [= <- <-].
  destruct (make_dna_re_spec _ _ _ _ Hms) as (Hm & Hdna & _).
  rewrite !map_map. do 2 f_equal.
  all: apply map_ext; intros s; apply (sub_idempotent ms (length re) s Hm Hdna).
Qed.

Lemma erase_re_idempotent_witness :
  erase_re (lit "ACG") [lit "TTACGACGTA"; lit "CGTCGT"] [lit "ACNACG"]
  = Some ([lit "TTNNNNNNTA"; lit "NNNNNN"], [lit "ACNNNN"]) /\
  erase_re (lit "ACG") [lit "TTNNNNNNTA"; lit "NNNNNN"] [lit "ACNNNN"]
  = Some ([lit "TTNNNNNNTA"; lit "NNNNNN"], [lit "ACNNNN"]).
Proof.
  assert (H : erase_re (lit "ACG") [lit "TTACGACGTA"; lit "CGTCGT"] [lit "ACNACG"]
              = Some ([lit "TTNNNNNNTA"; lit "NNNNNN"], [lit "ACNNNN"]))
    by reflexivity.
  split; [exact H | exact (erase_re_idempotent _ _ _ _ _ H)].
Defined.

(** On an IUPAC pattern the erasure does not fail. *)
Lemma erase_re_total (re : str) (pos_seqs neg_seqs : list str) :
  iupac_pattern re -> is_Some (erase_re re pos_seqs neg_seqs).
Proof.
  intros H. unfold erase_re.
  destruct (make_dna_re_total re false false H) as [ms ->]. cbn. now eexists.
Qed.

(** ** Word census *)

Lemma fold_left_preserves {A B} (P : A -> Prop) (f : A -> B -> A) (l : list B) (a : A) :
  (forall a b, P a -> P (f a b)) -> P a -> P (fold_left f l a).
Proof.
  intros Hf. revert a. induction l as [|b l IH]; intros a Ha; cbn; [exact Ha|].
  apply IH, Hf, Ha.
Qed.

Lemma update_seqs_with_words_inv (bound : Z) (d : Census.table) (word : str)
    (seq_no : Z) (given_only : bool) :
  1 <= seq_no <= bound -> census_inv bound d ->
  census_inv bound (Census.update_seqs_with_words d word seq_no given_only).
Proof.
  intros Hs Hd. unfold Census.update_seqs_with_words.
  set (key := if negb given_only then Py.min word (get_rc word) else word).
  destruct (d !! key) as [[c l]|] eqn:Hk.
  - destruct (Z.ltb_spec l seq_no); [|exact Hd].
    intros k c' l'. destruct (decide (key = k)) as [<-|Hne].
    + rewrite lookup_insert_eq. intros [= <- <-]. destruct (Hd _ _ _ Hk). lia.
    + rewrite lookup_insert_ne by exact Hne. apply Hd.
  - intros k c' l'. destruct (decide (key = k)) as [<-|Hne].
    + rewrite lookup_insert_eq. intros [= <- <-]. lia.
    + rewrite lookup_insert_ne by exact Hne. apply Hd.
Qed.

Lemma count_in_seq_inv (bound : Z) (d : Census.table) (w seq_no : Z) (s : str)
    (given_only : bool) :
  1 <= seq_no <= bound -> census_inv bound d ->
  census_inv bound (Census.count_in_seq d w seq_no s given_only).
Proof.
  intros Hs. unfold Census.count_in_seq. apply fold_left_preserves.
  intros d' i Hd'. cbn zeta.
  destruct (Census.has_ambiguous _); [exact Hd'|].
  now apply update_seqs_with_words_inv.
Qed.

Lemma count_in_seqs_inv (bound : Z) (seqs : list str) (d : Census.table)
    (w seq_no0 : Z) (given_only : bool) :
  0 <= seq_no0 -> seq_no0 + Z.of_nat (length seqs) <= bound ->
  census_inv bound d ->
  census_inv bound (Census.count_in_seqs d w seq_no0 seqs given_only).
Proof.
  revert d seq_no0. induction seqs as [|s seqs IH]; intros d seq_no0 H0 Hb Hd;
    cbn [Census.count_in_seqs]; [exact Hd|].
  cbn [length] in Hb. cbn zeta. apply IH; [lia|lia|].
  apply count_in_seq_inv; [lia|exact Hd].
Qed.

Lemma count_seqs_with_words_inv (seqs : list str) (minw maxw : Z) (given_only : bool) :
  census_inv (Z.of_nat (length seqs))
    (Census.count_seqs_with_words seqs minw maxw given_only).
Proof.
  unfold Census.count_seqs_with_words. apply fold_left_preserves.
  - intros d w Hd. apply count_in_seqs_inv; [lia|lia|exact Hd].
  - intros word c l. now rewrite lookup_empty.
Qed.

Lemma update_counted_once (d d' : Census.table) (key word : str) (seq_no : Z)
    (given_only : bool) :
  counted_once d d' key seq_no ->
  counted_once d (Census.update_seqs_with_words d' word seq_no given_only) key seq_no.
Proof.
  intros Hd'. unfold Census.update_seqs_with_words.
  set (k := if negb given_only then Py.min word (get_rc word) else word).
  assert (Hother : forall v, k <> key ->
            counted_once d (<[k := v]> d') key seq_no).
  { intros v Hne. unfold counted_once, seq_count in *.
    rewrite lookup_insert_ne by exact Hne. exact Hd'. }
  destruct (d' !! k) as [[c l]|] eqn:Hk.
  - destruct (Z.ltb_spec l seq_no) as [Hlt|]; [|exact Hd'].
    destruct (decide (k = key)) as [->|Hne]; [|now apply Hother].
    unfold counted_once, seq_count in *. rewrite lookup_insert_eq.
    rewrite Hk in Hd'. destruct Hd' as [Heq|[_ (c' & l' & [= <- <-] & Hl)]]; [|lia].
    right. split; [lia|]. exists (c + 1), seq_no. split; [reflexivity|lia].
  - destruct (decide (k = key)) as [->|Hne]; [|now apply Hother].
    unfold counted_once, seq_count in *. rewrite lookup_insert_eq.
    rewrite Hk in Hd'. destruct Hd' as [Heq|[_ (c' & l' & [=] & _)]].
    right. split; [lia|]. exists 1, seq_no. split; [reflexivity|lia].
Qed.

Lemma count_in_seq_counted_once (d : Census.table) (w seq_no : Z) (s : str)
    (given_only : bool) (word : str) :
  counted_once d (Census.count_in_seq d w seq_no s given_only) word seq_no.
Proof.
  unfold Census.count_in_seq.
  apply (fold_left_preserves (fun d' => counted_once d d' word seq_no)).
  - intros d' i Hd'. cbn zeta. destruct (Census.has_ambiguous _); [exact Hd'|].
    apply update_counted_once, Hd'.
  - now left.
Qed.

(** C8: the count the census records for a word is at most the number of
    sequences, as it is at most the last sequence number recorded with it;
    and one sequence adds at most one to the count of a word, however
    often the word occurs in it. *)
Theorem census_count_bounded (seqs : list str) (minw maxw : Z) (given_only : bool)
    (word : str) :
  (forall count last,
     Census.count_seqs_with_words seqs minw maxw given_only !! word
       = Some (count, last) ->
     0 < count <= last /\ last <= Z.of_nat (length seqs)) /\
  (forall (d : Census.table) (w seq_no : Z) (s : str),
     seq_count (Census.count_in_seq d w seq_no s given_only) word
       <= seq_count d word + 1).
Proof.
  split.
  - intros count last H. exact (count_seqs_with_words_inv _ _ _ _ _ _ _ H).
  - intros d w seq_no s.
    destruct (count_in_seq_counted_once d w seq_no s given_only word) as [->|[-> _]];
      lia.
Qed.

Lemma census_count_bounded_witness :
  let seqs := [lit "ACGTACGT"; lit "ACNT"; lit "TTAC"] in
  Census.count_seqs_with_words seqs 2 3 false !! lit "AC" = Some (3, 3) /\
  (0 < 3 <= 3 /\ 3 <= Z.of_nat (length seqs)).
Proof.
  assert (H : Census.count_seqs_with_words
                [lit "ACGTACGT"; lit "ACNT"; lit "TTAC"] 2 3 false !! lit "AC"
              = Some (3, 3)) by (vm_compute; reflexivity).
  split; [exact H|].
  exact (proj1 (census_count_bounded _ 2 3 false (lit "AC")) 3 3 H).
Defined.

(** ** Erased spans *)

Lemma has_ambiguous_false (word : str) :
  Census.has_ambiguous word = false -> ~ In "N"%char word.
Proof.
  unfold Census.has_ambiguous. cbn [lit list_ascii_of_string existsb].
  intros H Hin. apply orb_false_elim in H as [_ H].
  apply orb_false_elim in H as [H _].
  assert (E : existsb (Ascii.eqb "N"%char) word = true).
  { apply existsb_exists. exists "N"%char. split; [exact Hin|reflexivity]. }
  congruence.
Qed.

Lemma get_rc_no_N (word : str) : ~ In "N"%char word -> ~ In "N"%char (get_rc word).
Proof.
  intros H Hin. unfold get_rc, translate in Hin.
  apply in_rev, in_map_iff in Hin as (c & Hc & Hin).
  apply complement_N in Hc. now subst.
Qed.

Lemma update_seqs_with_words_no_N (d : Census.table) (word : str) (seq_no : Z)
    (given_only : bool) :
  ~ In "N"%char word -> census_no_N d ->
  census_no_N (Census.update_seqs_with_words d word seq_no given_only).
Proof.
  intros Hw Hd. unfold Census.update_seqs_with_words.
  set (key := if negb given_only then Py.min word (get_rc word) else word).
  assert (Hkey : ~ In "N"%char key).
  { unfold key. destruct given_only; cbn [negb]; [exact Hw|].
    destruct (py_min_cases word (get_rc word)) as [-> | ->];
      [exact Hw|now apply get_rc_no_N]. }
  assert (Hins : forall v, census_no_N (<[key := v]> d)).
  { intros v k Hk. destruct (decide (key = k)) as [<-|Hne]; [exact Hkey|].
    rewrite lookup_insert_ne in Hk by exact Hne. now apply Hd. }
  destruct (d !! key) as [[c l]|]; [|apply Hins].
  destruct (l <? seq_no); [apply Hins|exact Hd].
Qed.

Lemma count_seqs_with_words_no_N (seqs : list str) (minw maxw : Z) (given_only : bool) :
  census_no_N (Census.count_seqs_with_words seqs minw maxw given_only).
Proof.
  unfold Census.count_seqs_with_words. apply fold_left_preserves.
  - intros d w. generalize 0 as seq_no0. revert d.
    induction seqs as [|s seqs IH]; intros d seq_no0 Hd;
      cbn [Census.count_in_seqs]; [exact Hd|].
    cbn zeta. apply IH. unfold Census.count_in_seq.
    apply fold_left_preserves; [|exact Hd].
    intros d' i Hd'. cbn zeta.
    destruct (Census.has_ambiguous _) eqn:E; [exact Hd'|].
    apply update_seqs_with_words_no_N; [|exact Hd'].
    now apply has_ambiguous_false.
  - intros word [v Hv]. now rewrite lookup_empty in Hv.
Qed.

Lemma complement_base (c : ascii) :
  is_base c = true -> is_base (default c (Py.assoc rc_table c)) = true.
Proof.
  unfold is_base. intros H. apply existsb_exists in H as (x & Hin & Heq).
  apply Ascii.eqb_eq in Heq. subst x. cbn in Hin.
  repeat (destruct Hin as [<-|Hin]; [reflexivity|]). destruct Hin.
Qed.

Lemma get_rc_bases (m : str) : bases_only m -> bases_only (get_rc m).
Proof.
  unfold bases_only, get_rc, translate. intros H.
  apply Forall_rev, Forall_map.
  eapply Forall_impl; [exact H|]. intros c Hc. now apply complement_base.
Qed.

Lemma findall_bases (ms : Regex.matcher) (w : nat) (s x : str) :
  dna_matcher w ms -> In x (Regex.findall ms s) -> bases_only x.
Proof.
  intros Hdna Hx. unfold Regex.findall in Hx.
  apply in_map_iff in Hx as ([b n] & <- & Hin).
  apply finditer_go_matches in Hin as [_ H]. rewrite Nat.sub_0_r in H.
  now destruct (match_here_bases _ _ _ _ _ Hdna H) as (_ & _ & Hb).
Qed.

Lemma get_alignment_from_re_bases (re : str) (seqs : list str) (given_only : bool) :
  match get_alignment_from_re re seqs given_only with
  | Some aln => Forall bases_only aln
  | None => True
  end.
Proof.
  unfold get_alignment_from_re.
  destruct (make_dna_re re given_only false) as [m_both|] eqn:Hboth; [|exact I].
  cbn [mbind option_bind].
  destruct (make_dna_re re true false) as [m_given|]; [|exact I].
  cbn [mbind option_bind].
  destruct (make_dna_re_spec _ _ _ _ Hboth) as (_ & Hdna & _).
  apply Forall_forall. intros x Hx. apply list_elem_of_In in Hx.
  apply in_flat_map in Hx as (seqstr & _ & Hx).
  apply in_map_iff in Hx as (m & <- & Hm).
  apply (findall_bases _ _ _ _ Hdna) in Hm.
  destruct (Regex.search m_given m); [exact Hm|now apply get_rc_bases].
Qed.

(** C10: the matcher compiled from an IUPAC pattern has character
    classes over A, C, G and T only, and every substring it matches in any
    string consists of these four letters: no match contains an [N]. So
    do the strings of an alignment; and the word census skips the words
    with an [N], so that no counted word has one either. *)
Theorem make_dna_re_matches_bases (re : str) (given_only complete : bool) :
  iupac_pattern re ->
  exists ms, make_dna_re re given_only complete = Some ms /\
    (forall cs cls, In cs (Regex.alternatives ms) -> In cls cs -> bases_only cls) /\
    (forall s : str,
       (forall b n, Regex.search ms s = Some (b, n) ->
                    bases_only (take n (drop b s))) /\
       (forall x, In x (Regex.findall ms s) -> bases_only x /\ ~ In "N"%char x)) /\
    (forall seqs aln,
       get_alignment_from_re re seqs given_only = Some aln ->
       Forall bases_only aln) /\
    (forall seqs minw maxw strand word,
       is_Some (Census.count_seqs_with_words seqs minw maxw strand !! word) ->
       ~ In "N"%char word).
Proof.
  intros Hre. destruct (make_dna_re_total re given_only complete Hre) as [ms Hms].
  exists ms. split; [exact Hms|].
  destruct (make_dna_re_spec _ _ _ _ Hms) as (_ & Hdna & _).
  split; [|split; [intros s; split|split]].
  5:{ intros seqs minw maxw strand. apply count_seqs_with_words_no_N. }
  4:{ intros seqs aln. pose proof (get_alignment_from_re_bases re seqs given_only) as Ha.
      intros E. rewrite E in Ha. exact Ha. }
  - intros cs cls Hcs Hcls. unfold dna_matcher in Hdna.
    rewrite Forall_forall in Hdna.
    destruct (Hdna cs) as [_ Hb]; [now apply list_elem_of_In|].
    rewrite Forall_forall in Hb. apply Hb. now apply list_elem_of_In.
  - intros b n H. apply search_from_matches in H as [_ H].
    rewrite Nat.sub_0_r in H.
    now destruct (match_here_bases _ _ _ _ _ Hdna H) as (_ & _ & Hb).
  - intros x Hx. unfold Regex.findall in Hx. apply in_map_iff in Hx as ([b n] & <- & Hin).
    apply finditer_go_matches in Hin as [_ H]. rewrite Nat.sub_0_r in H.
    destruct (match_here_bases _ _ _ _ _ Hdna H) as (_ & _ & Hb).
    split; [exact Hb|now apply bases_only_no_N].
Qed.

Lemma make_dna_re_matches_bases_witness :
  iupac_pattern (lit "AR") /\
  exists ms, make_dna_re (lit "AR") false false = Some ms /\
    (forall cs cls, In cs (Regex.alternatives ms) -> In cls cs -> bases_only cls) /\
    (forall s : str,
       (forall b n, Regex.search ms s = Some (b, n) ->
                    bases_only (take n (drop b s))) /\
       (forall x, In x (Regex.findall ms s) -> bases_only x /\ ~ In "N"%char x)) /\
    (forall seqs aln,
       get_alignment_from_re (lit "AR") seqs false = Some aln ->
       Forall bases_only aln) /\
    (forall seqs minw maxw strand word,
       is_Some (Census.count_seqs_with_words seqs minw maxw strand !! word) ->
       ~ In "N"%char word).
Proof.
  assert (H : iupac_pattern (lit "AR")) by (repeat constructor).
  split; [exact H | exact (make_dna_re_matches_bases (lit "AR") false false H)].
Defined.

(** ** Ambiguity generalizer *)

Lemma has_key_In (alph : str) (c : ascii) : has_key alph c = true <-> In c alph.
Proof.
  unfold has_key. rewrite existsb_exists. split.
  - intros (x & Hin & Heq). apply Ascii.eqb_eq in Heq. now subst.
  - intros H. exists c. split; [exact H|apply Ascii.eqb_refl].
Qed.

Lemma has_key_false (alph : str) (c : ascii) : has_key alph c = false <-> ~ In c alph.
Proof.
  rewrite <- has_key_In. destruct (has_key alph c); split; congruence.
Qed.

(** ** Double-precision arithmetic of the count estimates *)

Section DoubleArithmetic.
Local Open Scope Q_scope.

Lemma pow2_pos (e : Z) : 0 < Double.pow2 e.
Proof. apply Qpower_0_lt. reflexivity. Qed.

Lemma pow2_plus (a b : Z) : Double.pow2 (a + b) == Double.pow2 a * Double.pow2 b.
Proof. apply Qpower_plus. discriminate. Qed.

Lemma pow2_le (a b : Z) : (a <= b)%Z -> Double.pow2 a <= Double.pow2 b.
Proof. intros H. apply Qpower_le_compat_l; [exact H|discriminate]. Qed.

Lemma pow2_lt_inv (a b : Z) : Double.pow2 a < Double.pow2 b -> (a < b)%Z.
Proof. intros H. apply (Qpower_lt_compat_l_inv 2); [exact H|reflexivity]. Qed.

Lemma pow2_nonneg (e : Z) : (0 <= e)%Z -> Double.pow2 e == inject_Z (2 ^ e).
Proof. intros H. unfold Double.pow2. now rewrite Zpower_Qpower. Qed.

Lemma Qfloor_unique (q : Q) (k : Z) :
  inject_Z k <= q -> q < inject_Z (k + 1) -> Qfloor q = k.
Proof.
  intros Hlo Hhi. apply Z.le_antisymm.
  - assert (H : inject_Z (Qfloor q) < inject_Z (k + 1)).
    { eapply Qle_lt_trans; [apply Qfloor_le|exact Hhi]. }
    rewrite <- Zlt_Qlt in H. lia.
  - rewrite <- (Qfloor_Z k). now apply Qfloor_resp_le.
Qed.

(** The nearest integer is within a half. *)
Lemma round_even_error (q : Q) :
  - (1 # 2) <= inject_Z (Double.round_even q) - q <= 1 # 2.
Proof.
  unfold Double.round_even.
  pose proof (Qfloor_le q) as Hlo. pose proof (Qlt_floor q) as Hhi.
  rewrite inject_Z_plus in Hhi. change (inject_Z 1) with 1 in Hhi.
  destruct (Qcompare_spec (q - inject_Z (Qfloor q)) (1 # 2)) as [E|E|E].
  - destruct (Z.even (Qfloor q)); rewrite ?inject_Z_plus;
      change (inject_Z 1) with 1; lra.
  - lra.
  - rewrite inject_Z_plus. change (inject_Z 1) with 1. lra.
Qed.

Lemma round_even_Z (q : Q) (z : Z) : q == inject_Z z -> Double.round_even q = z.
Proof.
  intros E. unfold Double.round_even.
  assert (Hf : Qfloor q = z) by (rewrite E; apply Qfloor_Z).
  rewrite Hf.
  destruct (Qcompare_spec (q - inject_Z z) (1 # 2)) as [H|H|H]; [lra|reflexivity|lra].
Qed.

#[local] Instance round_even_comp : Proper (Qeq ==> eq) Double.round_even.
Proof.
  intros q q' E. unfold Double.round_even. rewrite (Qfloor_comp _ _ E).
  destruct (Qcompare_spec (q - inject_Z (Qfloor q')) (1 # 2)) as [H|H|H];
    destruct (Qcompare_spec (q' - inject_Z (Qfloor q')) (1 # 2)) as [H'|H'|H'];
    try reflexivity; lra.
Qed.

Lemma Qabs_frac (x : Q) : Qabs x == inject_Z (Z.abs (Qnum x)) / inject_Z (Zpos (Qden x)).
Proof.
  destruct x as [n d]. unfold Qabs, Qeq, Qdiv, Qmult, Qinv, inject_Z. cbn. lia.
Qed.

(** [exponent] is the binary exponent. *)
Lemma exponent_spec (x : Q) :
  ~ x == 0 ->
  Double.pow2 (Double.exponent x) <= Qabs x /\
  Qabs x < Double.pow2 (Double.exponent x + 1).
Proof.
  intros Hx. unfold Double.exponent.
  set (n := Z.abs (Qnum x)). set (d := Zpos (Qden x)).
  assert (Hn : (0 < n)%Z).
  { unfold n. destruct x as [[|p|p] dx]; cbn; try lia. exfalso. apply Hx. reflexivity. }
  assert (Hd : (0 < d)%Z) by (unfold d; lia).
  destruct (Z.log2_spec n Hn) as [Hn1 Hn2]. destruct (Z.log2_spec d Hd) as [Hd1 Hd2].
  set (a := Z.log2 n) in *. set (b := Z.log2 d) in *.
  assert (Ha : (0 <= a)%Z) by apply Z.log2_nonneg.
  assert (Hb : (0 <= b)%Z) by apply Z.log2_nonneg.
  assert (Habs : Qabs x == inject_Z n / inject_Z d) by apply Qabs_frac.
  assert (Hdq : 0 < inject_Z d) by (change 0 with (inject_Z 0); now rewrite <- Zlt_Qlt).
  assert (Hsplit : forall j, Double.pow2 (a - b + j)
                             == inject_Z (2 ^ a) / inject_Z (2 ^ b) * Double.pow2 j).
  { intros j. rewrite pow2_plus. unfold Z.sub. rewrite pow2_plus.
    rewrite (pow2_nonneg a Ha). unfold Double.pow2 at 1. rewrite Qpower_opp.
    fold (Double.pow2 b). rewrite (pow2_nonneg b Hb). reflexivity. }
  assert (H2b : 0 < inject_Z (2 ^ b)).
  { change 0 with (inject_Z 0). rewrite <- Zlt_Qlt. lia. }
  destruct (Qle_bool (Double.pow2 (a - b)) (Qabs x)) eqn:E.
  - apply Qle_bool_iff in E. split; [exact E|].
    rewrite Habs, Hsplit. change (Double.pow2 1) with 2.
    apply Qlt_shift_div_r; [exact Hdq|].
    setoid_replace (inject_Z (2 ^ a) / inject_Z (2 ^ b) * 2 * inject_Z d)
      with (inject_Z (2 ^ a * 2 * d) / inject_Z (2 ^ b))
      using relation Qeq
      by (rewrite !inject_Z_mult; field; intros H0; rewrite H0 in H2b;
          discriminate).
    apply Qlt_shift_div_l; [exact H2b|]. rewrite <- inject_Z_mult, <- Zlt_Qlt.
    rewrite Z.pow_succ_r in Hn2 by exact Ha. nia.
  - assert (E' : Qabs x < Double.pow2 (a - b)).
    { apply Qnot_le_lt. intros H. apply Qle_bool_iff in H. congruence. }
    split.
    + replace (a - b - 1)%Z with (a - b + -1)%Z by lia.
      rewrite Habs, Hsplit. change (Double.pow2 (-1)) with (1 # 2).
      apply Qle_shift_div_l; [exact Hdq|].
      setoid_replace (inject_Z (2 ^ a) / inject_Z (2 ^ b) * (1 # 2) * inject_Z d)
        with (inject_Z (2 ^ a * d) / inject_Z (2 ^ b * 2))
        using relation Qeq
        by (rewrite !inject_Z_mult; field; intros H0; rewrite H0 in H2b;
            discriminate).
      apply Qle_shift_div_r.
      * change 0 with (inject_Z 0). rewrite <- Zlt_Qlt. lia.
      * rewrite <- inject_Z_mult, <- Zle_Qle.
        rewrite Z.pow_succ_r in Hd2 by exact Hb. nia.
    + now replace (a - b - 1 + 1)%Z with (a - b)%Z by lia.
Qed.

Lemma exponent_unique (x : Q) (e : Z) :
  Double.pow2 e <= Qabs x -> Qabs x < Double.pow2 (e + 1) -> ~ x == 0 ->
  Double.exponent x = e.
Proof.
  intros Hlo Hhi Hx. destruct (exponent_spec x Hx) as [Hlo' Hhi'].
  assert (H1 : (e < Double.exponent x + 1)%Z).
  { apply pow2_lt_inv. eapply Qle_lt_trans; eassumption. }
  assert (H2 : (Double.exponent x < e + 1)%Z).
  { apply pow2_lt_inv. eapply Qle_lt_trans; eassumption. }
  lia.
Qed.

Lemma exponent_eq (x y : Q) : x == y -> ~ x == 0 -> Double.exponent x = Double.exponent y.
Proof.
  intros E H0. destruct (exponent_spec x H0) as [Hlo Hhi].
  symmetry. apply exponent_unique; [now rewrite <- E|now rewrite <- E|].
  now rewrite <- E.
Qed.

(** Rounding does not depend on the fraction that stands for a number. *)
#[local] Instance round_comp : Proper (Qeq ==> Qeq) Double.round.
Proof.
  intros x y E. unfold Double.round.
  destruct (Qeq_bool x 0) eqn:Hx, (Qeq_bool y 0) eqn:Hy.
  - reflexivity.
  - apply Qeq_bool_iff in Hx. apply Qeq_bool_neq in Hy. exfalso. apply Hy.
    now rewrite <- E.
  - apply Qeq_bool_iff in Hy. apply Qeq_bool_neq in Hx. exfalso. apply Hx.
    now rewrite E.
  - apply Qeq_bool_neq in Hx. rewrite (exponent_eq x y E Hx).
    cbn zeta. now rewrite E.
Qed.

#[local] Instance finite_comp : Proper (Qeq ==> eq) Double.finite.
Proof.
  intros x y E. unfold Double.finite. f_equal.
  destruct (Qle_bool (Double.pow2 1024) (Qabs x)) eqn:Hx,
           (Qle_bool (Double.pow2 1024) (Qabs y)) eqn:Hy; try reflexivity.
  - apply Qle_bool_iff in Hx. rewrite E in Hx. apply Qle_bool_iff in Hx. congruence.
  - apply Qle_bool_iff in Hy. rewrite <- E in Hy. apply Qle_bool_iff in Hy. congruence.
Qed.

#[local] Instance py_round_comp : Proper (Qeq ==> eq) py_round.
Proof.
  intros x y E. unfold py_round.
  assert (Hb : Qle_bool 0 x = Qle_bool 0 y).
  { destruct (Qle_bool 0 x) eqn:Hx, (Qle_bool 0 y) eqn:Hy; try reflexivity.
    - apply Qle_bool_iff in Hx. rewrite E in Hx. apply Qle_bool_iff in Hx. congruence.
    - apply Qle_bool_iff in Hy. rewrite <- E in Hy. apply Qle_bool_iff in Hy. congruence. }
  rewrite Hb. destruct (Qle_bool 0 y); now rewrite E.
Qed.

(** The error of a rounding, for a value below [2^m]. *)
Lemma round_error (x : Q) (m : Z) :
  Qabs x < Double.pow2 m -> (-1074 <= m - 53)%Z ->
  Qabs (Double.round x - x) <= Double.pow2 (m - 54).
Proof.
  intros Hm Hmin. unfold Double.round.
  destruct (Qeq_bool x 0) eqn:Hx.
  - apply Qeq_bool_iff in Hx. rewrite Hx.
    setoid_replace (0 - 0) with 0 using relation Qeq by ring. apply Qlt_le_weak, pow2_pos.
  - apply Qeq_bool_neq in Hx. cbn zeta.
    destruct (exponent_spec x Hx) as [Hlo _].
    assert (He : (Double.exponent x < m)%Z).
    { apply pow2_lt_inv. eapply Qle_lt_trans; eassumption. }
    set (g := Z.max (Double.exponent x - 52) (-1074)).
    assert (Hg : (g <= m - 53)%Z) by (unfold g; lia).
    pose proof (pow2_pos g) as Hu. pose proof (pow2_le g (m - 53) Hg) as Hu'.
    pose proof (round_even_error (x / Double.pow2 g)) as Hr.
    set (r := inject_Z (Double.round_even (x / Double.pow2 g))) in *.
    assert (Hhalf : Double.pow2 (m - 53) == 2 * Double.pow2 (m - 54)).
    { replace (m - 53)%Z with (1 + (m - 54))%Z by lia. now rewrite pow2_plus. }
    assert (E : r * Double.pow2 g - x == (r - x / Double.pow2 g) * Double.pow2 g).
    { field. intros H0. rewrite H0 in Hu. discriminate. }
    rewrite E, Qabs_Qmult. rewrite (Qabs_pos (Double.pow2 g)) by now apply Qlt_le_weak.
    assert (Hr' : Qabs (r - x / Double.pow2 g) <= 1 # 2).
    { apply Qabs_Qle_condition. lra. }
    assert (Qabs (r - x / Double.pow2 g) * Double.pow2 g <= (1 # 2) * Double.pow2 g).
    { apply Qmult_le_compat_r; [exact Hr'|now apply Qlt_le_weak]. }
    lra.
Qed.

(** A multiple of [2^g] within the precision is a double. *)
Lemma round_exact (x : Q) (j g : Z) :
  x == inject_Z j * Double.pow2 g -> (-1074 <= g)%Z ->
  Qabs x < Double.pow2 (g + 53) -> Double.round x == x.
Proof.
  intros E Hg Hx. unfold Double.round.
  destruct (Qeq_bool x 0) eqn:H0.
  - apply Qeq_bool_iff in H0. now rewrite H0.
  - apply Qeq_bool_neq in H0. cbn zeta.
    destruct (exponent_spec x H0) as [Hlo _].
    assert (He : (Double.exponent x < g + 53)%Z).
    { apply pow2_lt_inv. eapply Qle_lt_trans; eassumption. }
    set (g' := Z.max (Double.exponent x - 52) (-1074)).
    assert (Hg' : (g' <= g)%Z) by (unfold g'; lia).
    pose proof (pow2_pos g') as Hu.
    assert (Hint : x / Double.pow2 g' == inject_Z (j * 2 ^ (g - g'))).
    { rewrite E. replace g with ((g - g') + g')%Z at 1 by lia.
      rewrite pow2_plus, pow2_nonneg by lia. rewrite inject_Z_mult.
      field. intros Hz. rewrite Hz in Hu. discriminate. }
    rewrite (round_even_Z _ _ Hint). rewrite <- Hint.
    field. intros Hz. rewrite Hz in Hu. discriminate.
Qed.

Lemma finite_below (x : Q) (m : Z) :
  Qabs x < Double.pow2 m -> (m <= 1024)%Z -> Double.finite x = true.
Proof.
  intros Hx Hm. unfold Double.finite.
  destruct (Qle_bool (Double.pow2 1024) (Qabs x)) eqn:E; [|reflexivity].
  apply Qle_bool_iff in E. pose proof (pow2_le m 1024 Hm). lra.
Qed.

Lemma inject_Z_minus (a b : Z) : inject_Z (a - b) = inject_Z a - inject_Z b.
Proof.
  unfold Z.sub, Qminus. now rewrite inject_Z_plus, inject_Z_opp.
Qed.

Lemma Qabs_inject_Z (z : Z) : Qabs (inject_Z z) == inject_Z (Z.abs z).
Proof. reflexivity. Qed.

(** An integer below [2^53] in absolute value converts without error. *)
Lemma of_int_exact (z : Z) :
  (Z.abs z < 2 ^ 53)%Z ->
  exists a, Double.of_int z = Some a /\ a == inject_Z z.
Proof.
  intros Hz. unfold Double.of_int.
  assert (Hlt : Qabs (inject_Z z) < Double.pow2 53).
  { rewrite Qabs_inject_Z, (pow2_nonneg 53) by lia. now rewrite <- Zlt_Qlt. }
  assert (E : Double.round (inject_Z z) == inject_Z z).
  { apply (round_exact _ z 0); [|lia|exact Hlt].
    change (Double.pow2 0) with 1. ring. }
  exists (Double.round (inject_Z z)). split; [|exact E].
  rewrite (finite_below _ 53); [reflexivity| |lia].
  now rewrite E.
Qed.

(** [round] gives the integer that is less than a half away. *)
Lemma py_round_near (s : Q) (k : Z) :
  inject_Z k - (1 # 2) < s -> s < inject_Z k + (1 # 2) -> py_round s = k.
Proof.
  intros Hlo Hhi. unfold py_round.
  destruct (Qle_bool 0 s).
  - apply Qfloor_unique; rewrite ?inject_Z_plus; change (inject_Z 1) with 1; lra.
  - assert (E : Qfloor (- s + (1 # 2)) = (- k)%Z).
    { apply Qfloor_unique; rewrite ?inject_Z_plus, ?inject_Z_opp;
        change (inject_Z 1) with 1; lra. }
    rewrite E. lia.
Qed.

Lemma Qabs_lt_iff (x b : Q) : - b < x -> x < b -> Qabs x < b.
Proof.
  intros H1 H2. apply Qabs_case; intros; lra.
Qed.

Lemma Qabs_bounds (x b : Q) : Qabs x <= b -> - b <= x /\ x <= b.
Proof. intros H. now apply Qabs_Qle_condition. Qed.

(** The two roundings of the union estimate do not change the integer it
    rounds to, when the total is at most [2^25]. *)
Lemma union_roundings (c1 c2 T : Z) :
  (0 < T <= 2 ^ 25)%Z -> (0 <= c1 <= T)%Z -> (0 <= c2 <= T)%Z ->
  let q := Double.round (inject_Z (c1 * c2) / inject_Z T) in
  let s := Double.round (inject_Z (c1 + c2) - q) in
  Qabs s < Double.pow2 28 /\ py_round s = spec_union_estimate c1 c2 T.
Proof.
  intros HT H1 H2 q s. unfold spec_union_estimate.
  set (x := inject_Z (c1 + c2) - inject_Z (c1 * c2) / inject_Z T).
  set (N := (2 * ((c1 + c2) * T - c1 * c2) + T)%Z).
  set (k := (N / (2 * T))%Z). set (r := (N mod (2 * T))%Z).
  assert (HN : N = (2 * T * k + r)%Z) by (apply Z.div_mod; lia).
  assert (Hr : (0 <= r < 2 * T)%Z) by (apply Z.mod_pos_bound; lia).
  assert (HM : (0 <= c1 * c2 <= c1 * T)%Z) by nia.
  assert (HM' : (c1 * T <= T * T)%Z) by nia.
  assert (HTT : (T * T <= 2 ^ 50)%Z) by nia.
  (* the same facts over the rationals *)
  assert (Htq : 0 < inject_Z T) by (change 0 with (inject_Z 0); rewrite <- Zlt_Qlt; lia).
  assert (Htq' : inject_Z T <= 33554432).
  { change 33554432 with (inject_Z (2 ^ 25)). rewrite <- Zle_Qle. lia. }
  assert (Hsq : 0 <= inject_Z (c1 + c2) <= 2 * inject_Z T).
  { change 0 with (inject_Z 0). change 2 with (inject_Z 2).
    rewrite <- inject_Z_mult, <- !Zle_Qle. lia. }
  assert (Hq0 : 0 <= inject_Z (c1 * c2) / inject_Z T <= inject_Z T).
  { split.
    - apply Qle_shift_div_l; [exact Htq|].
      change (0 * inject_Z T) with (inject_Z 0 * inject_Z T).
      rewrite <- inject_Z_mult, <- Zle_Qle. lia.
    - apply Qle_shift_div_r; [exact Htq|].
      rewrite <- inject_Z_mult, <- Zle_Qle. lia. }
  assert (HNq : 2 * (inject_Z (c1 + c2) * inject_Z T - inject_Z (c1 * c2)) + inject_Z T
                == 2 * inject_Z T * inject_Z k + inject_Z r).
  { change 2 with (inject_Z 2).
    rewrite <- !inject_Z_mult, <- inject_Z_minus, <- inject_Z_mult, <- !inject_Z_plus.
    apply inject_Z_injective in HN. fold N. rewrite HN. reflexivity. }
  assert (Hx : x == inject_Z k - (1 # 2) + inject_Z r / (2 * inject_Z T)).
  { unfold x.
    assert (Hm : inject_Z (c1 * c2) ==
                 inject_Z (c1 + c2) * inject_Z T + inject_Z T * (1 # 2)
                 - inject_Z T * inject_Z k - inject_Z r * (1 # 2)) by lra.
    rewrite Hm. field. lra. }
  assert (Hrq : 0 <= inject_Z r <= 2 * inject_Z T - 1).
  { change 0 with (inject_Z 0). change 2 with (inject_Z 2). change 1 with (inject_Z 1).
    rewrite <- inject_Z_mult, <- inject_Z_minus, <- !Zle_Qle. lia. }
  assert (P28 : Double.pow2 (-28) == 1 # 268435456) by reflexivity.
  assert (P27 : Double.pow2 (-27) == 1 # 134217728) by reflexivity.
  assert (P26 : Double.pow2 26 == 67108864) by reflexivity.
  assert (P28' : Double.pow2 28 == 268435456) by reflexivity.
  destruct (Z.eq_dec r 0%Z) as [Hr0|Hr0].
  - (* a half-integer: both operations are exact *)
    rewrite Hr0 in Hx, HNq.
    assert (Hq : q == inject_Z (c1 * c2) / inject_Z T).
    { unfold q. apply (round_exact _ (2 * (c1 + c2 - k) + 1) (-1)); [|lia|].
      - change (Double.pow2 (-1)) with (1 # 2).
        unfold x in Hx.
        set (mq := inject_Z (c1 * c2)) in *.
        rewrite inject_Z_plus, inject_Z_mult, inject_Z_minus.
        change (inject_Z 2) with 2. change (inject_Z 1) with 1.
        setoid_replace (inject_Z 0 / (2 * inject_Z T)) with 0
          using relation Qeq in Hx by (field; lra).
        lra.
      - apply Qle_lt_trans with (Double.pow2 26); [|reflexivity].
        rewrite Qabs_pos by tauto. lra. }
    assert (Hs : s == x).
    { unfold s. rewrite Hq. fold x.
      apply (round_exact _ (2 * k - 1) (-1)); [|lia|].
      - change (Double.pow2 (-1)) with (1 # 2).
        rewrite inject_Z_minus, inject_Z_mult.
        change (inject_Z 2) with 2. change (inject_Z 1) with 1.
        setoid_replace (inject_Z 0 / (2 * inject_Z T)) with 0
          using relation Qeq in Hx by (field; lra).
        lra.
      - apply Qle_lt_trans with (Double.pow2 28); [|reflexivity].
        apply Qlt_le_weak, Qabs_lt_iff; unfold x; lra. }
    split.
    + rewrite Hs. apply Qabs_lt_iff; unfold x; lra.
    + now rewrite Hs.
  - (* else the exact value is at least 1/(2T) away from a half-integer,
       which is more than the two errors, at most 2^-28 and 2^-27 *)
    assert (Hr1 : 1 <= inject_Z r).
    { change 1 with (inject_Z 1). rewrite <- Zle_Qle. lia. }
    assert (Hfr : 3 # 268435456 < inject_Z r / (2 * inject_Z T)).
    { apply Qlt_shift_div_l; lra. }
    assert (Hfr' : inject_Z r / (2 * inject_Z T) < 1 - (3 # 268435456)).
    { apply Qlt_shift_div_r; lra. }
    assert (Eq : Qabs (q - inject_Z (c1 * c2) / inject_Z T) <= Double.pow2 (-28)).
    { unfold q. apply (round_error _ 26); [|lia].
      rewrite Qabs_pos by tauto. lra. }
    apply Qabs_bounds in Eq.
    assert (Es : Qabs (s - (inject_Z (c1 + c2) - q)) <= Double.pow2 (-27)).
    { unfold s. apply (round_error _ 27); [|lia].
      apply Qabs_lt_iff.
      - assert (Double.pow2 27 == 134217728) by reflexivity. lra.
      - assert (Double.pow2 27 == 134217728) by reflexivity. lra. }
    apply Qabs_bounds in Es.
    split.
    + apply Qabs_lt_iff; lra.
    + rewrite (py_round_near x k) by lra.
      apply py_round_near; unfold x in Hx; lra.
Qed.

(** For a total of at most [2^25] and counts within the total the estimate
    in doubles raises no error and is the exact one. *)
Lemma union_estimate_exact (c1 c2 T : Z) :
  (0 < T <= 2 ^ 25)%Z -> (0 <= c1 <= T)%Z -> (0 <= c2 <= T)%Z ->
  union_estimate c1 c2 T = Some (spec_union_estimate c1 c2 T).
Proof.
  intros HT H1 H2. unfold union_estimate.
  destruct (of_int_exact (c1 * c2)) as (a & -> & Ha); [nia|].
  destruct (of_int_exact T) as (t & -> & Ht); [lia|].
  destruct (of_int_exact (c1 + c2)) as (u & -> & Hu); [lia|].
  cbn [mbind option_bind].
  assert (Ht0 : Qeq_bool t 0 = false).
  { destruct (Qeq_bool t 0) eqn:E; [|reflexivity].
    apply Qeq_bool_iff in E. rewrite Ht in E.
    change 0 with (inject_Z 0) in E. rewrite inject_Z_injective in E. lia. }
  rewrite Ht0. cbn [mbind option_bind]. cbn zeta.
  destruct (union_roundings c1 c2 T HT H1 H2) as [Hfin Hval].
  cbn zeta in Hfin, Hval.
  assert (E : Double.round (u - Double.round (a / t)) ==
              Double.round (inject_Z (c1 + c2) -
                            Double.round (inject_Z (c1 * c2) / inject_Z T))).
  { now rewrite Ha, Ht, Hu. }
  assert (Hf : Double.finite (Double.round (u - Double.round (a / t))) = true).
  { rewrite E. now apply (finite_below _ 28). }
  rewrite Hf, <- Hval. f_equal. now apply py_round_comp.
Qed.

End DoubleArithmetic.

(** On the sample counts the estimate computed with the model of doubles
    is the one computed with the library's operations for binary64. *)
Lemma union_estimate_agrees_with_binary64 :
  Forall (fun x : Z * Z * Z =>
            let '(c1, c2, T) := x in
            union_estimate c1 c2 T = Binary64.union_estimate c1 c2 T)
    sample_counts.
Proof.
  apply Forall_forall. intros [[c1 c2] T] H.
  assert (Hall : forallb (fun x : Z * Z * Z =>
                   bool_decide (union_estimate x.1.1 x.1.2 x.2
                                = Binary64.union_estimate x.1.1 x.1.2 x.2))
                   sample_counts = true) by (vm_compute; reflexivity).
  rewrite forallb_forall in Hall.
  apply list_elem_of_In in H. specialize (Hall _ H).
  now apply bool_decide_eq_true in Hall.
Qed.

(** The values of some estimates: [7] for the counts 5 and 4 of 10; an
    estimate that is one more than the exact one, one below the larger
    count, and one above the total; the errors. *)
Lemma union_estimate_values :
  union_estimate 5 4 10 = Some 7 /\
  union_estimate (2 ^ 27) (2 ^ 26) (2 ^ 27 + 1) = Some 134217729 /\
  spec_union_estimate (2 ^ 27) (2 ^ 26) (2 ^ 27 + 1) = 134217728 /\
  union_estimate (2 ^ 53 + 1) 1 (2 ^ 53 + 1) = Some (2 ^ 53) /\
  union_estimate (2 ^ 53 + 1) 2 (2 ^ 53 + 1) = Some (2 ^ 53 + 2) /\
  union_estimate 3 5 0 = None /\
  union_estimate (2 ^ 600) (2 ^ 600) 7 = None.
Proof. repeat split; vm_compute; reflexivity. Qed.

(** A division by zero raises. *)
Lemma union_estimate_zero (c1 c2 : Z) : union_estimate c1 c2 0 = None.
Proof.
  unfold union_estimate. destruct (Double.of_int (c1 * c2)); reflexivity.
Qed.

Lemma py_round_between (q : Q) (a b : Z) :
  (0 <= a)%Z -> (inject_Z a <= q)%Q -> (q <= inject_Z b)%Q -> a <= py_round q <= b.
Proof.
  intros Ha Hlo Hhi. unfold py_round.
  assert (H0 : (0 <= q)%Q).
  { eapply Qle_trans; [|exact Hlo]. change 0%Q with (inject_Z 0).
    now rewrite <- Zle_Qle. }
  apply Qle_bool_iff in H0. rewrite H0. split.
  - rewrite <- (Qfloor_Z a). apply Qfloor_resp_le. lra.
  - assert (H : (inject_Z (Qfloor (q + (1 # 2))) < inject_Z (b + 1))%Q).
    { eapply Qle_lt_trans; [apply Qfloor_le|]. rewrite inject_Z_plus.
      change (inject_Z 1) with 1%Q. lra. }
    rewrite <- Zlt_Qlt in H. lia.
Qed.

Lemma union_value_between (c1 c2 T : Z) :
  0 < T -> 0 <= c1 <= T -> 0 <= c2 <= T ->
  let x := (inject_Z (c1 + c2) - inject_Z (c1 * c2) / inject_Z T)%Q in
  (inject_Z (Z.max c1 c2) <= x)%Q /\ (x <= inject_Z (Z.min T (c1 + c2)))%Q.
Proof.
  intros HT H1 H2. cbn zeta.
  set (x := (inject_Z (c1 * c2) / inject_Z T)%Q).
  assert (HTq : (0 < inject_Z T)%Q).
  { change 0%Q with (inject_Z 0). now rewrite <- Zlt_Qlt. }
  assert (Hx0 : (0 <= x)%Q).
  { unfold x. apply Qle_shift_div_l; [exact HTq|]. rewrite Qmult_0_l.
    change 0%Q with (inject_Z 0). rewrite <- Zle_Qle. nia. }
  assert (Hx1 : (x <= inject_Z c1)%Q).
  { unfold x. apply Qle_shift_div_r; [exact HTq|].
    rewrite <- inject_Z_mult, <- Zle_Qle. nia. }
  assert (Hx2 : (x <= inject_Z c2)%Q).
  { unfold x. apply Qle_shift_div_r; [exact HTq|].
    rewrite <- inject_Z_mult, <- Zle_Qle. nia. }
  assert (Hx3 : (inject_Z (c1 + c2 - T) <= x)%Q).
  { unfold x. apply Qle_shift_div_l; [exact HTq|].
    rewrite <- inject_Z_mult, <- Zle_Qle. nia. }
  clearbody x. unfold Z.sub in Hx3.
  rewrite !inject_Z_plus, inject_Z_opp in Hx3. rewrite inject_Z_plus. split.
  - destruct (Z.max_spec c1 c2) as [[_ ->]|[_ ->]]; lra.
  - destruct (Z.min_spec T (c1 + c2)) as [[_ ->]|[_ ->]];
      rewrite ?inject_Z_plus; lra.
Qed.

(** The exact estimate lies between the larger count and the total. *)
Lemma spec_union_estimate_bounds (c1 c2 T : Z) :
  0 < T -> 0 <= c1 <= T -> 0 <= c2 <= T ->
  Z.max c1 c2 <= spec_union_estimate c1 c2 T <= Z.min T (c1 + c2).
Proof.
  intros HT H1 H2. destruct (union_value_between c1 c2 T HT H1 H2) as [Hlo Hhi].
  unfold spec_union_estimate. apply py_round_between; [lia|exact Hlo|exact Hhi].
Qed.

(** The exact estimate in integer arithmetic: the quotient
    [(T*(c1 + c2) - c1*c2) / T] rounded to the nearest integer, a half
    upwards. *)
Lemma spec_union_estimate_nearest (c1 c2 T : Z) :
  0 < T -> 0 <= c1 <= T -> 0 <= c2 <= T ->
  spec_union_estimate c1 c2 T = (2 * (T * (c1 + c2) - c1 * c2) + T) / (2 * T).
Proof.
  intros HT H1 H2. rewrite Zdiv_Qdiv.
  destruct (union_value_between c1 c2 T HT H1 H2) as [Hlo _]. cbn zeta in Hlo.
  assert (H0 : (0 <= inject_Z (c1 + c2) - inject_Z (c1 * c2) / inject_Z T)%Q).
  { eapply Qle_trans; [|exact Hlo]. change 0%Q with (inject_Z 0).
    rewrite <- Zle_Qle. lia. }
  unfold spec_union_estimate, py_round. apply Qle_bool_iff in H0. rewrite H0.
  apply Qfloor_comp.
  assert (HTq : ~ (inject_Z T == 0)%Q).
  { change 0%Q with (inject_Z 0). rewrite inject_Z_injective. lia. }
  rewrite !inject_Z_plus, !inject_Z_mult, inject_Z_minus, !inject_Z_mult,
    !inject_Z_plus.
  change (inject_Z 2) with 2%Q. field. exact HTq.
Qed.

Lemma union_estimate_within (c1 c2 T c : Z) :
  T <= 2 ^ 25 -> 0 <= c1 <= T -> 0 <= c2 <= T ->
  union_estimate c1 c2 T = Some c -> 0 <= c <= T.
Proof.
  intros HT H1 H2. destruct (Z.eq_dec T 0) as [->|Hne].
  - now rewrite union_estimate_zero.
  - rewrite union_estimate_exact by lia. intros [= <-].
    pose proof (spec_union_estimate_bounds c1 c2 T ltac:(lia) H1 H2). lia.
Qed.


Lemma head_rev {A} (l : list A) : head (rev l) = last l.
Proof. rewrite rev_alt. apply head_reverse. Qed.

Lemma last_rev {A} (l : list A) : last (rev l) = head l.
Proof. rewrite rev_alt. apply last_reverse. Qed.

Lemma head_map {A B} (f : A -> B) (l : list A) : head (map f l) = f <$> head l.
Proof. now destruct l. Qed.

Lemma last_map {A B} (f : A -> B) (l : list A) : last (map f l) = f <$> last l.
Proof.
  induction l as [|a [|b l] IH]; try reflexivity.
  change (map f (a :: b :: l)) with (f a :: f b :: map f l).
  rewrite !last_cons_cons. exact IH.
Qed.

Lemma get_rc_no_boundary_N (x : str) :
  head x <> Some "N"%char -> last x <> Some "N"%char ->
  head (get_rc x) <> Some "N"%char /\ last (get_rc x) <> Some "N"%char.
Proof.
  intros Hh Hl. unfold get_rc, translate. rewrite head_rev, last_rev, head_map, last_map.
  split.
  - destruct (last x) as [c|]; cbn; [|easy]. intros [= E]. apply complement_N in E.
    now subst.
  - destruct (head x) as [c|]; cbn; [|easy]. intros [= E]. apply complement_N in E.
    now subst.
Qed.

Lemma index_of_no_boundary_N (given_only : bool) (x : str) :
  head x <> Some "N"%char -> last x <> Some "N"%char ->
  head (index_of given_only x) <> Some "N"%char /\
  last (index_of given_only x) <> Some "N"%char.
Proof.
  intros Hh Hl. unfold index_of. destruct given_only; [easy|].
  destruct (py_min_cases x (get_rc x)) as [-> | ->]; [easy|].
  now apply get_rc_no_boundary_N.
Qed.

Lemma subst_insert (s : list ascii) (i : nat) (c : ascii) :
  (i < length s)%nat -> Py.subst s i c = <[i := c]> s.
Proof. intros H. unfold Py.subst. symmetry. now apply insert_take_drop. Qed.

Lemma subst_differs (s : list ascii) (i : nat) (b c : ascii) :
  s !! i = Some b -> b <> c -> differs_only_at s (Py.subst s i c) i.
Proof.
  intros Hb Hne. assert (Hi : (i < length s)%nat) by (eapply lookup_lt_Some, Hb).
  rewrite subst_insert by exact Hi. split; [now rewrite length_insert|].
  intros j. destruct (decide (j = i)) as [->|Hj].
  - rewrite list_lookup_insert_eq by exact Hi. rewrite Hb. split; [easy|].
    intros _ [= E]. now apply Hne.
  - rewrite list_lookup_insert_ne by congruence. tauto.
Qed.

Lemma fold_opt_ind {A B} (f : A -> B -> option A) (Q : list B -> A -> A -> Prop) :
  (forall a, Q [] a a) ->
  (forall a b a1 l a2, f a b = Some a1 -> Q l a1 a2 -> Q (b :: l) a a2) ->
  forall l a a', Py.fold_opt f a l = Some a' -> Q l a a'.
Proof.
  intros Hnil Hcons. induction l as [|b l IH]; intros a a'; cbn [Py.fold_opt].
  - intros [= <-]. apply Hnil.
  - destruct (f a b) as [a1|] eqn:E; [|easy]. intros H.
    eapply Hcons; [exact E|]. now apply IH.
Qed.

Lemma combine_ambigs_spec (P N : Z) (mappings : list (ascii * str))
    (ambigs seen : str) (c0 : gmap ascii (Z * Z)) :
  0 < P <= 2 ^ 25 -> 0 < N <= 2 ^ 25 ->
  counts_within P N c0 ->
  NoDup (seen ++ ambigs) ->
  (forall a, In a ambigs -> c0 !! a = None) ->
  ambigs_ordered mappings seen ambigs = true ->
  exists c, combine_ambigs P N ambigs mappings c0 = Some c /\
    (forall k, ~ In k ambigs -> c !! k = c0 !! k) /\
    (forall a k1 k2, In a ambigs -> Py.assoc mappings a = Some [k1; k2] ->
       c !! a = spec_combined c P N k1 k2).
Proof.
  intros HP HN. revert seen c0.
  induction ambigs as [|a ambigs IH]; intros seen c0 Hin0 Hnd Hfresh Hord.
  - exists c0. split; [reflexivity|]. split; [reflexivity|]. intros a k1 k2 [].
  - cbn [ambigs_ordered] in Hord.
    destruct (Py.assoc mappings a) as [[|k1 [|k2 [|]]]|] eqn:Hmap; try discriminate.
    apply andb_prop in Hord as [Hseen Hord].
    apply andb_prop in Hseen as [Hk1 Hk2].
    apply has_key_In in Hk1, Hk2.
    assert (Hnd' : NoDup ((seen ++ [a]) ++ ambigs)) by now rewrite <- app_assoc.
    assert (Hnotin : forall k, In k seen -> k <> a /\ ~ In k ambigs).
    { intros k Hk. apply NoDup_app in Hnd as (_ & Hdisj & _).
      specialize (Hdisj k (proj2 (list_elem_of_In _ _) Hk)).
      rewrite list_elem_of_In in Hdisj. cbn [In] in Hdisj.
      split; [intros ->|]; tauto. }
    assert (Ha : ~ In a ambigs).
    { apply NoDup_app in Hnd as (_ & _ & Hnd). apply NoDup_cons in Hnd as [Hnd _].
      now rewrite list_elem_of_In in Hnd. }
    set (c1 := match spec_combined c0 P N k1 k2 with
               | Some v => <[a := v]> c0
               | None => c0
               end).
    assert (Hstep : combine_ambigs P N (a :: ambigs) mappings c0
                    = combine_ambigs P N ambigs mappings c1).
    { unfold combine_ambigs at 1. cbn [Py.fold_opt]. rewrite Hmap.
      change (Some [k1; k2] ≫= _) with
        (match c0 !! k1 with
         | Some (p1, n1) =>
             match c0 !! k2 with
             | Some (p2, n2) =>
                 p ← union_estimate p1 p2 P;
                 n ← union_estimate n1 n2 N;
                 Some (<[a := (p, n)]> c0)
             | None => Some c0
             end
         | None => Some c0
         end).
      unfold c1, spec_combined.
      destruct (c0 !! k1) as [[p1 n1]|] eqn:E1; [|reflexivity].
      destruct (c0 !! k2) as [[p2 n2]|] eqn:E2; [|reflexivity].
      destruct (Hin0 _ _ _ E1) as [Hp1 Hn1]. destruct (Hin0 _ _ _ E2) as [Hp2 Hn2].
      now rewrite !union_estimate_exact by assumption. }
    assert (Hc1 : forall k, k <> a -> c1 !! k = c0 !! k).
    { intros k Hk. unfold c1. destruct (spec_combined c0 P N k1 k2); [|reflexivity].
      now apply lookup_insert_ne. }
    assert (Hin1 : counts_within P N c1).
    { intros k p n. unfold c1, spec_combined.
      destruct (c0 !! k1) as [[p1 n1]|] eqn:E1; [|apply Hin0].
      destruct (c0 !! k2) as [[p2 n2]|] eqn:E2; [|apply Hin0].
      destruct (Hin0 _ _ _ E1) as [Hp1 Hn1]. destruct (Hin0 _ _ _ E2) as [Hp2 Hn2].
      destruct (decide (a = k)) as [<-|Hne].
      - rewrite lookup_insert_eq. intros [= <- <-].
        pose proof (spec_union_estimate_bounds p1 p2 P ltac:(lia) Hp1 Hp2).
        pose proof (spec_union_estimate_bounds n1 n2 N ltac:(lia) Hn1 Hn2). lia.
      - rewrite lookup_insert_ne by exact Hne. apply Hin0. }
    destruct (IH (seen ++ [a]) c1 Hin1 Hnd') as (c & Hc & Hkeep & Hrule).
    { intros a' Ha'. rewrite Hc1; [apply Hfresh; now right|]. now intros ->. }
    { exact Hord. }
    exists c. split; [now rewrite Hstep|]. split.
    + intros k Hk. cbn [In] in Hk. rewrite Hkeep by tauto. apply Hc1.
      intros ->. tauto.
    + intros a' j1 j2 [<-|Ha'] Hj.
      * rewrite Hmap in Hj. injection Hj as <- <-.
        destruct (Hnotin k1 Hk1) as [Hk1a Hk1r], (Hnotin k2 Hk2) as [Hk2a Hk2r].
        unfold spec_combined at 1.
        rewrite (Hkeep k1 Hk1r), (Hkeep k2 Hk2r), (Hc1 k1 Hk1a), (Hc1 k2 Hk2a).
        rewrite (Hkeep a Ha). unfold c1.
        fold (spec_combined c0 P N k1 k2).
        destruct (spec_combined c0 P N k1 k2) as [v|].
        -- now rewrite lookup_insert_eq.
        -- apply Hfresh. now left.
      * now apply Hrule.
Qed.

Lemma combine_ambigs_keys (P N : Z) (mappings : list (ascii * str))
    (ambigs : str) (c0 c : gmap ascii (Z * Z)) (k : ascii) :
  combine_ambigs P N ambigs mappings c0 = Some c ->
  is_Some (c !! k) -> is_Some (c0 !! k) \/ In k ambigs.
Proof.
  unfold combine_ambigs.
  apply (fold_opt_ind _
           (fun l c0 c => is_Some (c !! k) -> is_Some (c0 !! k) \/ In k l)).
  - intros c1 H. now left.
  - clear c0 c. intros c0 a c1 l c Hstep IH Hk. cbn beta in Hstep.
    destruct (IH Hk) as [Hk1|Hin]; [|right; now right].
    assert (Hc1 : c1 = c0 \/ exists v, c1 = <[a := v]> c0).
    { clear -Hstep.
      destruct (Py.assoc mappings a) as [pair|]; [|easy]. cbn in Hstep.
      destruct (pair !! 0%nat) as [k1|]; [|easy]. cbn in Hstep.
      destruct (c0 !! k1) as [[p1 n1]|]; [|left; congruence].
      destruct (pair !! 1%nat) as [k2|]; [|easy]. cbn in Hstep.
      destruct (c0 !! k2) as [[p2 n2]|]; [|left; congruence].
      destruct (union_estimate p1 p2 P); [|easy]. cbn in Hstep.
      destruct (union_estimate n1 n2 N); [|easy]. cbn in Hstep.
      right. eexists. now injection Hstep as <-. }
    destruct Hc1 as [->|[v ->]]; [now left|].
    destruct (decide (a = k)) as [->|Hne]; [right; now left|].
    left. now rewrite lookup_insert_ne in Hk1.
Qed.

Ltac in_list := cbn; repeat first [left; reflexivity | right].

Lemma doublets_triples_N_holds : doublets_triples_N.
Proof.
  split; [reflexivity|]. split; [|split].
  - repeat (apply Forall_cons; split;
            [do 2 eexists; split; [reflexivity|split; in_list]|]).
    constructor.
  - repeat (apply Forall_cons; split;
            [do 2 eexists; split; [reflexivity|split; in_list]|]).
    constructor.
  - eexists. split; [reflexivity|in_list].
Qed.

Section GeneralizerCounts.
Context {num : Type}.
Variable num_lt : num -> num -> bool.

Lemma base_counts_fold (re : str) (re_pvalues : gmap str (pvalue_record num))
    (thresh : num) (given_only : bool) (i : nat) (alph : str)
    (acc : gmap ascii (Z * Z)) (k : ascii) :
  NoDup alph ->
  fold_left
    (fun c_counts k =>
       let new_re := Py.subst re i k in
       let index := index_of given_only new_re in
       match re_pvalues !! index with
       | Some r =>
           if num_lt (r_logp r) thresh
           then <[k := (r_p r, r_n r)]> c_counts
           else c_counts
       | None => c_counts
       end) alph acc !! k
  = if has_key alph k
    then match significant_counts num_lt re re_pvalues thresh given_only i k with
         | Some v => Some v
         | None => acc !! k
         end
    else acc !! k.
Proof.
  intros Hnd. revert acc. induction Hnd as [|a alph Ha Hnd IH]; intros acc;
    [reflexivity|].
  cbn [fold_left]. rewrite IH. cbn zeta.
  change (has_key (a :: alph) k) with (Ascii.eqb k a || has_key alph k).
  destruct (Ascii.eqb_spec k a) as [->|Hne]; cbn [orb].
  - assert (Hk : has_key alph a = false).
    { apply has_key_false. intros Hin. apply Ha. now apply list_elem_of_In. }
    rewrite Hk. unfold significant_counts.
    destruct (re_pvalues !! _) as [r|]; [|reflexivity].
    destruct (num_lt _ _); [|reflexivity]. now rewrite lookup_insert_eq.
  - assert (Hacc : forall v, <[a := v]> acc !! k = acc !! k)
      by (intros v; apply lookup_insert_ne; congruence).
    destruct (re_pvalues !! index_of given_only (Py.subst re i a)) as [r|];
      [|reflexivity].
    destruct (num_lt (r_logp r) thresh); [|reflexivity].
    rewrite Hacc. reflexivity.
Qed.

Lemma base_counts_lookup (re : str) (re_pvalues : gmap str (pvalue_record num))
    (thresh : num) (given_only : bool) (i : nat) (alph : str) (k : ascii) :
  NoDup alph ->
  base_counts num_lt re re_pvalues alph thresh given_only i !! k
  = if has_key alph k
    then significant_counts num_lt re re_pvalues thresh given_only i k
    else None.
Proof.
  intros Hnd. unfold base_counts. rewrite base_counts_fold by exact Hnd.
  rewrite lookup_empty. now destruct (significant_counts _ _ _ _ _ _).
Qed.

Lemma base_counts_within (P N : Z) (re : str)
    (re_pvalues : gmap str (pvalue_record num)) (thresh : num)
    (given_only : bool) (i : nat) (alph : str) :
  NoDup alph ->
  (forall k p n,
     significant_counts num_lt re re_pvalues thresh given_only i k = Some (p, n) ->
     0 <= p <= P /\ 0 <= n <= N) ->
  counts_within P N (base_counts num_lt re re_pvalues alph thresh given_only i).
Proof.
  intros Hnd H k p n. rewrite base_counts_lookup by exact Hnd.
  destruct (has_key alph k); [apply H|discriminate].
Qed.

(** C4, as the program has it: in a column of [re_generalize] the counts
    of a base letter are those of its significant record, and the counts
    of an ambiguity code are computed from the counts of its two letters,
    when both have counts, which are the final ones: the codes are taken
    in the order of [_dna_ambigs], doublets before triples before [N], so
    that the letters of a code come before it. The computation is in
    double-precision arithmetic; for totals [P] and [N] of at most [2^25]
    and counts of the significant records within the totals it raises no
    error and its results are exactly [round(p1 + p2 - p1*p2/P)] and
    [round(n1 + n2 - n1*n2/N)]. *)
Theorem c_counts_inclusion_exclusion (re : str)
    (re_pvalues : gmap str (pvalue_record num)) (log_add_pthresh : num)
    (given_only : bool) (P N : Z) (i : nat) :
  0 < P <= 2 ^ 25 -> 0 < N <= 2 ^ 25 ->
  (forall k p n,
     significant_counts num_lt re re_pvalues log_add_pthresh given_only i k
     = Some (p, n) ->
     0 <= p <= P /\ 0 <= n <= N) ->
  exists c_counts,
    c_counts_at num_lt re re_pvalues _alph _dna_ambigs _dna_ambig_mappings
      log_add_pthresh given_only P N i = Some c_counts /\
    (forall k, In k _alph ->
       c_counts !! k
       = significant_counts num_lt re re_pvalues log_add_pthresh given_only i k) /\
    (forall ambig k1 k2,
       Py.assoc _dna_ambig_mappings ambig = Some [k1; k2] ->
       c_counts !! ambig = spec_combined c_counts P N k1 k2) /\
    doublets_triples_N.
Proof.
  intros HP HN Hsig. unfold c_counts_at.
  set (c0 := base_counts num_lt re re_pvalues _alph log_add_pthresh given_only i).
  assert (Hnd : NoDup (_alph ++ _dna_ambigs)).
  { apply NoDup_ListNoDup. repeat constructor; cbn; intuition discriminate. }
  assert (Hnda : NoDup _alph) by (now apply NoDup_app in Hnd as (? & _ & _)).
  destruct (combine_ambigs_spec P N _dna_ambig_mappings _dna_ambigs _alph c0
              HP HN (base_counts_within P N _ _ _ _ _ _ Hnda Hsig) Hnd)
    as (c & Hc & Hkeep & Hrule).
  { intros a Ha. unfold c0. rewrite base_counts_lookup by exact Hnda.
    destruct (has_key _alph a) eqn:E; [|reflexivity].
    apply has_key_In in E. apply NoDup_app in Hnd as (_ & Hdisj & _).
    exfalso. apply (Hdisj a); now apply list_elem_of_In. }
  { reflexivity. }
  exists c. split; [exact Hc|]. split; [|split; [|exact doublets_triples_N_holds]].
  - intros k Hk. rewrite Hkeep.
    + unfold c0. rewrite base_counts_lookup by exact Hnda.
      now rewrite (proj2 (has_key_In _ _) Hk).
    + apply NoDup_app in Hnd as (_ & Hdisj & _). intros Hin.
      apply (Hdisj k); now apply list_elem_of_In.
  - intros ambig k1 k2 Hmap. apply Hrule; [|exact Hmap].
    apply assoc_In in Hmap. cbn in Hmap.
    repeat (destruct Hmap as [[= <- _]|Hmap]; [cbn; tauto|]). destruct Hmap.
Qed.
End GeneralizerCounts.

Section GeneralizerStore.
Context {num : Type}.
Variable num0 : num.
Variable num_lt : num -> num -> bool.
Variable log_getFETprob : Z -> Z -> Z -> Z -> num.
Variable c_counts_keys : gmap ascii (Z * Z) -> list ascii.

Lemma store_generalized_spec (re : str) (alph : str) (given_only : bool)
    (P N : Z) (i : nat) (c_counts : gmap ascii (Z * Z))
    (acc : gmap str (pvalue_record num)) (key : str) (rec : pvalue_record num) :
  store_generalized num0 log_getFETprob c_counts_keys re alph given_only P N i
    c_counts acc !! key = Some rec ->
  acc !! key = Some rec \/
  exists k, has_key alph k = false /\ is_Some (c_counts !! k) /\
            stored_for re given_only i k key.
Proof.
  unfold store_generalized. generalize (c_counts_keys c_counts) as keys.
  intros keys. revert acc. induction keys as [|k keys IH]; intros acc;
    cbn [fold_left]; [now left|].
  intros H. apply IH in H as [H|H]; [|now right].
  destruct (has_key alph k) eqn:Hk; [now left|].
  destruct (c_counts !! k) as [[p n]|] eqn:Hc; [|now left].
  cbn zeta in H.
  destruct (bool_decide (head (Py.subst re i k) = Some "N"%char)) eqn:Hh;
    [now left|].
  destruct (bool_decide (last (Py.subst re i k) = Some "N"%char)) eqn:Hl;
    [now left|].
  cbn [orb] in H. apply bool_decide_eq_false in Hh, Hl.
  destruct (decide (index_of given_only (Py.subst re i k) = key)) as [Hkey|Hne].
  - right. exists k. split; [exact Hk|]. split; [rewrite Hc; now eexists|].
    unfold stored_for. cbn zeta. auto.
  - left. now rewrite lookup_insert_ne in H.
Qed.

(** C6, as the program has it: a record that one call of [re_generalize]
    stores has as its key the key of a pattern that differs from the
    source pattern in exactly one position, where a base is replaced by
    an ambiguous letter (the pattern itself on the given strand, else the
    smaller of the pattern and its reverse complement); neither that
    pattern nor the key starts or ends with [N]. *)
Theorem re_generalize_stores (re : str)
    (re_pvalues new_re_pvalues out : gmap str (pvalue_record num))
    (log_add_pthresh : num) (given_only : bool) (key : str)
    (rec : pvalue_record num) :
  re_generalize num0 num_lt log_getFETprob c_counts_keys re re_pvalues
    _alph _dna_ambigs _dna_ambig_mappings new_re_pvalues log_add_pthresh
    given_only = Some out ->
  out !! key = Some rec ->
  new_re_pvalues !! key = Some rec \/
  exists (i : nat) (b k : ascii),
    re !! i = Some b /\ is_base b = true /\ In k _dna_ambigs /\
    differs_only_at re (Py.subst re i k) i /\
    key = index_of given_only (Py.subst re i k) /\
    head (Py.subst re i k) <> Some "N"%char /\
    last (Py.subst re i k) <> Some "N"%char /\
    head key <> Some "N"%char /\ last key <> Some "N"%char.
Proof.
  unfold re_generalize. destruct (re_pvalues !! re) as [value|]; [|easy].
  cbn [mbind option_bind]. generalize (seq 0 (length re)) as cols.
  intros cols. revert new_re_pvalues.
  induction cols as [|i cols IH]; intros acc; cbn [Py.fold_opt].
  - intros [= ->]. now left.
  - destruct (re !! i) as [b|] eqn:Hb; [|easy]. cbn [mbind option_bind].
    destruct (has_key _alph b) eqn:Hbase; cbn [negb].
    2:{ apply IH. }
    destruct (c_counts_at _ _ _ _ _ _ _ _ _ _ _) as [c_counts|] eqn:Hc; [|easy].
    cbn [mbind option_bind]. intros Hout Hkey.
    destruct (IH _ Hout Hkey) as [Hst|Hex]; [|now right].
    apply store_generalized_spec in Hst as [Hacc|(k & Hk & Hck & Hh & Hl & ->)];
      [now left|].
    right. exists i, b, k.
    assert (Hamb : In k _dna_ambigs).
    { unfold c_counts_at in Hc.
      destruct (combine_ambigs_keys _ _ _ _ _ _ k Hc Hck) as [Hbase_k|Hin];
        [|exact Hin].
      rewrite base_counts_lookup in Hbase_k.
      - rewrite Hk in Hbase_k. now destruct Hbase_k.
      - apply NoDup_ListNoDup. repeat constructor; cbn; intuition discriminate. }
    destruct (index_of_no_boundary_N given_only _ Hh Hl) as [Hkh Hkl].
    split; [exact Hb|]. split; [exact Hbase|]. split; [exact Hamb|].
    split; [apply (subst_differs re i b k Hb); intros ->; congruence|].
    tauto.
Qed.
End GeneralizerStore.

Lemma sample_table_significant (k : ascii) (p n : Z) :
  significant_counts Z.ltb (lit "CAA") sample_table (-5) false 0 k = Some (p, n) ->
  0 <= p <= 10 /\ 0 <= n <= 10.
Proof.
  unfold significant_counts. destruct (sample_table !! _) as [r|] eqn:H; [|easy].
  destruct (_ <? _); [|easy]. intros [= <- <-]. unfold sample_table in H.
  apply lookup_insert_Some in H as [[_ <-]|[_ H]]; [cbn; lia|].
  apply lookup_insert_Some in H as [[_ <-]|[_ H]]; [cbn; lia|].
  now rewrite lookup_empty in H.
Qed.

Lemma c_counts_inclusion_exclusion_witness :
  0 < 10 <= 2 ^ 25 /\
  (forall k p n,
     significant_counts Z.ltb (lit "CAA") sample_table (-5) false 0 k = Some (p, n) ->
     0 <= p <= 10 /\ 0 <= n <= 10) /\
  exists c_counts,
    c_counts_at Z.ltb (lit "CAA") sample_table _alph _dna_ambigs
      _dna_ambig_mappings (-5) false 10 10 0 = Some c_counts /\
    (forall k, In k _alph ->
       c_counts !! k = significant_counts Z.ltb (lit "CAA") sample_table (-5) false 0 k) /\
    (forall ambig k1 k2,
       Py.assoc _dna_ambig_mappings ambig = Some [k1; k2] ->
       c_counts !! ambig = spec_combined c_counts 10 10 k1 k2) /\
    doublets_triples_N.
Proof.
  assert (H : 0 < 10 <= 2 ^ 25) by lia.
  split; [exact H|]. split; [exact sample_table_significant|].
  exact (c_counts_inclusion_exclusion Z.ltb (lit "CAA") sample_table (-5) false
           10 10 0%nat H H sample_table_significant).
Defined.

(** With [P = 2^27 + 1] positive sequences, of which [2^27] have [CAA] and
    [2^26] have [AAA], the count stored for [M] in the first column is
    134217729, where [round(p1 + p2 - p1*p2/P)] is 134217728: the
    quotient is rounded to [2^26 - 1/2], which leaves the difference at a
    half, and the half is rounded up. *)
Lemma c_counts_double_rounding :
  exists c_counts,
    c_counts_at Z.ltb (lit "CAA") large_table _alph _dna_ambigs _dna_ambig_mappings
      (-5) false (2 ^ 27 + 1) 10 0 = Some c_counts /\
    c_counts !! "A"%char = Some (2 ^ 26, 1) /\
    c_counts !! "C"%char = Some (2 ^ 27, 1) /\
    Py.assoc _dna_ambig_mappings "M"%char = Some [ "A"%char; "C"%char ] /\
    c_counts !! "M"%char = Some (134217729, 2) /\
    spec_combined c_counts (2 ^ 27 + 1) 10 "A"%char "C"%char = Some (134217728, 2) /\
    c_counts !! "M"%char <> spec_combined c_counts (2 ^ 27 + 1) 10 "A"%char "C"%char.
Proof.
  eexists. split; [vm_compute; reflexivity|].
  repeat (split; [vm_compute; reflexivity|]).
  vm_compute. discriminate.
Qed.

(** The pattern [YAA] is stored under its reverse complement [TTR], which
    differs from the source pattern [CAA] in three positions. *)
Lemma re_generalize_key_reverse_complement :
  (forall log_getFETprob : Z -> Z -> Z -> Z -> Z,
     re_generalize 0 Z.ltb log_getFETprob sample_keys (lit "CAA") sample_table
       _alph _dna_ambigs _dna_ambig_mappings ∅ (-5) false
     = Some {[ lit "TTR" := mk_record 7 10 1 10 (log_getFETprob 9 1 3 7) None ]}) /\
  canonical (lit "YAA") = lit "TTR" /\
  forall i, ~ differs_only_at (lit "CAA") (lit "TTR") i.
Proof.
  split; [|split].
  - intros fetp. vm_compute. reflexivity.
  - reflexivity.
  - intros i [_ H]. pose proof (proj1 (H 0%nat)) as H0.
    pose proof (proj1 (H 1%nat)) as H1. cbn in H0, H1.
    assert (0%nat = i) by (apply H0; discriminate).
    assert (1%nat = i) by (apply H1; discriminate). lia.
Qed.

Lemma re_generalize_stores_witness :
  let out : gmap str (pvalue_record Z) :=
    {[ lit "TTR" := mk_record 7 10 1 10 (-30) None ]} in
  re_generalize 0 Z.ltb (fun _ _ _ _ => -30) sample_keys (lit "CAA") sample_table
    _alph _dna_ambigs _dna_ambig_mappings ∅ (-5) false = Some out /\
  out !! lit "TTR" = Some (mk_record 7 10 1 10 (-30) None) /\
  ((∅ : gmap str (pvalue_record Z)) !! lit "TTR" = Some (mk_record 7 10 1 10 (-30) None) \/
   exists (i : nat) (b k : ascii),
     lit "CAA" !! i = Some b /\ is_base b = true /\ In k _dna_ambigs /\
     differs_only_at (lit "CAA") (Py.subst (lit "CAA") i k) i /\
     lit "TTR" = index_of false (Py.subst (lit "CAA") i k) /\
     head (Py.subst (lit "CAA") i k) <> Some "N"%char /\
     last (Py.subst (lit "CAA") i k) <> Some "N"%char /\
     head (lit "TTR") <> Some "N"%char /\ last (lit "TTR") <> Some "N"%char).
Proof.
  assert (H1 : re_generalize 0 Z.ltb (fun _ _ _ _ => -30) sample_keys (lit "CAA")
                 sample_table _alph _dna_ambigs _dna_ambig_mappings ∅ (-5) false
               = Some {[ lit "TTR" := mk_record 7 10 1 10 (-30) None ]})
    by (vm_compute; reflexivity).
  assert (H2 : ({[ lit "TTR" := mk_record 7 10 1 10 (-30) None ]}
                  : gmap str (pvalue_record Z)) !! lit "TTR"
               = Some (mk_record 7 10 1 10 (-30) None))
    by (vm_compute; reflexivity).
  split; [exact H1|]. split; [exact H2|].
  exact (re_generalize_stores 0 Z.ltb (fun _ _ _ _ => -30) sample_keys (lit "CAA")
           sample_table ∅ _ (-5) false (lit "TTR") _ H1 H2).
Defined.

(** ** Greedy refiner *)

Lemma fold_opt_rel {A B} (f : A -> B -> option A) (R : A -> A -> Prop)
    (C : B -> A -> Prop) (l : list B) (a0 : A) :
  (forall a, R a a) ->
  (forall a b c, R a b -> R b c -> R a c) ->
  (forall b a a', C b a -> R a a' -> C b a') ->
  (forall a b a', In b l -> R a0 a -> f a b = Some a' -> R a a' /\ C b a') ->
  forall a', Py.fold_opt f a0 l = Some a' -> R a0 a' /\ forall b, In b l -> C b a'.
Proof.
  intros Hrefl Htrans Hmono Hstep.
  assert (H : forall l' a a', (forall b, In b l' -> In b l) -> R a0 a ->
            Py.fold_opt f a l' = Some a' ->
            R a a' /\ forall b, In b l' -> C b a').
  { induction l' as [|b l' IH]; intros a a' Hincl Ha; cbn [Py.fold_opt].
    - intros [= <-]. split; [apply Hrefl|]. intros b [].
    - destruct (f a b) as [a1|] eqn:E; [|easy]. intros Hfold.
      destruct (Hstep a b a1 (Hincl b (or_introl eq_refl)) Ha E) as [Hab Hcb].
      destruct (IH a1 a') as [Hr Hc]; try assumption.
      + intros x Hx. apply Hincl. now right.
      + eapply Htrans; eassumption.
      + split; [eapply Htrans; eassumption|].
        intros x [<-|Hx]; [eapply Hmono; eassumption|now apply Hc]. }
  intros a'. apply H; [auto|apply Hrefl].
Qed.

Section Refiner.
Context {num : Type}.
Variable num0 : num.
Variable num_lt : num -> num -> bool.
Variable log_getFETprob : Z -> Z -> Z -> Z -> num.
Variable get_best_hamming_alignment :
  str -> list str -> list str -> bool -> Z * num * Z * Z * Z * Z.
Variable allowed_letters : str.
Variable pos_seqs neg_seqs : list str.
Variable hamming_dist : Z.
Variable given_only : bool.

Variable is_parent : str -> Prop.

Local Abbreviation record_of :=
  (new_record num0 log_getFETprob get_best_hamming_alignment pos_seqs neg_seqs
     hamming_dist given_only).
Local Abbreviation R :=
  (refined_by num_lt record_of (parent_substitution is_parent allowed_letters)).

Lemma refined_by_refl st : R st st.
Proof.
  split; [auto|]. split; [auto|]. intros key r H1 H2. congruence.
Qed.

Lemma refined_by_trans st1 st2 st3 : R st1 st2 -> R st2 st3 -> R st1 st3.
Proof.
  intros (G1 & K1 & N1) (G2 & K2 & N2). split; [auto|]. split.
  - intros k Hk. transitivity (st2.1 !! k).
    + apply K2. destruct Hk as [[r Hr]|Hk]; [left; exists r; auto|now right].
    + apply K1. destruct Hk as [Hk|Hk]; [now left|]. right.
      destruct (st2.2 !! k) as [r|] eqn:E; [|reflexivity].
      apply G2 in E. congruence.
  - intros key r Hnone Hsome.
    destruct (st2.2 !! key) as [r2|] eqn:E.
    + pose proof (G2 _ _ E) as E3. rewrite Hsome in E3. injection E3 as <-.
      destruct (N1 key r Hnone E) as (re & new_re & pr & Hsub & Hkey & Hrec & Hpr & Himp).
      exists re, new_re, pr. split; [exact Hsub|]. split; [exact Hkey|].
      split; [exact Hrec|]. split; [now apply G2|].
      rewrite <- Himp. apply K2. left. now exists r.
    + destruct (N2 key r E Hsome) as (re & new_re & pr & Hsub & Hkey & Hrec & Hpr & Himp).
      exists re, new_re, pr. split; [exact Hsub|]. split; [exact Hkey|].
      split; [exact Hrec|]. split; [exact Hpr|].
      rewrite Himp. destruct (num_lt _ _); [reflexivity|]. apply K1. now right.
Qed.

Lemma refined_by_grows st st' key :
  R st st' -> is_Some (st.2 !! key) -> is_Some (st'.2 !! key).
Proof. intros (G & _ & _) [r Hr]. exists r. auto. Qed.

Lemma try_substitution_refined (re : str) (i : nat) (old new : ascii) st st' :
  is_parent re -> re !! i = Some old -> In new allowed_letters ->
  try_substitution num0 num_lt log_getFETprob get_best_hamming_alignment re
    pos_seqs neg_seqs hamming_dist given_only i old st new = Some st' ->
  R st st' /\
  (new <> old -> is_Some (st'.2 !! canonical (Py.subst re i new))).
Proof.
  intros Hp Hold Hnew. destruct st as [imp T]. unfold try_substitution.
  destruct (Ascii.eqb_spec new old) as [->|Hne].
  { intros [= <-]. split; [apply refined_by_refl|easy]. }
  fold (canonical (Py.subst re i new)).
  set (new_re := Py.subst re i new). set (index := canonical new_re).
  destruct (T !! index) as [r0|] eqn:HT.
  { intros [= <-]. split; [apply refined_by_refl|]. intros _. now exists r0. }
  fold (record_of new_re).
  destruct (record_of new_re) as [r|] eqn:Hrec; [|easy]. cbn [mbind option_bind].
  destruct (T !! re) as [pr|] eqn:Hpr; [|easy]. cbn [mbind option_bind].
  intros [= <-]. cbn [fst snd].
  assert (Hre : re <> index) by (intros E; rewrite E in Hpr; congruence).
  split; [|intros _; rewrite lookup_insert_eq; now eexists].
  split; [|split]; cbn [fst snd].
  - intros k r' Hk. rewrite lookup_insert_ne; [exact Hk|]. intros <-. congruence.
  - intros k Hk. assert (Hki : index <> k).
    { intros <-. destruct Hk as [[r' Hk]|Hk]; [congruence|].
      now rewrite lookup_insert_eq in Hk. }
    destruct (num_lt (r_logp r) (r_logp pr)); [|reflexivity].
    now rewrite lookup_insert_ne.
  - intros key r' Hnone. destruct (decide (index = key)) as [<-|Hk].
    + rewrite lookup_insert_eq. intros [= <-].
      exists re, new_re, pr. split; [|split; [reflexivity|split; [exact Hrec|]]].
      * split; [exact Hp|]. exists i, old, new. auto.
      * rewrite lookup_insert_ne by congruence. split; [exact Hpr|].
        destruct (num_lt (r_logp r) (r_logp pr)); [|reflexivity].
        now rewrite lookup_insert_eq.
    + rewrite lookup_insert_ne by exact Hk. congruence.
Qed.

Lemma refine_candidate_refined (re : str) st st' :
  is_parent re ->
  refine_candidate num0 num_lt log_getFETprob get_best_hamming_alignment re
    allowed_letters pos_seqs neg_seqs hamming_dist given_only st = Some st' ->
  R st st' /\ all_tried allowed_letters re st'.2.
Proof.
  intros Hp H. unfold refine_candidate in H.
  apply (fold_opt_rel _ R
           (fun i st' => forall old new, re !! i = Some old ->
              In new allowed_letters -> new <> old ->
              is_Some (st'.2 !! canonical (Py.subst re i new)))) in H.
  - destruct H as [HR HC]. split; [exact HR|].
    intros new_re (i & old & new & Hold & Hnew & Hne & ->).
    refine (HC i _ old new Hold Hnew Hne).
    apply in_seq. apply lookup_lt_Some in Hold. lia.
  - apply refined_by_refl.
  - apply refined_by_trans.
  - intros i a a' HC HR old new Hold Hnew Hne.
    eapply refined_by_grows; [exact HR|]. now apply (HC old new).
  - intros a i a' _ _ Hstep. destruct (re !! i) as [old|] eqn:Hold; [|easy].
    cbn [mbind option_bind] in Hstep.
    apply (fold_opt_rel _ R
             (fun new st' => new <> old ->
                is_Some (st'.2 !! canonical (Py.subst re i new)))) in Hstep.
    + destruct Hstep as [HR HC]. split; [exact HR|].
      intros old' new [= <-] Hnew Hne. now apply HC.
    + apply refined_by_refl.
    + apply refined_by_trans.
    + intros new b b' HC HR Hne. eapply refined_by_grows; [exact HR|]. auto.
    + intros b new b' Hnew _ Hsub.
      eapply try_substitution_refined; eassumption.
Qed.
End Refiner.

Section RefineRound.
Context {num : Type}.
Variable num0 : num.
Variable num_lt : num -> num -> bool.
Variable log_getFETprob : Z -> Z -> Z -> Z -> num.
Variable get_best_hamming_alignment :
  str -> list str -> list str -> bool -> Z * num * Z * Z * Z * Z.
Variable allowed_letters : str.
Variable pos_seqs neg_seqs : list str.
Variable hamming_dist : Z.
Variable given_only : bool.
Variable candidate_pvalues : list (str * pvalue_record num).
Variable done_re_list : gset str.

Local Abbreviation to_refine := (to_refine candidate_pvalues done_re_list).

Local Abbreviation record_of :=
  (new_record num0 log_getFETprob get_best_hamming_alignment pos_seqs neg_seqs
     hamming_dist given_only).
Local Abbreviation is_sub := (parent_substitution to_refine allowed_letters).
Local Abbreviation R := (round_of num_lt record_of is_sub allowed_letters).

Lemma round_of_refl st : R st st.
Proof.
  split; [apply refined_by_refl|]. split; [reflexivity|]. intros re Hre. now left.
Qed.

Lemma round_of_trans st1 st2 st3 : R st1 st2 -> R st2 st3 -> R st1 st3.
Proof.
  intros (H1 & D1 & T1) (H2 & D2 & T2).
  split; [eapply refined_by_trans; eassumption|]. split; [set_solver|].
  intros re Hre. destruct (T2 re Hre) as [Hre2|Htried]; [|now right].
  destruct (T1 re Hre2) as [Hre1|Htried]; [now left|]. right.
  intros new_re Hsub. eapply refined_by_grows; [exact H2|]. now apply Htried.
Qed.

Lemma re_refine_round_of (re_pvalues : gmap str (pvalue_record num)) st' :
  re_refine num0 num_lt log_getFETprob get_best_hamming_alignment re_pvalues
    candidate_pvalues done_re_list allowed_letters pos_seqs neg_seqs
    hamming_dist given_only = Some st' ->
  R (∅, re_pvalues, done_re_list) st' /\
  forall cand, In cand candidate_pvalues -> cand.1 ∈ st'.2.
Proof.
  unfold re_refine.
  apply (fold_opt_rel _ R (fun cand st' => cand.1 ∈ st'.2)).
  - apply round_of_refl.
  - apply round_of_trans.
  - intros cand a a' Hc (_ & D & _). set_solver.
  - intros [[imp T] done] cand a' Hcand Hreach.
    destruct (bool_decide (cand.1 ∈ done)) eqn:Hdone.
    + intros [= <-]. split; [apply round_of_refl|]. now apply bool_decide_eq_true in Hdone.
    + apply bool_decide_eq_false in Hdone.
      destruct (refine_candidate _ _ _ _ _ _ _ _ _ _ _) as [[imp' T']|] eqn:Hcandidate;
        [|easy].
      cbn [mbind option_bind]. intros [= <-].
      assert (Hparent : to_refine cand.1).
      { split; [apply in_map; exact Hcand|]. destruct Hreach as (_ & D & _).
        cbn [snd] in D. set_solver. }
      destruct (refine_candidate_refined _ _ _ _ _ _ _ _ _ to_refine _ _ _
                  Hparent Hcandidate) as [HR Htried].
      split; [|cbn [snd]; set_solver].
      split; [exact HR|]. split; [cbn [snd]; set_solver|].
      cbn [fst snd]. intros re Hre. apply elem_of_union in Hre as [Hre|Hre]; [|now left].
      apply elem_of_singleton in Hre as ->. now right.
Qed.
End RefineRound.

(** C5, as the program has it: in a round of exact refinement, every
    substitution of one letter of a not yet refined candidate by a
    different allowed letter has a record afterwards; a pattern that had a
    record before keeps it and is not among the improved patterns; a
    pattern that gets its record in the round gets the exact enrichment of
    a substitution, and it is among the improved patterns exactly when its
    log p-value is less than that of the candidate it was made from;
    nothing else is among the improved patterns. *)
Theorem re_refine_round {num : Type} (num0 : num) (num_lt : num -> num -> bool)
    (log_getFETprob : Z -> Z -> Z -> Z -> num)
    (get_best_hamming_alignment :
       str -> list str -> list str -> bool -> Z * num * Z * Z * Z * Z)
    (re_pvalues : gmap str (pvalue_record num))
    (candidate_pvalues : list (str * pvalue_record num))
    (done_re_list : gset str) (allowed_letters : str)
    (pos_seqs neg_seqs : list str) (given_only : bool)
    (improved_re_pvalues re_pvalues' : gmap str (pvalue_record num))
    (done_re_list' : gset str) :
  re_refine num0 num_lt log_getFETprob get_best_hamming_alignment re_pvalues
    candidate_pvalues done_re_list allowed_letters pos_seqs neg_seqs (-1)
    given_only = Some (improved_re_pvalues, re_pvalues', done_re_list') ->
  (forall re new_re,
     In re (candidate_pvalues.*1) -> re ∉ done_re_list ->
     substitution_of allowed_letters re new_re ->
     is_Some (re_pvalues' !! canonical new_re)) /\
  (forall key r,
     re_pvalues !! key = Some r ->
     re_pvalues' !! key = Some r /\ improved_re_pvalues !! key = None) /\
  (forall key r,
     re_pvalues !! key = None -> re_pvalues' !! key = Some r ->
     exists re new_re pr,
       In re (candidate_pvalues.*1) /\ (re ∉ done_re_list) /\
       substitution_of allowed_letters re new_re /\ key = canonical new_re /\
       compute_exact_re_enrichment num0 log_getFETprob new_re pos_seqs neg_seqs
         given_only = Some r /\
       re_pvalues' !! re = Some pr /\
       improved_re_pvalues !! key
       = if num_lt (r_logp r) (r_logp pr) then Some r else None) /\
  (forall key, re_pvalues' !! key = None -> improved_re_pvalues !! key = None).
Proof.
  intros H. apply re_refine_round_of in H as [((G & K & N) & D & T) C].
  cbn [fst snd] in *. split; [|split; [|split]].
  - intros re new_re Hin Hnot Hsub. apply in_map_iff in Hin as (cand & <- & Hcand).
    destruct (T _ (C cand Hcand)) as [Hdone|Htried]; [easy|]. now apply Htried.
  - intros key r Hkey. split; [now apply G|].
    rewrite K; [apply lookup_empty|]. left. now exists r.
  - intros key r Hnone Hsome.
    destruct (N key r Hnone Hsome) as (re & new_re & pr & [[Hre Hnd] Hsub] & Hk & Hrec & Hpr & Himp).
    exists re, new_re, pr. rewrite lookup_empty in Himp. auto 10.
  - intros key Hkey. rewrite K; [apply lookup_empty|]. now right.
Qed.

Lemma re_refine_round_witness :
  let fetp : Z -> Z -> Z -> Z -> Z := fun _ _ _ _ => -3 in
  let ham : str -> list str -> list str -> bool -> Z * Z * Z * Z * Z * Z :=
    fun _ _ _ _ => (0, 0, 0, 0, 0, 0) in
  let tbl : gmap str (pvalue_record Z) := {[ lit "A" := sample_record_A ]} in
  let cands := [(lit "A", sample_record_A)] in
  let improved : gmap str (pvalue_record Z) := {[ lit "C" := sample_record_C (-3) ]} in
  let tbl' : gmap str (pvalue_record Z) := <[ lit "C" := sample_record_C (-3) ]> tbl in
  re_refine 0 Z.ltb fetp ham tbl cands ∅ _dna_alphabet sample_pos sample_neg (-1)
    false = Some (improved, tbl', {[ lit "A" ]}) /\
  ((forall re new_re,
      In re (cands.*1) -> re ∉ (∅ : gset str) ->
      substitution_of _dna_alphabet re new_re ->
      is_Some (tbl' !! canonical new_re)) /\
   (forall key r,
      tbl !! key = Some r -> tbl' !! key = Some r /\ improved !! key = None) /\
   (forall key r,
      tbl !! key = None -> tbl' !! key = Some r ->
      exists re new_re pr,
        In re (cands.*1) /\ (re ∉ (∅ : gset str)) /\
        substitution_of _dna_alphabet re new_re /\ key = canonical new_re /\
        compute_exact_re_enrichment 0 fetp new_re sample_pos sample_neg false
          = Some r /\
        tbl' !! re = Some pr /\
        improved !! key = if Z.ltb (r_logp r) (r_logp pr) then Some r else None) /\
   (forall key, tbl' !! key = None -> improved !! key = None)).
Proof.
  cbv zeta.
  assert (H : re_refine 0 Z.ltb (fun _ _ _ _ => -3)
                (fun _ _ _ _ => (0, 0, 0, 0, 0, 0))
                {[ lit "A" := sample_record_A ]} [(lit "A", sample_record_A)] ∅
                _dna_alphabet sample_pos sample_neg (-1) false
              = Some ({[ lit "C" := sample_record_C (-3) ]},
                      <[ lit "C" := sample_record_C (-3) ]>
                        {[ lit "A" := sample_record_A ]},
                      {[ lit "A" ]}))
    by (vm_compute; reflexivity).
  split; [exact H|].
  exact (re_refine_round 0 Z.ltb _ _ _ _ _ _ _ _ _ _ _ _ H).
Defined.

(** The pattern [C] is a substitution of the candidate [A], and with its
    exact record its log p-value is that of the tail primitive, less than
    the [0] of [A] whenever the primitive returns the logarithm of a
    probability below one. It has a record already: the round computes
    nothing and returns no improved pattern. *)
Lemma re_refine_skips_known_pattern :
  substitution_of _dna_alphabet (lit "A") (lit "C") /\
  canonical (lit "C") = lit "C" /\
  forall (fetp : Z -> Z -> Z -> Z -> Z)
         (ham : str -> list str -> list str -> bool -> Z * Z * Z * Z * Z * Z),
    let tbl : gmap str (pvalue_record Z) :=
      <[ lit "C" := sample_record_C (fetp 2 0 0 2) ]> {[ lit "A" := sample_record_A ]} in
    compute_exact_re_enrichment 0 fetp (lit "A") sample_pos sample_neg false
      = Some sample_record_A /\
    compute_exact_re_enrichment 0 fetp (lit "C") sample_pos sample_neg false
      = Some (sample_record_C (fetp 2 0 0 2)) /\
    re_refine 0 Z.ltb fetp ham tbl [(lit "A", sample_record_A)] ∅ _dna_alphabet
      sample_pos sample_neg (-1) false
    = Some (∅, tbl, {[ lit "A" ]}).
Proof.
  split; [|split].
  - exists 0%nat, "A"%char, "C"%char. repeat split; try reflexivity.
    + cbn. tauto.
    + discriminate.
  - reflexivity.
  - intros fetp ham. cbv zeta. repeat split; vm_compute; reflexivity.
Qed.

(** ** The find-and-erase loop *)

(** ** Background letter frequencies *)

Lemma count_letter_other (freqs : gmap ascii Z) (c k : ascii) :
  c <> k -> count_letter freqs c !! k = freqs !! k.
Proof.
  intros Hne. unfold count_letter.
  destruct (freqs !! c); now rewrite lookup_insert_ne.
Qed.

Lemma count_letter_same (freqs : gmap ascii Z) (c : ascii) (v : Z) :
  freqs !! c = Some v -> count_letter freqs c !! c = Some (v + 1).
Proof. intros H. unfold count_letter. rewrite H. apply lookup_insert_eq. Qed.

Lemma count_seq (seq : str) (freqs : gmap ascii Z) (k : ascii) (v : Z) :
  freqs !! k = Some v ->
  fold_left count_letter seq freqs !! k
  = Some (v + Z.of_nat (length (filter (fun c => c = k) seq))).
Proof.
  revert freqs v. induction seq as [|c seq IH]; intros freqs v Hk; cbn [fold_left].
  - rewrite Hk. cbn. f_equal. lia.
  - rewrite filter_cons. destruct (decide (c = k)) as [->|Hne].
    + rewrite (IH _ (v + 1)) by now apply count_letter_same.
      cbn [length]. f_equal. lia.
    + rewrite (IH _ v) by now rewrite count_letter_other. reflexivity.
Qed.

Lemma count_seqs (seqs : list str) (freqs : gmap ascii Z) (k : ascii) (v : Z) :
  freqs !! k = Some v ->
  fold_left (fun freqs seq => fold_left count_letter seq freqs) seqs freqs !! k
  = Some (v + occurrences k seqs).
Proof.
  unfold occurrences. revert freqs v.
  induction seqs as [|seq seqs IH]; intros freqs v Hk; cbn [fold_left concat].
  - rewrite Hk. cbn. f_equal. lia.
  - rewrite (IH _ _ (count_seq seq freqs k v Hk)).
    rewrite filter_app, length_app. f_equal. lia.
Qed.

Lemma initial_freqs (alphabet_string : str) (freqs : gmap ascii Z) (k : ascii) :
  fold_left (fun freqs char => <[char := 1]> freqs) alphabet_string freqs !! k
  = if bool_decide (k ∈ alphabet_string) then Some 1 else freqs !! k.
Proof.
  revert freqs. induction alphabet_string as [|c l IH]; intros freqs; cbn [fold_left].
  - now rewrite bool_decide_eq_false_2 by (apply not_elem_of_nil).
  - rewrite IH. destruct (bool_decide_reflect (k ∈ l)) as [Hin|Hnin].
    + now rewrite bool_decide_eq_true_2 by now right.
    + destruct (decide (c = k)) as [->|Hne].
      * rewrite lookup_insert_eq. now rewrite bool_decide_eq_true_2 by now left.
      * rewrite lookup_insert_ne by exact Hne.
        rewrite bool_decide_eq_false_2; [reflexivity|]. intros H; apply elem_of_cons in H as [?|?]; [congruence|contradiction].
Qed.

Lemma letter_freqs_lookup (seqs : list str) (alphabet_string : str) (k : ascii) :
  k ∈ alphabet_string ->
  letter_freqs seqs alphabet_string !! k = Some (1 + occurrences k seqs).
Proof.
  intros Hk. unfold letter_freqs. apply count_seqs.
  rewrite initial_freqs. now rewrite bool_decide_eq_true_2.
Qed.

Lemma sum_freqs (seqs : list str) (alphabet_string l : str) (n0 : Z) :
  (forall c, c ∈ l -> c ∈ alphabet_string) ->
  Py.fold_opt (fun n char => k ← letter_freqs seqs alphabet_string !! char; Some (n + k))
    n0 l
  = Some (fold_left (fun n c => n + (1 + occurrences c seqs)) l n0).
Proof.
  revert n0. induction l as [|c l IH]; intros n0 Hl; cbn [Py.fold_opt fold_left];
    [reflexivity|].
  rewrite letter_freqs_lookup by (apply Hl; now left). cbn.
  apply IH. intros c' Hc'. apply Hl. now right.
Qed.

Lemma total_pos (seqs : list str) (l : str) (n0 : Z) :
  0 <= n0 ->
  n0 + Z.of_nat (length l) <= fold_left (fun n c => n + (1 + occurrences c seqs)) l n0.
Proof.
  revert n0. induction l as [|c l IH]; intros n0 H0; cbn [fold_left length]; [lia|].
  assert (0 <= occurrences c seqs) by (unfold occurrences; lia).
  specialize (IH (n0 + (1 + occurrences c seqs)) ltac:(lia)). lia.
Qed.

Lemma probs_fold (seqs : list str) (alphabet_string l : str) (n : Z)
    (probs0 : gmap ascii Q) :
  n <> 0 -> (forall c, c ∈ l -> c ∈ alphabet_string) ->
  exists probs,
    Py.fold_opt
      (fun probs char =>
         k ← letter_freqs seqs alphabet_string !! char;
         if n =? 0 then None
         else Some (<[char := (inject_Z k / inject_Z n)%Q]> probs))
      probs0 l = Some probs /\
    forall c, probs !! c
              = if bool_decide (c ∈ l)
                then Some (inject_Z (1 + occurrences c seqs) / inject_Z n)%Q
                else probs0 !! c.
Proof.
  intros Hn. revert probs0. induction l as [|c l IH]; intros probs0 Hl;
    cbn [Py.fold_opt].
  - exists probs0. split; [reflexivity|]. intros c.
    now rewrite bool_decide_eq_false_2 by (apply not_elem_of_nil).
  - rewrite letter_freqs_lookup by (apply Hl; now left). cbn.
    destruct (Z.eqb_spec n 0); [contradiction|].
    destruct (IH (<[c := (inject_Z (1 + occurrences c seqs) / inject_Z n)%Q]> probs0))
      as (probs & -> & Hp).
    { intros c' Hc'. apply Hl. now right. }
    exists probs. split; [reflexivity|]. intros k. rewrite Hp.
    destruct (bool_decide_reflect (k ∈ l)) as [Hin|Hnin].
    + now rewrite bool_decide_eq_true_2 by now right.
    + destruct (decide (c = k)) as [->|Hne].
      * rewrite lookup_insert_eq. now rewrite bool_decide_eq_true_2 by now left.
      * rewrite lookup_insert_ne by exact Hne.
        rewrite bool_decide_eq_false_2; [reflexivity|]. intros H; apply elem_of_cons in H as [?|?]; [congruence|contradiction].
Qed.

Lemma get_probs_lookup (seqs : list str) (alphabet_string : str) :
  exists probs,
    get_probs seqs alphabet_string = Some probs /\
    forall c, probs !! c
              = if bool_decide (c ∈ alphabet_string)
                then Some (inject_Z (1 + occurrences c seqs)
                           / inject_Z (total seqs alphabet_string))%Q
                else None.
Proof.
  unfold get_probs. cbn zeta. rewrite sum_freqs by auto. cbn [mbind option_bind].
  destruct alphabet_string as [|a l] eqn:E.
  - exists ∅. split; [reflexivity|]. intros c. rewrite lookup_empty.
    now rewrite bool_decide_eq_false_2 by (apply not_elem_of_nil).
  - rewrite <- E.
    destruct (probs_fold seqs alphabet_string alphabet_string
                (total seqs alphabet_string) ∅) as (probs & Hp & Hl); [|auto|].
    { pose proof (total_pos seqs alphabet_string 0 ltac:(lia)) as H.
      unfold total. rewrite E in *. cbn [length] in H. lia. }
    exists probs. split; [exact Hp|]. intros c. rewrite Hl, lookup_empty. reflexivity.
Qed.

(** [get_probs] raises no error. *)
Lemma get_probs_total (seqs : list str) (alphabet_string : str) :
  is_Some (get_probs seqs alphabet_string).
Proof.
  destruct (get_probs_lookup seqs alphabet_string) as (probs & -> & _). now eexists.
Qed.

Section LoopProperties.
Context {num : Type}.
Variable num_lt num_le : num -> num -> bool.
Variable log_ethresh : num.
Variable find_print : config -> Z -> list str -> list str -> option (str * num).
Variable find_times_out : Z -> bool.
Variable deadline_passed : Z -> bool.
Variable erase_times_out : Z -> option nat.
Variable makedirs : str -> makedirs_result.
Variable read_seqs : str -> option (list str).
Variable dinuclShuffle : Z -> list str -> str -> option str.
Variable read_description : str -> option str.
Variable write_xml_top : files -> Z -> Z -> gmap ascii Q -> bool.

(** [a <= b] excludes [a > b]. *)
Hypothesis num_le_not_gt : forall a b, num_le a b = true -> num_lt b a = false.

Local Abbreviation loop :=
  (find_erase_loop num_lt num_le log_ethresh find_print find_times_out
     deadline_passed erase_times_out).
Local Abbreviation run_main :=
  (main num_lt num_le log_ethresh find_print find_times_out deadline_passed
     erase_times_out makedirs read_seqs dinuclShuffle read_description
     write_xml_top).

(** C2, as the program has it: with [max_motifs = 1], when the search for
    the first motif is not timed out and its E-value is at most the
    threshold, the loop stops with cause [count] in its first iteration,
    before the erasing: the sequence sets are left as they were. *)
Theorem max_motifs_1_stops_at_count (c : config) (fuel : nat)
    (pos_seqs neg_seqs : list str) (word : str) (Evalue : num) :
  max_motifs c = Some 1 ->
  bool_decide (is_Some (max_time c)) && find_times_out 1 = false ->
  find_print c 1 pos_seqs neg_seqs = Some (word, Evalue) ->
  num_le Evalue log_ethresh = true ->
  loop c (S fuel) pos_seqs neg_seqs 0
  = Some ([Looking 1], Stop StopCount 1 pos_seqs neg_seqs).
Proof.
  intros Hmax Htime Hfind Hsig. cbn [find_erase_loop].
  change (0 + 1) with 1. rewrite Htime, Hfind, (num_le_not_gt _ _ Hsig).
  rewrite Hmax. now rewrite bool_decide_eq_true_2.
Qed.

Lemma loop_starts_looking (c : config) (fuel : nat) (pos_seqs neg_seqs : list str)
    (nmotifs : Z) (evs : list event) (e : loop_end) :
  loop c fuel pos_seqs neg_seqs nmotifs = Some (evs, e) ->
  head evs = Some (Looking (nmotifs + 1)).
Proof.
  destruct fuel as [|fuel]; [easy|]. cbn [find_erase_loop].
  destruct (_ && find_times_out _); [now intros [= <- <-]|].
  destruct (find_print _ _ _ _) as [[word Evalue]|]; [|now intros [= <- <-]].
  destruct (num_lt _ _); [now intros [= <- <-]|].
  destruct (bool_decide (max_motifs c = _)); [now intros [= <- <-]|].
  destruct (_ && deadline_passed _); [now intros [= <- <-]|].
  destruct (num_le _ _).
  - destruct (if bool_decide _ then _ else _) as [j|].
    + destruct (erase_re_upto _ _ _ _) as [[p n]|]; now intros [= <- <-].
    + destruct (erase_re _ _ _) as [[p n]|]; [|now intros [= <- <-]].
      destruct (find_erase_loop _ _ _ _ _ _ _ _ _ _ _ _) as [[evs' e']|];
        cbn [mbind option_bind]; [now intros [= <- <-]|easy].
  - destruct (find_erase_loop _ _ _ _ _ _ _ _ _ _ _ _) as [[evs' e']|];
      cbn [mbind option_bind]; [now intros [= <- <-]|easy].
Qed.

End LoopProperties.

Lemma Z_le_not_gt (a b : Z) : (a <=? b) = true -> (b <? a) = false.
Proof. intros H. apply Z.leb_le in H. apply Z.ltb_ge. exact H. Qed.

Lemma max_motifs_1_stops_at_count_witness :
  let c := {| minw := -1; maxw := -1; mink := 3; maxk := 8;
              max_motifs := Some 1; max_time := None |} in
  let find_print : config -> Z -> list str -> list str -> option (str * Z) :=
    fun _ _ _ _ => Some (lit "ACGT", -10) in
  max_motifs c = Some 1 /\
  bool_decide (is_Some (max_time c)) && false = false /\
  find_print c 1 [lit "AACGTT"] [lit "TTTT"] = Some (lit "ACGT", -10) /\
  (-10 <=? -3) = true /\
  find_erase_loop Z.ltb Z.leb (-3) find_print (fun _ => false) (fun _ => false)
    (fun _ => None) c 1 [lit "AACGTT"] [lit "TTTT"] 0
  = Some ([Looking 1], Stop StopCount 1 [lit "AACGTT"] [lit "TTTT"]).
Proof.
  cbv zeta. repeat (split; [reflexivity|]).
  exact (max_motifs_1_stops_at_count Z.ltb Z.leb (-3)
           (fun _ _ _ _ => Some (lit "ACGT", -10)) (fun _ => false) (fun _ => false)
           (fun _ => None) Z_le_not_gt
           {| minw := -1; maxw := -1; mink := 3; maxk := 8;
              max_motifs := Some 1; max_time := None |}
           0 [lit "AACGTT"] [lit "TTTT"] (lit "ACGT") (-10)
           eq_refl eq_refl eq_refl eq_refl).
Defined.

(** With [max_motifs = 1] and a first motif [ACGT] below the threshold,
    the loop stops with cause [count] and has erased nothing: the sequence
    sets still hold [ACGT], where the erasing would have left [N]s. *)
Lemma max_motifs_1_no_erasure :
  erase_re (lit "ACGT") [lit "AACGTT"] [lit "TTTT"]
  = Some ([lit "ANNNNT"], [lit "TTTT"]) /\
  forall (find_print : config -> Z -> list str -> list str -> option (str * Z))
         (find_times_out deadline_passed : Z -> bool)
         (erase_times_out : Z -> option nat) (fuel : nat),
    let c := {| minw := -1; maxw := -1; mink := 3; maxk := 8;
                max_motifs := Some 1; max_time := None |} in
    find_print c 1 [lit "AACGTT"] [lit "TTTT"] = Some (lit "ACGT", -10) ->
    find_erase_loop Z.ltb Z.leb (-3) find_print find_times_out deadline_passed
      erase_times_out c (S fuel) [lit "AACGTT"] [lit "TTTT"] 0
    = Some ([Looking 1], Stop StopCount 1 [lit "AACGTT"] [lit "TTTT"]).
Proof.
  split; [reflexivity|].
  intros find_print ft dp et fuel c Hfind. cbn [find_erase_loop].
  change (0 + 1) with 1. rewrite Hfind. reflexivity.
Qed.



(** * Further properties *)

(** * Further properties *)

(** ** What the matcher accepts *)

Lemma ambig_to_dna_iupac (c : ascii) :
  is_Some (Py.assoc _ambig_to_dna c) -> is_iupac c = true.
Proof.
  intros [cls H]. apply assoc_In in H. cbn in H.
  repeat (destruct H as [H|H]; [now injection H as <- _|]). destruct H.
Qed.

Lemma expand_classes_iupac (re : str) :
  is_Some (expand_classes re) -> iupac_pattern re.
Proof.
  unfold expand_classes. intros H. apply mapM_is_Some in H.
  eapply Forall_impl; [exact H|]. intros c Hc. now apply ambig_to_dna_iupac.
Qed.

Lemma make_dna_re_iupac (re : str) (given_only complete : bool) (ms : Regex.matcher) :
  make_dna_re re given_only complete = Some ms -> iupac_pattern re.
Proof.
  unfold make_dna_re. intros H.
  destruct (expand_classes re) as [RE|] eqn:E; [|discriminate].
  apply expand_classes_iupac. now rewrite E.
Qed.

(** X1: [make_dna_re] returns a matcher exactly for the patterns over the
    fifteen IUPAC letters; on any other letter the lookup in
    [_ambig_to_dna] raises [KeyError]. *)
Theorem make_dna_re_defined_iff (re : str) (given_only complete : bool) :
  is_Some (make_dna_re re given_only complete) <-> iupac_pattern re.
Proof.
  split.
  - intros [ms H]. exact (make_dna_re_iupac _ _ _ _ H).
  - apply make_dna_re_total.
Qed.

Lemma classes_match_instance (re : str) (cs : list Regex.charclass) (s : str) :
  expand_classes re = Some cs ->
  is_Some (Regex.classes_match cs s) <->
  (length re <= length s)%nat /\ instance_of re (take (length re) s).
Proof.
  unfold expand_classes, instance_of. intros H. apply mapM_Some in H.
  revert s. induction H as [|L cls re cs HL _ IH]; intros s.
  - cbn. split; [intros _; split; [lia|constructor]|intros _; now eexists].
  - cbn [Regex.classes_match length]. destruct s as [|c s].
    + cbn. split; [intros [? [=]]|intros [Hlen _]; lia].
    + cbn [length take]. destruct (Regex.class_match cls c) eqn:Hc.
      * rewrite fmap_is_Some, IH. split.
        -- intros [Hlen Hi]. split; [lia|]. constructor; [|exact Hi].
           exists cls. split; [exact HL|].
           unfold Regex.class_match in Hc. apply existsb_exists in Hc as (x & Hx & E).
           apply Ascii.eqb_eq in E. now subst.
        -- intros [Hlen Hi]. apply Forall2_cons in Hi as [_ Hi].
           split; [lia|exact Hi].
      * split; [intros [? [=]]|]. intros [_ Hi]. apply Forall2_cons in Hi as [Hi _].
        destruct Hi as (cls' & Hcls' & Hin). rewrite HL in Hcls'. injection Hcls' as <-.
        assert (E : Regex.class_match cls c = true).
        { apply existsb_exists. exists c. split; [exact Hin|apply Ascii.eqb_refl]. }
        congruence.
Qed.

Lemma instance_of_length (re w : str) : instance_of re w -> length w = length re.
Proof. intros H. symmetry. eapply Forall2_length, H. Qed.

Lemma search_from_is_Some (m : Regex.matcher) (s : str) (pos : nat) :
  is_Some (Regex.search_from m pos s) <->
  exists k, (k <= length s)%nat /\ is_Some (Regex.match_here m (pos + k) (drop k s)).
Proof.
  revert pos. induction s as [|c s IH]; intros pos; cbn [Regex.search_from].
  - destruct (Regex.match_here m pos []) as [n|] eqn:E.
    + split; [|now eexists]. intros _. exists 0%nat. rewrite Nat.add_0_r. cbn.
      rewrite E. split; [lia|now eexists].
    + split; [intros [? [=]]|]. intros (k & Hk & Hm). cbn in Hk.
      replace k with 0%nat in Hm by lia. rewrite Nat.add_0_r in Hm. cbn in Hm.
      rewrite E in Hm. now destruct Hm.
  - destruct (Regex.match_here m pos (c :: s)) as [n|] eqn:E.
    + split; [|now eexists]. intros _. exists 0%nat. rewrite Nat.add_0_r. cbn [drop].
      rewrite E. split; [lia|now eexists].
    + rewrite IH. split.
      * intros (k & Hk & Hm). exists (S k). cbn [length drop].
        replace (pos + S k)%nat with (S pos + k)%nat by lia. split; [lia|exact Hm].
      * intros (k & Hk & Hm). destruct k as [|k].
        -- rewrite Nat.add_0_r in Hm. cbn in Hm. rewrite E in Hm. now destruct Hm.
        -- exists k. cbn [length drop] in *.
           replace (pos + S k)%nat with (S pos + k)%nat in Hm by lia.
           split; [lia|exact Hm].
Qed.

Lemma alternatives_match_is_Some (alts : list (list Regex.charclass)) (s : str) :
  is_Some (Regex.alternatives_match alts false s) <->
  exists cs, In cs alts /\ is_Some (Regex.classes_match cs s).
Proof.
  induction alts as [|cs alts IH]; cbn [Regex.alternatives_match negb orb].
  - split; [intros [? [=]]|intros (cs & [] & _)].
  - destruct (Regex.classes_match cs s) as [n|] eqn:E.
    + split; [|now eexists]. intros _. exists cs. split; [now left|]. rewrite E. now eexists.
    + rewrite IH. split.
      * intros (cs' & Hin & H). exists cs'. split; [now right|exact H].
      * intros (cs' & [<-|Hin] & H); [rewrite E in H; now destruct H|].
        exists cs'. now split.
Qed.

Lemma site_at (re s : str) (k : nat) :
  (k <= length s)%nat ->
  ((length re <= length (drop k s))%nat /\ instance_of re (take (length re) (drop k s)))
  <-> exists a w b, s = a ++ w ++ b /\ length a = k /\ instance_of re w.
Proof.
  intros Hk. split.
  - intros [Hlen Hi]. exists (take k s), (take (length re) (drop k s)),
      (drop (length re) (drop k s)).
    rewrite !take_drop. split; [reflexivity|]. split; [|exact Hi].
    rewrite length_take. lia.
  - intros (a & w & b & -> & <- & Hi).
    rewrite drop_app_length. pose proof (instance_of_length _ _ Hi) as Hw.
    rewrite length_app. split; [lia|].
    rewrite <- Hw, take_app_length. exact Hi.
Qed.

Lemma search_has_site (re : str) (given_only : bool) (ms : Regex.matcher)
    (s : str) :
  make_dna_re re given_only false = Some ms ->
  is_Some (Regex.search ms s) <-> has_site re given_only s.
Proof.
  unfold make_dna_re. intros H.
  destruct (expand_classes re) as [RE|] eqn:HRE; [|discriminate].
  cbn [mbind option_bind] in H.
  unfold Regex.search. rewrite search_from_is_Some. unfold has_site.
  destruct given_only; cbn [negb] in H.
  - injection H as <-. unfold Regex.match_here. cbn [Regex.anchored Regex.alternatives].
    split.
    + intros (k & Hk & Hm). apply alternatives_match_is_Some in Hm as (cs & [<-|[]] & Hm).
      apply (classes_match_instance _ _ _ HRE) in Hm.
      apply (site_at _ _ _ Hk) in Hm as (a & w & b & -> & _ & Hi).
      exists a, w, b. auto.
    + intros (a & w & b & -> & [Hi|[[=] _]]).
      exists (length a). split; [rewrite length_app; lia|].
      apply alternatives_match_is_Some. exists RE. split; [now left|].
      apply (classes_match_instance _ _ _ HRE), site_at; [rewrite length_app; lia|].
      exists a, w, b. auto.
  - destruct (expand_classes (get_rc re)) as [rc_RE|] eqn:Hrc; [|discriminate].
    cbn [mbind option_bind] in H. injection H as <-.
    unfold Regex.match_here. cbn [Regex.anchored Regex.alternatives].
    split.
    + intros (k & Hk & Hm).
      apply alternatives_match_is_Some in Hm as (cs & [<-|[<-|[]]] & Hm).
      * apply (classes_match_instance _ _ _ HRE) in Hm.
        apply (site_at _ _ _ Hk) in Hm as (a & w & b & -> & _ & Hi).
        exists a, w, b. auto.
      * apply (classes_match_instance _ _ _ Hrc) in Hm.
        apply (site_at _ _ _ Hk) in Hm as (a & w & b & -> & _ & Hi).
        exists a, w, b. auto.
    + intros (a & w & b & -> & Hi).
      exists (length a). split; [rewrite length_app; lia|].
      apply alternatives_match_is_Some. destruct Hi as [Hi|[_ Hi]].
      * exists RE. split; [now left|].
        apply (classes_match_instance _ _ _ HRE), site_at; [rewrite length_app; lia|].
        exists a, w, b. auto.
      * exists rc_RE. split; [right; now left|].
        apply (classes_match_instance _ _ _ Hrc), site_at; [rewrite length_app; lia|].
        exists a, w, b. auto.
Qed.

Lemma match_here_instance (re : str) (given_only : bool) (ms : Regex.matcher)
    (p : nat) (t : str) (n : nat) :
  make_dna_re re given_only false = Some ms ->
  Regex.match_here ms p t = Some n ->
  n = length re /\
  (instance_of re (take n t) \/ (given_only = false /\ instance_of (get_rc re) (take n t))).
Proof.
  unfold make_dna_re. intros H Hm.
  destruct (expand_classes re) as [RE|] eqn:HRE; [|discriminate].
  cbn [mbind option_bind] in H.
  apply match_here_In in Hm as (cs & Hin & Hm).
  pose proof (classes_match_length _ _ _ Hm) as [Hn _].
  destruct given_only; cbn [negb] in H.
  - injection H as <-. cbn [Regex.alternatives] in Hin. destruct Hin as [<-|[]].
    pose proof (expand_classes_spec _ _ HRE) as [Hlen _].
    split; [lia|]. left. rewrite Hn, Hlen.
    apply (classes_match_instance _ _ t HRE). rewrite Hm. now eexists.
  - destruct (expand_classes (get_rc re)) as [rc_RE|] eqn:Hrc; [|discriminate].
    cbn [mbind option_bind] in H. injection H as <-.
    cbn [Regex.alternatives] in Hin.
    pose proof (expand_classes_spec _ _ HRE) as [Hlen _].
    pose proof (expand_classes_spec _ _ Hrc) as [Hlen' _].
    rewrite get_rc_length in Hlen'.
    destruct Hin as [<-|[<-|[]]].
    + split; [lia|]. left. rewrite Hn, Hlen.
      apply (classes_match_instance _ _ t HRE). rewrite Hm. now eexists.
    + split; [lia|]. right. split; [reflexivity|]. rewrite Hn, Hlen'.
      rewrite <- (get_rc_length re).
      apply (classes_match_instance _ _ t Hrc). rewrite Hm. now eexists.
Qed.

(** X2: a sequence is matched by the matcher of an IUPAC pattern exactly
    when it has a substring that is an instance of the pattern or, when
    both strands are searched, of its reverse complement; and the match
    [search] reports is such a substring, of the width of the pattern. *)
Theorem search_finds_sites (re : str) (given_only : bool) (ms : Regex.matcher)
    (s : str) :
  make_dna_re re given_only false = Some ms ->
  (is_Some (Regex.search ms s) <-> has_site re given_only s) /\
  (forall b n, Regex.search ms s = Some (b, n) ->
     n = length re /\
     (instance_of re (take n (drop b s)) \/
      (given_only = false /\ instance_of (get_rc re) (take n (drop b s))))).
Proof.
  intros Hms. split; [now apply search_has_site|].
  intros b n H. unfold Regex.search in H. apply search_from_matches in H as [_ H].
  rewrite Nat.sub_0_r in H. exact (match_here_instance _ _ _ _ _ _ Hms H).
Qed.

Lemma search_finds_sites_witness :
  is_Some (Regex.search
             {| Regex.alternatives := [[lit "C"; lit "A"; lit "CT"]];
                Regex.anchored := false |} (lit "ACATGG"))
  <-> has_site (lit "CAY") true (lit "ACATGG").
Proof. apply (search_finds_sites (lit "CAY") true). reflexivity. Defined.

Lemma Forall2_rev_rev {A B} (P : A -> B -> Prop) (l : list A) (k : list B) :
  Forall2 P l k -> Forall2 P (rev l) (rev k).
Proof.
  induction 1 as [|x y l k Hxy _ IH]; cbn [rev]; [constructor|].
  apply Forall2_app; [exact IH|]. now repeat constructor.
Qed.

Lemma class_complement (L c : ascii) :
  is_iupac L = true ->
  (exists cls, Py.assoc _ambig_to_dna (default L (Py.assoc rc_table L)) = Some cls
               /\ In c cls) ->
  exists cls, Py.assoc _ambig_to_dna L = Some cls
              /\ In (default c (Py.assoc rc_table c)) cls.
Proof.
  intros H (cls & Hcls & Hin). apply is_iupac_cases in H. cbn in H.
  repeat (destruct H as [<-|H];
    [vm_compute in Hcls; injection Hcls as <-; eexists; split; [reflexivity|];
     cbn [In] in Hin;
     repeat (destruct Hin as [<-|Hin];
             [vm_compute; repeat first [left; reflexivity | right]|]);
     destruct Hin|]).
  destruct H.
Qed.

Lemma letter_matches_complement (re w : str) :
  iupac_pattern re ->
  Forall2 (fun L c => letter_matches (default L (Py.assoc rc_table L)) c) re w ->
  Forall2 (fun L c => letter_matches L (default c (Py.assoc rc_table c))) re w.
Proof.
  intros Hre H. induction H as [|L c re w HLc _ IH]; [constructor|].
  apply Forall_cons in Hre as [HL Hre].
  constructor; [|now apply IH]. now apply class_complement.
Qed.

Lemma instance_of_get_rc (re w : str) :
  iupac_pattern re -> instance_of (get_rc re) w -> instance_of re (get_rc w).
Proof.
  unfold instance_of, get_rc, translate. intros Hre H.
  apply Forall2_rev_rev in H. rewrite rev_involutive in H.
  rewrite <- map_rev.
  apply (proj1 (Forall2_fmap_l _ _ _ _)) in H. apply (proj2 (Forall2_fmap_r _ _ _ _)).
  apply (letter_matches_complement re (rev w) Hre). exact H.
Qed.

Lemma instance_of_get_rc_iff (re w : str) :
  iupac_pattern re -> bases_only w ->
  instance_of (get_rc re) w <-> instance_of re (get_rc w).
Proof.
  intros Hre Hw. split; [now apply instance_of_get_rc|].
  intros H.
  assert (Hw' : iupac_pattern w).
  { eapply Forall_impl; [exact Hw|]. intros c Hc. unfold is_iupac, all_letters.
    rewrite existsb_app. unfold is_base in Hc. now rewrite Hc. }
  rewrite <- (get_rc_involutive w Hw').
  apply instance_of_get_rc; [now apply get_rc_iupac|].
  now rewrite get_rc_involutive.
Qed.

Lemma instance_of_bases (re w : str) : instance_of re w -> bases_only w.
Proof.
  induction 1 as [|L c re w (cls & Hcls & Hin) _ IH]; constructor; [|exact IH].
  apply ambig_to_dna_bases in Hcls as [Hb _].
  unfold bases_only in Hb. rewrite Forall_forall in Hb. apply Hb.
  now apply list_elem_of_In.
Qed.

(** The sites of a pattern and of its reverse complement are the same
    when both strands are searched. *)
Lemma has_site_get_rc (re s : str) :
  iupac_pattern re -> has_site (get_rc re) false s <-> has_site re false s.
Proof.
  intros Hre. unfold has_site. rewrite (get_rc_involutive re Hre).
  split; intros (a & w & b & E & [H|[_ H]]); exists a, w, b; auto.
Qed.

Lemma count_matching_ext (m1 m2 : Regex.matcher) (seqs : list str) :
  (forall s, is_Some (Regex.search m1 s) <-> is_Some (Regex.search m2 s)) ->
  count_matching m1 seqs = count_matching m2 seqs.
Proof.
  intros H. unfold count_matching. do 2 f_equal.
  induction seqs as [|s seqs IH]; [reflexivity|].
  rewrite !filter_cons, IH.
  destruct (decide (is_Some (Regex.search m1 s))) as [H1|H1],
           (decide (is_Some (Regex.search m2 s))) as [H2|H2];
    try reflexivity; exfalso; [apply H2|apply H1]; now apply H.
Qed.

(** X3: counting the sequences that match on both strands gives the same
    numbers for an IUPAC pattern and for its reverse complement. *)
Theorem count_seqs_matching_strand_symmetric (re : str)
    (pos_seqs neg_seqs : list str) :
  iupac_pattern re ->
  count_seqs_matching_iupac_re (get_rc re) pos_seqs neg_seqs false
  = count_seqs_matching_iupac_re re pos_seqs neg_seqs false.
Proof.
  intros Hre. unfold count_seqs_matching_iupac_re.
  destruct (make_dna_re_total re false false Hre) as [ms Hms].
  destruct (make_dna_re_total (get_rc re) false false (get_rc_iupac _ Hre))
    as [ms' Hms'].
  rewrite Hms, Hms'. cbn [mbind option_bind].
  assert (H : forall s, is_Some (Regex.search ms' s) <-> is_Some (Regex.search ms s)).
  { intros s. rewrite (search_has_site _ _ _ s Hms), (search_has_site _ _ _ s Hms').
    now apply has_site_get_rc. }
  now rewrite !(count_matching_ext ms' ms _ H).
Qed.

Lemma count_seqs_matching_strand_symmetric_witness :
  count_seqs_matching_iupac_re (get_rc (lit "CAY")) [lit "ACATGG"; lit "TTTT"] [lit "GTGA"] false
  = count_seqs_matching_iupac_re (lit "CAY") [lit "ACATGG"; lit "TTTT"] [lit "GTGA"] false.
Proof.
  apply count_seqs_matching_strand_symmetric. repeat constructor.
Defined.

(** ** Erasure *)

Lemma alternatives_match_swap (a b : list Regex.charclass) (s : str) :
  length a = length b ->
  Regex.alternatives_match [a; b] false s = Regex.alternatives_match [b; a] false s.
Proof.
  intros Hab. cbn [Regex.alternatives_match negb orb].
  destruct (Regex.classes_match a s) as [n|] eqn:Ha,
           (Regex.classes_match b s) as [k|] eqn:Hb; try reflexivity.
  apply classes_match_length in Ha as [-> _], Hb as [-> _]. now rewrite Hab.
Qed.

Lemma sub_go_ext (m1 m2 : Regex.matcher) (r s : str) (p k : nat) (a : bool) :
  (forall p s, Regex.match_here m1 p s = Regex.match_here m2 p s) ->
  Regex.sub_go m1 r p k a s = Regex.sub_go m2 r p k a s.
Proof.
  intros H. revert p k a. induction s as [|c s IH]; intros p k a.
  - destruct k; cbn [Regex.sub_go]; [|reflexivity]. now rewrite H.
  - destruct k; cbn [Regex.sub_go]; [|apply IH].
    rewrite H. destruct (Regex.match_here m2 p (c :: s)) as [[|n]|];
      now rewrite ?IH.
Qed.

(** X4: erasing an IUPAC pattern and erasing its reverse complement give
    the same sequences. *)
Theorem erase_re_strand_symmetric (re : str) (pos_seqs neg_seqs : list str) :
  iupac_pattern re ->
  erase_re (get_rc re) pos_seqs neg_seqs = erase_re re pos_seqs neg_seqs.
Proof.
  intros Hre. unfold erase_re, n_run, make_dna_re. cbn [negb].
  rewrite (get_rc_involutive re Hre), get_rc_length.
  destruct (expand_classes_total re Hre) as [RE HRE].
  destruct (expand_classes_total _ (get_rc_iupac _ Hre)) as [rc_RE Hrc].
  rewrite HRE, Hrc. cbn [mbind option_bind].
  assert (Hlen : length rc_RE = length RE).
  { apply expand_classes_spec in HRE as [-> _], Hrc as [-> _]. apply get_rc_length. }
  assert (H : forall s,
    Regex.sub {| Regex.alternatives := [rc_RE; RE]; Regex.anchored := false |}
      (replicate (length re) "N"%char) s
    = Regex.sub {| Regex.alternatives := [RE; rc_RE]; Regex.anchored := false |}
      (replicate (length re) "N"%char) s).
  { intros s. apply sub_go_ext. intros p t. unfold Regex.match_here.
    cbn [Regex.anchored Regex.alternatives]. now apply alternatives_match_swap. }
  f_equal. f_equal; apply map_ext; intros s; apply H.
Qed.

Lemma erase_re_strand_symmetric_witness :
  erase_re (get_rc (lit "CAY")) [lit "ACATGG"] [lit "GTGA"]
  = erase_re (lit "CAY") [lit "ACATGG"] [lit "GTGA"].
Proof. apply erase_re_strand_symmetric. repeat constructor. Defined.

Lemma sub_shape (m : Regex.matcher) (w : nat) (s : str) :
  Regex.anchored m = false -> dna_matcher w m ->
  Forall2 masked s (Regex.sub m (run_of_N w) s).
Proof.
  intros Hm Hdna. destruct w as [|w]; [|now apply sub_masked].
  unfold Regex.sub, run_of_N. cbn [replicate]. rewrite sub_go_width_0 by exact Hdna.
  apply masked_refl.
Qed.

(** X5: [erase_re] keeps the shape of the data: as many sequences in each
    set as before, each of its old length, and every letter is either
    unchanged or overwritten by [N]. *)
Theorem erase_re_masks (re : str) (pos_seqs neg_seqs pos' neg' : list str) :
  erase_re re pos_seqs neg_seqs = Some (pos', neg') ->
  Forall2 (Forall2 masked) pos_seqs pos' /\ Forall2 (Forall2 masked) neg_seqs neg'.
Proof.
  unfold erase_re. intros H.
  destruct (make_dna_re re false false) as [ms|] eqn:Hms; [|discriminate].
  cbn [mbind option_bind] in H. injection H as <- <-.
  destruct (make_dna_re_spec _ _ _ _ Hms) as (Ha & Hdna & _).
  split; apply Forall2_fmap_r, Forall_Forall2_diag, Forall_forall; intros s _;
    now apply sub_shape.
Qed.

Lemma erase_re_masks_witness :
  Forall2 (Forall2 masked) [lit "ACATGG"] [lit "ANNNGG"] /\
  Forall2 (Forall2 masked) [lit "GTGA"] [lit "NNNA"].
Proof. apply (erase_re_masks (lit "CAY")). reflexivity. Defined.

Lemma sub_changes (m : Regex.matcher) (w : nat) (s : str) :
  Regex.anchored m = false -> dna_matcher (S w) m ->
  is_Some (Regex.search m s) -> Regex.sub m (run_of_N (S w)) s <> s.
Proof.
  intros Hm Hdna. unfold Regex.search. generalize 0%nat.
  induction s as [|c s IH]; intros p; cbn [Regex.search_from];
    rewrite match_here_unanchored by exact Hm.
  - destruct (Regex.alternatives_match (Regex.alternatives m) false []) as [n|] eqn:E.
    + intros _. destruct (sub_match _ _ (run_of_N (S w)) _ _ Hm Hdna E) as [_ Hle].
      cbn in Hle. lia.
    + now intros [? [=]].
  - destruct (Regex.alternatives_match (Regex.alternatives m) false (c :: s))
      as [n|] eqn:E.
    + intros _. destruct (sub_match _ _ (run_of_N (S w)) _ _ Hm Hdna E) as [-> _].
      cbn [run_of_N replicate app]. intros [= <- _].
      now rewrite (no_match_at_N _ _ _ Hdna) in E.
    + intros H. rewrite (sub_no_match _ _ _ _ Hm E). intros [= Hs].
      exact (IH _ H Hs).
Qed.

Lemma has_site_given (re s : str) (given_only : bool) :
  has_site re given_only s -> has_site re false s.
Proof.
  intros (a & w & b & E & [H|[_ H]]); exists a, w, b; auto.
Qed.

Lemma count_matching_0 (ms : Regex.matcher) (seqs : list str) :
  Forall (fun s => ~ is_Some (Regex.search ms s)) seqs -> count_matching ms seqs = 0.
Proof.
  unfold count_matching. induction 1 as [|s seqs Hs _ IH]; [reflexivity|].
  rewrite filter_cons. now destruct (decide (is_Some (Regex.search ms s))).
Qed.

(** X6: after a non-empty pattern has been erased, no sequence of either
    set matches it any more, on either strand: the counts of
    [count_seqs_matching_iupac_re] on the erased sets are both zero. *)
Theorem erase_re_leaves_no_match (re : str) (pos_seqs neg_seqs pos' neg' : list str)
    (given_only : bool) :
  re <> [] ->
  erase_re re pos_seqs neg_seqs = Some (pos', neg') ->
  count_seqs_matching_iupac_re re pos' neg' given_only = Some (0, 0).
Proof.
  intros Hne H. unfold erase_re in H.
  destruct (make_dna_re re false false) as [ms|] eqn:Hms; [|discriminate].
  cbn [mbind option_bind] in H. injection H as <- <-.
  destruct (make_dna_re_spec _ _ _ _ Hms) as (Ha & Hdna & _).
  assert (Hre : iupac_pattern re).
  { exact (make_dna_re_iupac _ _ _ _ Hms). }
  destruct (make_dna_re_total re given_only false Hre) as [mg Hmg].
  unfold count_seqs_matching_iupac_re. rewrite Hmg. cbn [mbind option_bind].
  destruct re as [|L re]; [easy|]. cbn [length] in Hdna.
  assert (Hno : forall seqs,
    Forall (fun s => ~ is_Some (Regex.search mg s))
      (map (Regex.sub ms (n_run (L :: re))) seqs)).
  { intros seqs. apply Forall_map, Forall_forall. intros s _ Hs.
    apply (search_has_site _ _ _ _ Hmg), has_site_given in Hs.
    apply (search_has_site _ _ _ _ Hms) in Hs.
    apply (sub_changes _ _ _ Ha Hdna) in Hs. apply Hs.
    exact (sub_idempotent ms (S (length re)) s Ha Hdna). }
  now rewrite !count_matching_0 by apply Hno.
Qed.

Lemma erase_re_leaves_no_match_witness :
  count_seqs_matching_iupac_re (lit "CAY") [lit "ANNNGG"] [lit "NNNA"] true
  = Some (0, 0).
Proof. apply (erase_re_leaves_no_match (lit "CAY") [lit "ACATGG"] [lit "GTGA"]); easy. Defined.

Lemma has_site_whole (re m : str) :
  length m = length re -> has_site re true m -> instance_of re m.
Proof.
  intros Hlen (a & w & b & -> & [H|[[=] _]]).
  pose proof (instance_of_length _ _ H) as Hw.
  rewrite !length_app in Hlen.
  destruct a; [|cbn in Hlen; lia]. destruct b; [|cbn in Hlen; lia].
  cbn. now rewrite app_nil_r.
Qed.

(** X7: every string of the alignment of a pattern is an instance of the
    pattern on the given strand: it has the pattern's width and, letter
    by letter, a base the pattern's letter stands for; a match on the
    other strand enters the alignment reverse-complemented. *)
Theorem get_alignment_from_re_instances (re : str) (seqs : list str)
    (given_only : bool) (aln : list str) :
  get_alignment_from_re re seqs given_only = Some aln ->
  Forall (instance_of re) aln.
Proof.
  unfold get_alignment_from_re. intros H.
  destruct (make_dna_re re given_only false) as [m_both|] eqn:Hboth; [|discriminate].
  cbn [mbind option_bind] in H.
  destruct (make_dna_re re true false) as [m_given|] eqn:Hgiven; [|discriminate].
  cbn [mbind option_bind] in H. injection H as <-.
  assert (Hre : iupac_pattern re).
  { exact (make_dna_re_iupac _ _ _ _ Hgiven). }
  apply Forall_forall. intros x Hx. apply list_elem_of_In in Hx.
  apply in_flat_map in Hx as (seqstr & _ & Hx).
  apply in_map_iff in Hx as (m & <- & Hm).
  unfold Regex.findall in Hm. apply in_map_iff in Hm as ([b n] & <- & Hin).
  apply finditer_go_matches in Hin as [_ Hin]. rewrite Nat.sub_0_r in Hin.
  destruct (match_here_instance _ _ _ _ _ _ Hboth Hin) as [Hn Hi].
  set (m := take n (drop b seqstr)) in *.
  assert (Hlen : length m = length re).
  { destruct Hi as [Hi|[_ Hi]]; apply instance_of_length in Hi;
      [|rewrite get_rc_length in Hi]; exact Hi. }
  destruct (Regex.search m_given m) as [r|] eqn:Hs.
  - apply has_site_whole; [exact Hlen|].
    apply (search_has_site _ _ _ _ Hgiven). rewrite Hs. now eexists.
  - destruct Hi as [Hi|[_ Hi]]; [|now apply instance_of_get_rc].
    assert (is_Some (Regex.search m_given m)) as [? Hc]; [|congruence].
    apply (search_has_site _ _ _ _ Hgiven). exists [], m, []. rewrite app_nil_r.
    auto.
Qed.

Lemma get_alignment_from_re_instances_witness :
  Forall (instance_of (lit "CAY")) [lit "CAT"; lit "CAC"].
Proof.
  apply (get_alignment_from_re_instances (lit "CAY") [lit "ACATGG"; lit "GTGA"] false).
  reflexivity.
Defined.

Lemma generalises_instance (re re' w : str) :
  generalises re re' -> instance_of re w -> instance_of re' w.
Proof.
  unfold generalises, instance_of. intros H. revert w.
  induction H as [|L L' re re' HL _ IH]; intros w Hw.
  - apply Forall2_nil_inv_l in Hw as ->. constructor.
  - apply Forall2_cons_inv_l in Hw as (c & w' & Hc & Hw & ->).
    constructor; [now apply HL|now apply IH].
Qed.

Lemma generalises_site (re re' : str) (given_only : bool) (s : str) :
  iupac_pattern re -> iupac_pattern re' -> generalises re re' ->
  has_site re given_only s -> has_site re' given_only s.
Proof.
  intros Hre Hre' Hg (a & w & b & -> & H). exists a, w, b. split; [reflexivity|].
  destruct H as [H|[-> H]]; [left; now apply (generalises_instance re)|].
  right. split; [reflexivity|].
  apply instance_of_get_rc_iff; [exact Hre'|now apply instance_of_bases in H|].
  apply (generalises_instance re); [exact Hg|]. now apply instance_of_get_rc.
Qed.

Lemma count_matching_mono (m1 m2 : Regex.matcher) (seqs : list str) :
  (forall s, is_Some (Regex.search m1 s) -> is_Some (Regex.search m2 s)) ->
  count_matching m1 seqs <= count_matching m2 seqs.
Proof.
  intros H. unfold count_matching. apply inj_le.
  induction seqs as [|s seqs IH]; [reflexivity|].
  rewrite !filter_cons.
  destruct (decide (is_Some (Regex.search m1 s))) as [H1|H1],
           (decide (is_Some (Regex.search m2 s))) as [H2|H2]; cbn [length];
    try lia. exfalso. apply H2. now apply H.
Qed.

(** X8: a pattern that generalises another one, letter by letter, matches
    every sequence the other one matches: its counts in both sets are at
    least the other one's. *)
Theorem count_seqs_matching_monotone (re re' : str) (pos_seqs neg_seqs : list str)
    (given_only : bool) (p n p' n' : Z) :
  generalises re re' ->
  count_seqs_matching_iupac_re re pos_seqs neg_seqs given_only = Some (p, n) ->
  count_seqs_matching_iupac_re re' pos_seqs neg_seqs given_only = Some (p', n') ->
  p <= p' /\ n <= n'.
Proof.
  unfold count_seqs_matching_iupac_re. intros Hg H H'.
  destruct (make_dna_re re given_only false) as [ms|] eqn:Hms; [|discriminate].
  destruct (make_dna_re re' given_only false) as [ms'|] eqn:Hms'; [|discriminate].
  cbn [mbind option_bind] in H, H'. injection H as <- <-. injection H' as <- <-.
  assert (Hre : iupac_pattern re).
  { exact (make_dna_re_iupac _ _ _ _ Hms). }
  assert (Hre' : iupac_pattern re').
  { exact (make_dna_re_iupac _ _ _ _ Hms'). }
  assert (Hs : forall s, is_Some (Regex.search ms s) -> is_Some (Regex.search ms' s)).
  { intros s Hs. apply (search_has_site _ _ _ _ Hms').
    apply (generalises_site re); try assumption.
    now apply (search_has_site _ _ _ _ Hms). }
  split; now apply count_matching_mono.
Qed.

Lemma letter_matches_N (L c : ascii) :
  letter_matches L c -> letter_matches "N" c.
Proof.
  intros (cls & Hcls & Hin). apply ambig_to_dna_bases in Hcls as [Hb _].
  unfold bases_only in Hb. rewrite Forall_forall in Hb.
  apply list_elem_of_In, Hb in Hin. exists (lit "ACGT"). split; [reflexivity|].
  unfold is_base in Hin. apply existsb_exists in Hin as (x & Hx & E).
  apply Ascii.eqb_eq in E. now subst.
Qed.

Lemma count_seqs_matching_monotone_witness :
  (1 <= 2 /\ 0 <= 1)%Z.
Proof.
  apply (count_seqs_matching_monotone (lit "CAT") (lit "CAN")
           [lit "ACATGG"; lit "CCAG"] [lit "CACA"] true).
  - repeat constructor; try (intros c H; exact H). apply letter_matches_N.
  - reflexivity.
  - reflexivity.
Defined.

(** ** The census counts sequences *)

Lemma range_In (lo hi i : Z) : In i (Py.range lo hi) <-> lo <= i < hi.
Proof.
  unfold Py.range. rewrite in_map_iff. split.
  - intros (k & <- & Hk). apply in_seq in Hk. lia.
  - intros H. exists (Z.to_nat (i - lo)). split; [lia|]. apply in_seq. lia.
Qed.

Lemma slice_word (s : str) (i w : Z) :
  0 <= i -> 0 <= w -> i + w <= Py.len s ->
  Py.slice s i (i + w) = take (Z.to_nat w) (drop (Z.to_nat i) s).
Proof.
  unfold Py.slice, Py.clip, Py.len. intros Hi Hw Hle.
  destruct (Z.ltb_spec i 0); [lia|]. destruct (Z.ltb_spec (i + w) 0); [lia|].
  f_equal; [lia|f_equal; lia].
Qed.

Lemma census_key_length (given_only : bool) (word : str) :
  length (census_key given_only word) = length word.
Proof.
  unfold census_key, canonical. destruct given_only; [reflexivity|].
  destruct (py_min_cases word (get_rc word)) as [->| ->]; [reflexivity|].
  apply get_rc_length.
Qed.

Lemma update_key (d : Census.table) (word : str) (seq_no : Z) (given_only : bool) :
  Census.update_seqs_with_words d word seq_no given_only
  = let key := census_key given_only word in
    match d !! key with
    | Some (count, last) =>
        if last <? seq_no then <[key := (count + 1, seq_no)]> d else d
    | None => <[key := (1, seq_no)]> d
    end.
Proof. unfold Census.update_seqs_with_words, census_key, canonical. now destruct given_only. Qed.

Lemma update_other (d : Census.table) (word key : str) (seq_no : Z)
    (given_only : bool) :
  census_key given_only word <> key ->
  Census.update_seqs_with_words d word seq_no given_only !! key = d !! key.
Proof.
  intros Hne. rewrite update_key. cbn zeta.
  destruct (d !! census_key given_only word) as [[c l]|].
  - destruct (l <? seq_no); [|reflexivity]. now rewrite lookup_insert_ne.
  - now rewrite lookup_insert_ne.
Qed.

Lemma count_in_seq_key (d : Census.table) (w seq_no : Z) (s : str)
    (given_only : bool) (key : str) :
  (forall c l, d !! key = Some (c, l) -> l < seq_no) ->
  touched (existsb (hit given_only key w s) (Py.range 0 (Py.len s - w + 1)))
    d (Census.count_in_seq d w seq_no s given_only) key seq_no.
Proof.
  intros Hpre. unfold Census.count_in_seq.
  change (existsb (hit given_only key w s) (Py.range 0 (Py.len s - w + 1)))
    with (false || existsb (hit given_only key w s) (Py.range 0 (Py.len s - w + 1))).
  assert (H0 : touched false d d key seq_no) by reflexivity.
  revert H0. generalize false. generalize d at 2 4.
  induction (Py.range 0 (Py.len s - w + 1)) as [|i l IH]; intros d' b Hb;
    cbn [fold_left existsb].
  - now rewrite orb_false_r.
  - rewrite orb_assoc. apply IH. unfold hit at 1. cbn zeta.
    destruct (Census.has_ambiguous (Py.slice s i (i + w))); cbn [negb andb].
    { now rewrite orb_false_r. }
    destruct (bool_decide_reflect
                (census_key given_only (Py.slice s i (i + w)) = key)) as [Hk|Hk].
    + rewrite orb_true_r. rewrite update_key, Hk. cbn zeta. unfold touched in *.
      destruct b.
      * rewrite Hb. destruct (Z.ltb_spec seq_no seq_no); [lia|exact Hb].
      * rewrite Hb. unfold seq_count. destruct (d !! key) as [[c l']|] eqn:Hd.
        -- specialize (Hpre _ _ eq_refl).
           destruct (Z.ltb_spec l' seq_no); [|lia]. now rewrite lookup_insert_eq.
        -- now rewrite lookup_insert_eq.
    + rewrite orb_false_r. unfold touched in *.
      destruct b; rewrite update_other by exact Hk; exact Hb.
Qed.

Lemma count_in_seqs_key (seqs : list str) (d : Census.table) (w seq_no0 : Z)
    (given_only : bool) (key : str) :
  let hits := filter (fun s => existsb (hit given_only key w s)
                                 (Py.range 0 (Py.len s - w + 1)) = true) seqs in
  let d' := Census.count_in_seqs d w seq_no0 seqs given_only in
  (forall c l, d !! key = Some (c, l) -> l <= seq_no0) ->
  seq_count d' key = seq_count d key + Z.of_nat (length hits) /\
  (hits = [] -> d' !! key = d !! key).
Proof.
  cbn zeta. revert d seq_no0. induction seqs as [|s seqs IH]; intros d seq_no0 Hpre.
  - cbn. split; [lia|reflexivity].
  - cbn [Census.count_in_seqs]. cbn zeta. rewrite filter_cons.
    pose proof (count_in_seq_key d w (seq_no0 + 1) s given_only key) as Ht.
    destruct (decide (existsb (hit given_only key w s)
                        (Py.range 0 (Py.len s - w + 1)) = true)) as [E|E].
    + rewrite E in Ht. unfold touched in Ht.
      specialize (Ht ltac:(intros c l Hc; specialize (Hpre _ _ Hc); lia)).
      destruct (IH (Census.count_in_seq d w (seq_no0 + 1) s given_only) (seq_no0 + 1))
        as [-> _].
      { intros c l. rewrite Ht. intros [= _ <-]. lia. }
      assert (Hsc : seq_count (Census.count_in_seq d w (seq_no0 + 1) s given_only) key
                    = seq_count d key + 1).
      { unfold seq_count at 1. now rewrite Ht. }
      rewrite Hsc. cbn [length]. split; [lia|easy].
    + apply not_true_is_false in E. rewrite E in Ht. unfold touched in Ht.
      specialize (Ht ltac:(intros c l Hc; specialize (Hpre _ _ Hc); lia)).
      destruct (IH (Census.count_in_seq d w (seq_no0 + 1) s given_only) (seq_no0 + 1))
        as [-> Hnil].
      { intros c l. rewrite Ht. intros Hc. specialize (Hpre _ _ Hc). lia. }
      assert (Hsc : seq_count (Census.count_in_seq d w (seq_no0 + 1) s given_only) key
                    = seq_count d key).
      { unfold seq_count. now rewrite Ht. }
      rewrite Hsc. split; [reflexivity|].
      intros Hh. now rewrite Hnil, Ht.
Qed.

Lemma hit_length (given_only : bool) (key : str) (w : Z) (s : str) (i : Z) :
  0 <= w -> In i (Py.range 0 (Py.len s - w + 1)) ->
  hit given_only key w s i = true -> Py.len key = w.
Proof.
  intros Hw Hi H. apply range_In in Hi. unfold hit in H. cbn zeta in H.
  apply andb_true_iff in H as [_ H]. apply bool_decide_eq_true in H.
  rewrite <- H. unfold Py.len. rewrite census_key_length.
  rewrite slice_word by (unfold Py.len in *; lia).
  rewrite length_take, length_drop. unfold Py.len in Hi. lia.
Qed.

Lemma count_in_seq_other (l : list Z) (d : Census.table) (w seq_no : Z) (s : str)
    (given_only : bool) (key : str) :
  0 <= w -> Py.len key <> w ->
  Forall (fun i => In i (Py.range 0 (Py.len s - w + 1))) l ->
  fold_left
    (fun d i =>
       let word := Py.slice s i (i + w) in
       if Census.has_ambiguous word then d
       else Census.update_seqs_with_words d word seq_no given_only) l d !! key
  = d !! key.
Proof.
  intros Hw Hne Hall. revert d. induction Hall as [|i l Hi _ IH]; intros d;
    cbn [fold_left]; [reflexivity|]. rewrite IH.
  destruct (Census.has_ambiguous _) eqn:Ha; [reflexivity|].
  apply update_other. intros Hk. apply Hne.
  apply (hit_length given_only key w s i Hw Hi). unfold hit. cbn zeta.
  rewrite Ha. cbn. now apply bool_decide_eq_true.
Qed.

Lemma count_in_seqs_other (seqs : list str) (d : Census.table) (w seq_no0 : Z)
    (given_only : bool) (key : str) :
  0 <= w -> Py.len key <> w ->
  Census.count_in_seqs d w seq_no0 seqs given_only !! key = d !! key.
Proof.
  intros Hw Hne. revert d seq_no0. induction seqs as [|s seqs IH]; intros d seq_no0;
    cbn [Census.count_in_seqs]; [reflexivity|]. cbn zeta. rewrite IH.
  unfold Census.count_in_seq. apply count_in_seq_other; [exact Hw|exact Hne|].
  apply Forall_forall. intros i Hi. now apply list_elem_of_In.
Qed.

Lemma widths_other (seqs : list str) (given_only : bool) (key : str)
    (ws : list Z) (d : Census.table) :
  Forall (fun w => 0 <= w /\ Py.len key <> w) ws ->
  fold_left (fun d w => Census.count_in_seqs d w 0 seqs given_only) ws d !! key
  = d !! key.
Proof.
  intros H. revert d. induction H as [|w ws [Hw Hne] _ IH]; intros d; cbn [fold_left];
    [reflexivity|]. rewrite IH. now apply count_in_seqs_other.
Qed.

Lemma range_split (lo hi w : Z) :
  lo <= w < hi -> Py.range lo hi = Py.range lo w ++ w :: Py.range (w + 1) hi.
Proof.
  intros H. unfold Py.range.
  replace (Z.to_nat (hi - lo)) with (Z.to_nat (w - lo) + S (Z.to_nat (hi - (w + 1))))%nat
    by lia.
  rewrite seq_app, map_app. f_equal. cbn [seq map]. f_equal; [lia|].
  replace (S (0 + Z.to_nat (w - lo))) with (S (Z.to_nat (w - lo)) + 0)%nat by lia.
  rewrite <- fmap_add_seq.
  change (map ?f (?g <$> ?l)) with (map f (map g l)). rewrite map_map.
  apply map_ext. intros k. lia.
Qed.

Lemma existsb_hit_occurs (given_only : bool) (key s : str) :
  existsb (hit given_only key (Py.len key) s)
    (Py.range 0 (Py.len s - Py.len key + 1)) = true
  <-> occurs given_only key s.
Proof.
  rewrite existsb_exists. split.
  - intros (i & Hi & H). apply range_In in Hi. unfold hit in H. cbn zeta in H.
    apply andb_true_iff in H as [Ha H]. apply bool_decide_eq_true in H.
    apply negb_true_iff in Ha.
    rewrite slice_word in Ha, H by (unfold Py.len in *; lia).
    exists (take (Z.to_nat i) s),
      (take (Z.to_nat (Py.len key)) (drop (Z.to_nat i) s)),
      (drop (Z.to_nat (Py.len key)) (drop (Z.to_nat i) s)).
    now rewrite !take_drop.
  - intros (a & word & b & -> & Ha & Hk).
    assert (Hlen : length key = length word).
    { rewrite <- Hk. apply census_key_length. }
    exists (Py.len a). split.
    + apply range_In. unfold Py.len. rewrite !length_app. lia.
    + unfold hit. cbn zeta.
      rewrite slice_word by (unfold Py.len; rewrite ?length_app; lia).
      unfold Py.len. rewrite !Nat2Z.id, drop_app_length, Hlen, take_app_length.
      rewrite Ha. cbn. now apply bool_decide_eq_true.
Qed.

Lemma number_with_filter (P : str -> Prop) (f : str -> bool) (seqs : list str) :
  (forall s, f s = true <-> P s) ->
  number_with P seqs (Z.of_nat (length (filter (fun s => f s = true) seqs))).
Proof.
  intros H. induction seqs as [|s seqs IH]; [constructor|].
  rewrite filter_cons. destruct (decide (f s = true)) as [E|E].
  - cbn [length]. rewrite Nat2Z.inj_succ, <- Z.add_1_r.
    constructor; [now apply H|exact IH].
  - constructor; [|exact IH]. intros HP. now apply E, H.
Qed.

Lemma census_key_in_range (seqs : list str) (minw maxw : Z) (given_only : bool)
    (key : str) :
  0 <= minw -> minw <= Py.len key <= maxw ->
  number_with (occurs given_only key) seqs
    (seq_count (Census.count_seqs_with_words seqs minw maxw given_only) key).
Proof.
  intros Hmin Hin. unfold Census.count_seqs_with_words.
  rewrite (range_split minw (maxw + 1) (Py.len key)) by lia.
  rewrite fold_left_app. cbn [fold_left].
  set (d1 := fold_left _ (Py.range minw (Py.len key)) ∅).
  assert (Hd1 : d1 !! key = None).
  { unfold d1. rewrite widths_other; [apply lookup_empty|].
    apply Forall_forall. intros w Hw. apply list_elem_of_In, range_In in Hw. lia. }
  unfold seq_count. rewrite widths_other.
  2:{ apply Forall_forall. intros w Hw. apply list_elem_of_In, range_In in Hw. lia. }
  destruct (count_in_seqs_key seqs d1 (Py.len key) 0 given_only key) as [Hc _].
  { intros c l. now rewrite Hd1. }
  unfold seq_count in Hc. rewrite Hd1 in Hc. cbn [Z.add] in Hc. rewrite Hc.
  apply (number_with_filter _
           (fun s => existsb (hit given_only key (Py.len key) s)
                       (Py.range 0 (Py.len s - Py.len key + 1)))).
  intros s. apply existsb_hit_occurs.
Qed.

Lemma census_key_out_of_range (seqs : list str) (minw maxw : Z) (given_only : bool)
    (key : str) :
  0 <= minw -> ~ minw <= Py.len key <= maxw ->
  Census.count_seqs_with_words seqs minw maxw given_only !! key = None.
Proof.
  intros Hmin Hout. unfold Census.count_seqs_with_words.
  rewrite widths_other; [apply lookup_empty|].
  apply Forall_forall. intros w Hw. apply list_elem_of_In, range_In in Hw. lia.
Qed.

(** X9: for widths from [minw >= 0], the count the census records under
    a key whose length is in [minw..maxw] is the number of sequences that
    contain a word without [N] counted under that key, each sequence
    counted once however often and on whichever strand the word occurs;
    a key of any other length has no entry. *)
Theorem census_counts_sequences (seqs : list str) (minw maxw : Z)
    (given_only : bool) (key : str) :
  0 <= minw ->
  let d := Census.count_seqs_with_words seqs minw maxw given_only in
  (minw <= Py.len key <= maxw ->
   number_with (occurs given_only key) seqs (seq_count d key)) /\
  (~ minw <= Py.len key <= maxw -> d !! key = None).
Proof.
  intros Hmin. cbn zeta. split.
  - now apply census_key_in_range.
  - now apply census_key_out_of_range.
Qed.

Lemma census_counts_sequences_witness :
  number_with (occurs false (lit "AC")) [lit "ACGTACGT"; lit "TTNT"; lit "GGTG"]
    (seq_count (Census.count_seqs_with_words
                  [lit "ACGTACGT"; lit "TTNT"; lit "GGTG"] 2 3 false) (lit "AC")).
Proof.
  apply (census_counts_sequences [lit "ACGTACGT"; lit "TTNT"; lit "GGTG"] 2 3 false
           (lit "AC")); vm_compute; intuition discriminate.
Defined.

Lemma number_with_bounds (P : str -> Prop) (seqs : list str) (n : Z) :
  number_with P seqs n -> 0 <= n <= Z.of_nat (length seqs) /\ (0 < n <-> Exists P seqs).
Proof.
  induction 1 as [|s seqs n Hs _ [IH1 IH2]|s seqs n Hs _ [IH1 IH2]]; cbn [length].
  - split; [lia|]. split; [lia|]. intros H. apply Exists_nil in H. destruct H.
  - split; [lia|]. split; [|lia]. intros _. now apply Exists_cons_hd.
  - split; [lia|]. rewrite IH2. split; [now apply Exists_cons_tl|].
    intros H. apply Exists_cons in H as [H|H]; [easy|exact H].
Qed.

Lemma census_entry_count (seqs : list str) (minw maxw : Z) (given_only : bool)
    (key : str) :
  let d := Census.count_seqs_with_words seqs minw maxw given_only in
  is_Some (d !! key) <-> 0 < seq_count d key.
Proof.
  cbn zeta. unfold seq_count.
  destruct (Census.count_seqs_with_words seqs minw maxw given_only !! key)
    as [[c l]|] eqn:E.
  - destruct (count_seqs_with_words_inv _ _ _ _ _ _ _ E) as [Hc _].
    split; [lia|]. intros _. now eexists.
  - split; [intros [? [=]]|lia].
Qed.

Section WordRecordsProperties.
Context {num : Type}.
Variable num0 : num.
Variable log_getFETprob : Z -> Z -> Z -> Z -> num.

Lemma apply_fisher_test_lookup (pc nc : Census.table) (P N : Z) (word : str) :
  apply_fisher_test num0 log_getFETprob pc nc P N !! word
  = match pc !! word with
    | Some v =>
        Some (mk_record v.1 P (seq_count nc word) N
                (getLogPvalue num0 log_getFETprob v.1 P (seq_count nc word) N) None)
    | None => None
    end.
Proof.
  unfold apply_fisher_test. rewrite map_lookup_imap.
  destruct (pc !! word) as [[p l]|]; [|reflexivity]. cbn.
  unfold seq_count. now destruct (nc !! word) as [[n l']|].
Qed.

(** X10: the records [apply_fisher_test] makes from the census of the two
    sets, for widths from [minw >= 0] (a negative [minw], which [main]
    lets through, makes the census count slices that are not words): a
    word of a width in [minw..maxw] has a record exactly when some
    positive sequence contains it, however many negative sequences do;
    the record counts the positive and the negative sequences that
    contain the word, over the sizes of the two sets, with the log
    p-value of these four numbers, and has five items. *)
Theorem word_records (pos_seqs neg_seqs : list str) (minw maxw : Z)
    (given_only : bool) (word : str) :
  0 <= minw ->
  let P := Z.of_nat (length pos_seqs) in
  let N := Z.of_nat (length neg_seqs) in
  let T := apply_fisher_test num0 log_getFETprob
             (Census.count_seqs_with_words pos_seqs minw maxw given_only)
             (Census.count_seqs_with_words neg_seqs minw maxw given_only) P N in
  (is_Some (T !! word) <->
   minw <= Py.len word <= maxw /\ Exists (occurs given_only word) pos_seqs) /\
  (forall r, T !! word = Some r ->
     number_with (occurs given_only word) pos_seqs (r_p r) /\
     number_with (occurs given_only word) neg_seqs (r_n r) /\
     r_P r = P /\ r_N r = N /\ 0 < r_p r <= P /\ 0 <= r_n r <= N /\
     r_logp r = getLogPvalue num0 log_getFETprob (r_p r) P (r_n r) N /\
     get_type r = lit "RE").
Proof.
  intros Hmin. cbn zeta.
  pose proof (census_key_in_range pos_seqs minw maxw given_only word Hmin) as Hpin.
  pose proof (census_key_out_of_range pos_seqs minw maxw given_only word Hmin) as Hpout.
  pose proof (census_key_in_range neg_seqs minw maxw given_only word Hmin) as Hnin.
  pose proof (census_entry_count pos_seqs minw maxw given_only word) as Hentry.
  cbn zeta in *. rewrite apply_fisher_test_lookup.
  set (pc := Census.count_seqs_with_words pos_seqs minw maxw given_only) in *.
  set (nc := Census.count_seqs_with_words neg_seqs minw maxw given_only) in *.
  destruct (decide (minw <= Py.len word <= maxw)) as [Hin|Hout].
  - specialize (Hpin Hin). specialize (Hnin Hin).
    destruct (number_with_bounds _ _ _ Hpin) as [Hpb Hpe].
    destruct (number_with_bounds _ _ _ Hnin) as [Hnb _].
    split.
    + rewrite <- Hpe, <- Hentry. split.
      * intros Hs. split; [exact Hin|].
        destruct (pc !! word); [now eexists|destruct Hs as [? [=]]].
      * intros [_ Hs]. destruct (pc !! word); [now eexists|destruct Hs as [? [=]]].
    + intros r Hr. destruct (pc !! word) as [[p l]|] eqn:E; [|discriminate].
      injection Hr as <-. cbn [r_p r_P r_n r_N r_logp r_dist fst].
      assert (Hp : seq_count pc word = p) by (unfold seq_count; now rewrite E).
      rewrite Hp in *.
      assert (0 < p) by (apply Hentry; now eexists).
      repeat split; try assumption; lia.
  - rewrite (Hpout Hout). split; [|intros r [=]].
    split; [intros [? [=]]|intros [Hin _]; contradiction].
Qed.

End WordRecordsProperties.

Lemma word_records_witness :
  is_Some (apply_fisher_test 0 (fun a b c d => a - d)
             (Census.count_seqs_with_words [lit "ACGTACGT"; lit "TTNT"] 2 3 false)
             (Census.count_seqs_with_words [lit "GGAC"] 2 3 false) 2 1 !! lit "AC")
  <-> 2 <= Py.len (lit "AC") <= 3 /\
      Exists (occurs false (lit "AC")) [lit "ACGTACGT"; lit "TTNT"].
Proof.
  exact (proj1 (word_records 0 (fun a b c d => a - d) [lit "ACGTACGT"; lit "TTNT"]
                  [lit "GGAC"] 2 3 false (lit "AC") ltac:(lia))).
Defined.

(** ** Estimated counts stay within the totals *)

(** X11: the estimate [int(round((c1 + c2) - float(c1*c2)/T))] of the
    size of a union of two sets of [c1] and [c2] out of [T] sequences,
    as computed in double precision: for a total [0 < T <= 2^25] and
    counts within the total it raises no error and lies between the larger
    of the two counts and the smaller of [T] and [c1 + c2]: an estimated
    count never exceeds the number of sequences. *)
Theorem union_estimate_bounds (c1 c2 T : Z) :
  0 < T <= 2 ^ 25 -> 0 <= c1 <= T -> 0 <= c2 <= T ->
  exists c, union_estimate c1 c2 T = Some c /\
            Z.max c1 c2 <= c <= Z.min T (c1 + c2).
Proof.
  intros HT H1 H2. exists (spec_union_estimate c1 c2 T). split.
  - now apply union_estimate_exact.
  - destruct (union_value_between c1 c2 T ltac:(lia) H1 H2) as [Hlo Hhi].
    unfold spec_union_estimate. apply py_round_between; [lia|exact Hlo|exact Hhi].
Qed.

Lemma union_estimate_bounds_witness :
  exists c, union_estimate 3 4 10 = Some c /\ Z.max 3 4 <= c <= Z.min 10 (3 + 4).
Proof. apply union_estimate_bounds; lia. Defined.

Section GeneralizerRecords.
Context {num : Type}.
Variable num0 : num.
Variable num_lt : num -> num -> bool.
Variable log_getFETprob : Z -> Z -> Z -> Z -> num.
Variable c_counts_keys : gmap ascii (Z * Z) -> list ascii.

Local Abbreviation counts_ok P N :=
  (fun c : gmap ascii (Z * Z) =>
     forall k p n, c !! k = Some (p, n) -> 0 <= p <= P /\ 0 <= n <= N).

Lemma base_counts_ok (P N : Z) (re : str) (re_pvalues : gmap str (pvalue_record num))
    (alph : str) (thresh : num) (given_only : bool) (i : nat) :
  records_ok P N re_pvalues ->
  counts_ok P N (base_counts num_lt re re_pvalues alph thresh given_only i).
Proof.
  intros HT. unfold base_counts. apply fold_left_preserves.
  - intros c k Hc. cbn zeta.
    destruct (re_pvalues !! _) as [r|] eqn:Hr; [|exact Hc].
    destruct (num_lt _ _); [|exact Hc].
    intros k' p n. destruct (decide (k = k')) as [<-|Hne].
    + rewrite lookup_insert_eq. intros [= <- <-].
      destruct (HT _ _ Hr) as (_ & _ & Hp & Hn & _). now split.
    + rewrite lookup_insert_ne by exact Hne. apply Hc.
  - intros k p n. now rewrite lookup_empty.
Qed.

Lemma combine_ambigs_ok (P N : Z) (ambigs : str) (mappings : list (ascii * str))
    (c0 c : gmap ascii (Z * Z)) :
  P <= 2 ^ 25 -> N <= 2 ^ 25 ->
  counts_ok P N c0 ->
  combine_ambigs P N ambigs mappings c0 = Some c -> counts_ok P N c.
Proof.
  unfold combine_ambigs. intros HP HN H0 H. revert H H0.
  apply (fold_opt_ind _ (fun _ c0 c => counts_ok P N c0 -> counts_ok P N c)).
  - auto.
  - clear c0 c. intros c0 a c1 l c Hstep IH H0. apply IH. clear IH.
    destruct (Py.assoc mappings a) as [pair|]; [|easy]. cbn in Hstep.
    destruct (pair !! 0%nat) as [k1|]; [|easy]. cbn in Hstep.
    destruct (c0 !! k1) as [[p1 n1]|] eqn:E1; [|now injection Hstep as <-].
    destruct (pair !! 1%nat) as [k2|]; [|easy]. cbn in Hstep.
    destruct (c0 !! k2) as [[p2 n2]|] eqn:E2; [|now injection Hstep as <-].
    destruct (union_estimate p1 p2 P) as [p|] eqn:Ep; [|easy]. cbn in Hstep.
    destruct (union_estimate n1 n2 N) as [n|] eqn:En; [|easy]. cbn in Hstep.
    injection Hstep as <-.
    destruct (H0 _ _ _ E1) as [Hp1 Hn1]. destruct (H0 _ _ _ E2) as [Hp2 Hn2].
    intros k p' n'. destruct (decide (a = k)) as [<-|Hne].
    + rewrite lookup_insert_eq. intros [= <- <-]. split.
      * eapply union_estimate_within; [| | |exact Ep]; assumption.
      * eapply union_estimate_within; [| | |exact En]; assumption.
    + rewrite lookup_insert_ne by exact Hne. apply H0.
Qed.

Lemma store_generalized_ok (P N : Z) (re alph : str) (given_only : bool) (i : nat)
    (c_counts : gmap ascii (Z * Z)) (acc : gmap str (pvalue_record num)) :
  counts_ok P N c_counts -> records_ok P N acc ->
  records_ok P N
    (store_generalized num0 log_getFETprob c_counts_keys re alph given_only P N i
       c_counts acc).
Proof.
  intros Hc. unfold store_generalized. apply fold_left_preserves.
  intros T k HT. destruct (has_key alph k); [exact HT|].
  destruct (c_counts !! k) as [[p n]|] eqn:E; [|exact HT]. cbn zeta.
  destruct (_ || _); [exact HT|].
  intros key r. destruct (decide (index_of given_only (Py.subst re i k) = key))
    as [<-|Hne].
  - rewrite lookup_insert_eq. intros [= <-]. destruct (Hc _ _ _ E). now cbn.
  - rewrite lookup_insert_ne by exact Hne. apply HT.
Qed.

(** X12: [re_generalize] keeps the records well-formed: when the records
    of both tables are five-item records over the same totals [P] and
    [N], both at most [2^25], with counts within the totals, so are the
    records of the table it returns, the counts estimated in double
    precision included. *)
Theorem re_generalize_records_ok (re : str)
    (re_pvalues new_re_pvalues out : gmap str (pvalue_record num))
    (alph ambigs : str) (ambig_mappings : list (ascii * str)) (thresh : num)
    (given_only : bool) (P N : Z) :
  P <= 2 ^ 25 -> N <= 2 ^ 25 ->
  records_ok P N re_pvalues -> records_ok P N new_re_pvalues ->
  re_generalize num0 num_lt log_getFETprob c_counts_keys re re_pvalues alph ambigs
    ambig_mappings new_re_pvalues thresh given_only = Some out ->
  records_ok P N out.
Proof.
  intros HP HN HT Hnew. unfold re_generalize.
  destruct (re_pvalues !! re) as [value|] eqn:Hv; [|easy]. cbn [mbind option_bind].
  destruct (HT _ _ Hv) as (-> & -> & _). intros H. revert H Hnew.
  apply (fold_opt_ind _ (fun _ a a' => records_ok P N a -> records_ok P N a')).
  - auto.
  - intros a i a1 l a2 Hstep IH Ha. apply IH. clear IH.
    destruct (re !! i) as [c|]; [|easy]. cbn in Hstep.
    destruct (has_key alph c); cbn [negb] in Hstep; [|now injection Hstep as <-].
    destruct (c_counts_at _ _ _ _ _ _ _ _ _ _ _) as [c_counts|] eqn:Hc; [|easy].
    cbn in Hstep. injection Hstep as <-. apply store_generalized_ok; [|exact Ha].
    unfold c_counts_at in Hc. eapply combine_ambigs_ok; [exact HP|exact HN| |exact Hc].
    now apply base_counts_ok.
Qed.

End GeneralizerRecords.

Lemma sample_table_ok : records_ok 10 10 sample_table.
Proof.
  intros k r H. unfold sample_table in H.
  apply lookup_insert_Some in H as [[_ <-]|[_ H]]; [now cbn|].
  apply lookup_insert_Some in H as [[_ <-]|[_ H]]; [now cbn|].
  now rewrite lookup_empty in H.
Qed.

Lemma re_generalize_records_ok_witness :
  records_ok 10 10
    ({[ lit "TTR" := mk_record 7 10 1 10 (-30) None ]} : gmap str (pvalue_record Z)).
Proof.
  apply (re_generalize_records_ok 0 Z.ltb (fun _ _ _ _ => -30) sample_keys (lit "CAA")
           sample_table ∅ _ _alph _dna_ambigs _dna_ambig_mappings (-5) false).
  - lia.
  - lia.
  - exact sample_table_ok.
  - intros k r H. now rewrite lookup_empty in H.
  - vm_compute. reflexivity.
Defined.

(** ** Padding a pattern to the maximum width *)

Lemma get_rc_app (a b : str) : get_rc (a ++ b) = get_rc b ++ get_rc a.
Proof. unfold get_rc, translate. now rewrite map_app, rev_app_distr. Qed.

Lemma get_rc_run_of_N (k : nat) :
  get_rc (replicate k "N"%char) = replicate k "N"%char.
Proof.
  unfold get_rc, translate. induction k as [|k IH]; [reflexivity|].
  cbn [replicate map rev]. rewrite IH.
  change (default "N"%char (Py.assoc rc_table "N"%char)) with "N"%char.
  clear IH. induction k as [|k IH]; [reflexivity|].
  cbn [replicate app]. now rewrite IH.
Qed.

Lemma instance_of_middle (a re b w : str) :
  instance_of (a ++ re ++ b) w ->
  exists w1 w2 w3, w = w1 ++ w2 ++ w3 /\ instance_of re w2.
Proof.
  unfold instance_of. intros H.
  apply Forall2_app_inv_l in H as (w1 & w' & _ & H & ->).
  apply Forall2_app_inv_l in H as (w2 & w3 & H & _ & ->).
  now exists w1, w2, w3.
Qed.

Lemma has_site_padded (l r : nat) (re : str) (given_only : bool) (s : str) :
  has_site (replicate l "N"%char ++ re ++ replicate r "N"%char) given_only s ->
  has_site re given_only s.
Proof.
  intros (a & w & b & -> & H).
  assert (Hmid : forall x y re', instance_of (x ++ re' ++ y) w ->
            exists a' w' b', a ++ w ++ b = a' ++ w' ++ b' /\ instance_of re' w').
  { intros x y re' Hi. apply instance_of_middle in Hi as (w1 & w2 & w3 & -> & Hi).
    exists (a ++ w1), w2, (w3 ++ b). split; [|exact Hi].
    now rewrite <- !app_assoc. }
  destruct H as [H|[-> H]].
  - destruct (Hmid _ _ _ H) as (a' & w' & b' & E & Hi). exists a', w', b'. auto.
  - rewrite !get_rc_app, !get_rc_run_of_N, <- app_assoc in H.
    destruct (Hmid _ _ _ H) as (a' & w' & b' & E & Hi). exists a', w', b'. auto.
Qed.

(** X13: the padding step of [re_extend_cores] brings a pattern to the
    width [maxw] with runs of [N] on both sides, the right one as long as
    the left one or one longer; a pattern already wider than [maxw] is
    left as it is, not cut. The padded pattern has a site only where the
    pattern has one. *)
Theorem re_extend_cores_pad_spec (re : str) (maxw : Z) :
  Py.len (re_extend_cores_pad re maxw) = Z.max (Py.len re) maxw /\
  (exists l r : nat,
     re_extend_cores_pad re maxw
     = replicate l "N"%char ++ re ++ replicate r "N"%char /\
     (l <= r <= l + 1)%nat) /\
  (iupac_pattern re -> iupac_pattern (re_extend_cores_pad re maxw)) /\
  (forall given_only s,
     has_site (re_extend_cores_pad re maxw) given_only s -> has_site re given_only s).
Proof.
  unfold re_extend_cores_pad. cbn zeta.
  set (pad := maxw - Py.len re).
  assert (Hdiv : 2 * (pad / 2) <= pad < 2 * (pad / 2) + 2).
  { pose proof (Z.div_mod pad 2 ltac:(lia)). pose proof (Z.mod_pos_bound pad 2 ltac:(lia)).
    lia. }
  split; [|split; [|split]].
  - unfold Py.len. rewrite !length_app, !length_replicate. unfold Py.len in pad. lia.
  - exists (Z.to_nat (pad / 2)), (Z.to_nat (pad - pad / 2)). split; [reflexivity|lia].
  - intros Hre. unfold iupac_pattern. rewrite !Forall_app.
    split; [|split; [exact Hre|]]; apply Forall_replicate; reflexivity.
  - intros given_only s. apply has_site_padded.
Qed.

(** ** Background letter frequencies *)

Lemma occurrences_only_letters (alphabet_string : str) (seqs : list str) (c : ascii) :
  c ∈ alphabet_string ->
  occurrences c (only_letters alphabet_string seqs) = occurrences c seqs.
Proof.
  intros Hc. unfold occurrences, only_letters. do 2 f_equal.
  induction seqs as [|seq seqs IH]; [reflexivity|].
  cbn [map concat]. rewrite !filter_app, IH. f_equal.
  clear IH. induction seq as [|x seq IH]; [reflexivity|].
  rewrite (filter_cons (fun c0 => c0 ∈ alphabet_string)).
  destruct (decide (x ∈ alphabet_string)) as [Hx|Hx].
  - rewrite !filter_cons. destruct (decide (x = c)); now rewrite IH.
  - rewrite filter_cons. destruct (decide (x = c)) as [->|_]; [|exact IH].
    contradiction.
Qed.

Lemma total_only_letters (alphabet_string l : str) (seqs : list str) (n0 : Z) :
  (forall c, c ∈ l -> c ∈ alphabet_string) ->
  fold_left (fun n c => n + (1 + occurrences c (only_letters alphabet_string seqs))) l n0
  = fold_left (fun n c => n + (1 + occurrences c seqs)) l n0.
Proof.
  revert n0. induction l as [|c l IH]; intros n0 Hl; cbn [fold_left]; [reflexivity|].
  rewrite occurrences_only_letters by (apply Hl; now left).
  apply IH. intros c' Hc'. apply Hl. now right.
Qed.

(** X14: [get_probs] never raises, gives exactly the letters of the
    alphabet a probability, and ignores the other letters of the
    sequences: the result is that for the sequences with these letters
    removed. The probability of a letter is one more than the number of
    its occurrences over [n], the sum of these numbers over the
    alphabet. *)
Theorem get_probs_ignores_other_letters (seqs : list str) (alphabet_string : str) :
  exists probs,
    get_probs seqs alphabet_string = Some probs /\
    get_probs (only_letters alphabet_string seqs) alphabet_string = Some probs /\
    forall c, probs !! c
              = if bool_decide (c ∈ alphabet_string)
                then Some (inject_Z (1 + occurrences c seqs)
                           / inject_Z (total seqs alphabet_string))%Q
                else None.
Proof.
  destruct (get_probs_lookup seqs alphabet_string) as (probs & Hp & Hl).
  destruct (get_probs_lookup (only_letters alphabet_string seqs) alphabet_string)
    as (probs' & Hp' & Hl').
  exists probs. split; [exact Hp|]. split; [|exact Hl].
  rewrite Hp'. f_equal. apply map_eq. intros c. rewrite Hl, Hl'.
  destruct (bool_decide_reflect (c ∈ alphabet_string)) as [Hin|]; [|reflexivity].
  rewrite occurrences_only_letters by exact Hin.
  unfold total. now rewrite total_only_letters by auto.
Qed.

(** ** The most common position of a pattern *)

Lemma filter_none {A} (P : A -> Prop) `{forall x, Decision (P x)} (l : list A) :
  Forall (fun x => ~ P x) l -> filter P l = [].
Proof.
  induction 1 as [|x l Hx _ IH]; [reflexivity|].
  rewrite filter_cons. now destruct (decide (P x)).
Qed.

Lemma increment_offsets (offsets : list (nat * nat)) (counts : list Z) :
  Forall (fun m : nat * nat => (m.1 < length counts)%nat) offsets ->
  exists counts',
    Py.fold_opt
      (fun counts (m : nat * nat) =>
         let offset := m.1 in
         c ← counts !! offset;
         Some (<[offset := c + 1]> counts))
      counts offsets = Some counts' /\
    length counts' = length counts /\
    forall o c, counts !! o = Some c ->
      counts' !! o
      = Some (c + Z.of_nat (length (filter (fun bn : nat * nat => bn.1 = o) offsets))).
Proof.
  intros H. revert counts H. induction offsets as [|[b n] offsets IH]; intros counts H.
  - exists counts. cbn. split; [reflexivity|]. split; [reflexivity|].
    intros o c ->. f_equal. lia.
  - apply Forall_cons in H as [Hb H]. cbn [fst] in Hb. cbn [Py.fold_opt fst].
    destruct (lookup_lt_is_Some_2 counts b Hb) as [cb Hcb]. rewrite Hcb.
    cbn [mbind option_bind].
    destruct (IH (<[b := cb + 1]> counts)) as (counts' & Hf & Hlen & Hc).
    { rewrite length_insert. exact H. }
    exists counts'. split; [exact Hf|]. rewrite length_insert in Hlen.
    split; [exact Hlen|]. intros o c Ho. rewrite filter_cons. cbn [fst].
    destruct (decide (b = o)) as [->|Hne].
    + rewrite (Hc o (cb + 1)).
      * rewrite Hcb in Ho. injection Ho as <-. cbn [length]. f_equal. lia.
      * rewrite list_lookup_insert_eq by exact Hb. reflexivity.
    + rewrite (Hc o c); [reflexivity|]. now rewrite list_lookup_insert_ne.
Qed.

Lemma finditer_in_bounds (m : Regex.matcher) (w : nat) (s : str) :
  dna_matcher (S w) m ->
  Forall (fun bn : nat * nat => (bn.1 < length s)%nat) (Regex.finditer m s).
Proof.
  intros Hdna. apply Forall_forall. intros [b n] Hin. apply list_elem_of_In in Hin.
  unfold Regex.finditer in Hin. apply finditer_go_matches in Hin as [_ Hm].
  rewrite Nat.sub_0_r in Hm.
  destruct (match_here_bases _ _ _ _ _ Hdna Hm) as (-> & Hle & _).
  rewrite length_drop in Hle. cbn [fst]. lia.
Qed.

Lemma count_offsets_spec (m : Regex.matcher) (w : nat) (counts : list Z) (s : str) :
  dna_matcher (S w) m ->
  exists counts',
    count_offsets m counts s = Some counts' /\
    length counts' = Nat.max (length counts) (length s) /\
    forall o, (o < length counts')%nat ->
      counts' !! o
      = Some (default 0 (counts !! o)
              + Z.of_nat (length (filter (fun bn : nat * nat => bn.1 = o)
                                    (Regex.finditer m s)))).
Proof.
  intros Hdna. unfold count_offsets. cbn zeta.
  set (counts1 := if _ <? _ then _ else _).
  assert (H1 : length counts1 = Nat.max (length counts) (length s) /\
               forall o, (o < length counts1)%nat ->
                 counts1 !! o = Some (default 0 (counts !! o))).
  { unfold counts1, Py.len, int_zeros.
    destruct (Z.ltb_spec (Z.of_nat (length counts)) (Z.of_nat (length s))).
    - rewrite length_app, length_replicate. split; [lia|]. intros o Ho.
      destruct (decide (o < length counts)%nat) as [Hlt|Hge].
      + rewrite lookup_app_l by exact Hlt.
        destruct (lookup_lt_is_Some_2 counts o Hlt) as [c ->]. reflexivity.
      + rewrite lookup_app_r by lia. rewrite (lookup_ge_None_2 counts o) by lia.
        cbn [default from_option id]. apply lookup_replicate_2. lia.
    - split; [lia|]. intros o Ho.
      destruct (lookup_lt_is_Some_2 counts o Ho) as [c ->]. reflexivity. }
  destruct H1 as [Hlen1 Hc1].
  destruct (increment_offsets (Regex.finditer m s) counts1) as (counts' & Hf & Hlen & Hc).
  { eapply Forall_impl; [apply (finditer_in_bounds m w s Hdna)|].
    intros bn Hbn. cbn beta in *. lia. }
  exists counts'. split; [exact Hf|]. split; [lia|]. intros o Ho.
  apply Hc, Hc1. lia.
Qed.

Lemma starts_at_cons (m : Regex.matcher) (s : str) (seqs : list str) (o : nat) :
  starts_at m (s :: seqs) o
  = Z.of_nat (length (filter (fun bn : nat * nat => bn.1 = o) (Regex.finditer m s)))
    + starts_at m seqs o.
Proof.
  unfold starts_at. cbn [flat_map]. rewrite filter_app, length_app. lia.
Qed.

Lemma count_all_offsets (m : Regex.matcher) (w : nat) (seqs : list str)
    (counts : list Z) :
  dna_matcher (S w) m ->
  exists counts',
    Py.fold_opt (count_offsets m) counts seqs = Some counts' /\
    length counts' = Nat.max (length counts) (longest seqs) /\
    forall o, (o < length counts')%nat ->
      counts' !! o = Some (default 0 (counts !! o) + starts_at m seqs o).
Proof.
  intros Hdna. revert counts. induction seqs as [|s seqs IH]; intros counts.
  - exists counts. unfold longest, starts_at. cbn.
    split; [reflexivity|]. split; [lia|]. intros o Ho.
    destruct (lookup_lt_is_Some_2 counts o Ho) as [c ->]. cbn. f_equal. lia.
  - cbn [Py.fold_opt].
    destruct (count_offsets_spec m w counts s Hdna) as (c1 & -> & Hlen1 & Hc1).
    destruct (IH c1) as (c2 & -> & Hlen2 & Hc2).
    exists c2. split; [reflexivity|]. unfold longest in *. cbn [map foldr].
    split; [lia|]. intros o Ho. rewrite (Hc2 o Ho), starts_at_cons.
    destruct (decide (o < length c1)%nat) as [Hlt|Hge].
    + rewrite (Hc1 o Hlt). cbn [default from_option id]. f_equal. lia.
    + rewrite (lookup_ge_None_2 c1 o) by lia. rewrite (lookup_ge_None_2 counts o) by lia.
      cbn [default from_option id]. f_equal.
      assert (Hnone : filter (fun bn : nat * nat => bn.1 = o) (Regex.finditer m s) = []).
      { apply filter_none. eapply Forall_impl;
          [apply (finditer_in_bounds m w s Hdna)|].
        intros bn Hbn. cbn beta in *. lia. }
      rewrite Hnone. cbn. lia.
Qed.

Lemma pair_lt_spec (a b : Z * Z) :
  pair_lt a b = true <-> a.1 < b.1 \/ (a.1 = b.1 /\ a.2 < b.2).
Proof.
  unfold pair_lt. rewrite orb_true_iff, andb_true_iff, !Z.ltb_lt, Z.eqb_eq. tauto.
Qed.

Lemma max_fold (l : list (Z * Z)) (x0 : Z * Z) :
  let x := fold_left (fun best y => if pair_lt best y then y else best) l x0 in
  (x = x0 \/ In x l) /\
  forall y, y = x0 \/ In y l -> y.1 < x.1 \/ (y.1 = x.1 /\ y.2 <= x.2).
Proof.
  cbn zeta. revert x0. induction l as [|z l IH]; intros x0; cbn [fold_left].
  - split; [now left|]. intros y [->|[]]. lia.
  - destruct (IH (if pair_lt x0 z then z else x0)) as [Hin Hmax]. split.
    + destruct Hin as [->|Hin]; [|right; now right].
      destruct (pair_lt x0 z); [right; now left|now left].
    + intros y Hy.
      assert (Hstep : forall y, y = x0 \/ y = z ->
                let b := if pair_lt x0 z then z else x0 in
                y.1 < b.1 \/ (y.1 = b.1 /\ y.2 <= b.2)).
      { intros y' Hy'. cbn zeta. destruct (pair_lt x0 z) eqn:E.
        - apply pair_lt_spec in E. destruct Hy' as [->| ->]; lia.
        - assert (~ (x0.1 < z.1 \/ (x0.1 = z.1 /\ x0.2 < z.2))) as Hn.
          { rewrite <- pair_lt_spec. congruence. }
          destruct Hy' as [->| ->]; lia. }
      destruct Hy as [Hy|[Hy|Hy]].
      * specialize (Hstep y (or_introl Hy)). specialize (Hmax _ (or_introl eq_refl)).
        cbn zeta in Hstep. lia.
      * specialize (Hstep y (or_intror (eq_sym Hy))).
        specialize (Hmax _ (or_introl eq_refl)). cbn zeta in Hstep. lia.
      * apply Hmax. now right.
Qed.

Lemma max_pair_spec (l : list (Z * Z)) :
  match max_pair l with
  | None => l = []
  | Some x => In x l /\ forall y, In y l -> y.1 < x.1 \/ (y.1 = x.1 /\ y.2 <= x.2)
  end.
Proof.
  destruct l as [|x0 l]; [reflexivity|]. cbn [max_pair].
  destruct (max_fold l x0) as [Hin Hmax]. split.
  - destruct Hin as [->|Hin]; [now left|now right].
  - intros y [<-|Hy]; apply Hmax; auto.
Qed.

Lemma In_imap_pairs (counts : list Z) (x : Z * Z) :
  In x (imap (fun offset c => (c, Z.of_nat offset)) counts) <->
  exists o : nat, counts !! o = Some x.1 /\ x.2 = Z.of_nat o.
Proof.
  rewrite <- list_elem_of_In, elem_of_lookup_imap. split.
  - intros (o & c & -> & H). now exists o.
  - intros (o & H & E). exists o, x.1. split; [|exact H]. destruct x. cbn in *.
    now subst.
Qed.

(** X15: [get_best_offset] for a non-empty pattern over the IUPAC letters
    (for another letter [make_dna_re] raises [KeyError]) raises an error
    exactly when no sequence has a letter ([max] of an empty list); else it
    returns a position within the longest sequence at which the most
    matches start, the matches taken from left to right without overlap on
    the given strand, and of several such positions the last one. *)
Theorem get_best_offset_spec (re : str) (seqs : list str) (m_given : Regex.matcher) :
  re <> [] ->
  make_dna_re re true false = Some m_given ->
  (get_best_offset re seqs = None <-> longest seqs = 0%nat) /\
  (forall best, get_best_offset re seqs = Some best ->
     exists o : nat, best = Z.of_nat o /\ (o < longest seqs)%nat /\
       forall o', (o' < longest seqs)%nat ->
         starts_at m_given seqs o' < starts_at m_given seqs o \/
         (starts_at m_given seqs o' = starts_at m_given seqs o /\ (o' <= o)%nat)).
Proof.
  intros Hne Hm. unfold get_best_offset. rewrite Hm. cbn [mbind option_bind].
  destruct (make_dna_re_spec _ _ _ _ Hm) as (_ & Hdna & _).
  destruct re as [|L re]; [easy|]. cbn [length] in Hdna.
  destruct (count_all_offsets m_given (length re) seqs [] Hdna)
    as (counts & -> & Hlen & Hc).
  cbn [length Nat.max] in Hlen. cbn [mbind option_bind].
  assert (Hc' : forall o, (o < longest seqs)%nat ->
            counts !! o = Some (starts_at m_given seqs o)).
  { intros o Ho. rewrite Hc by lia. now rewrite lookup_nil. }
  pose proof (max_pair_spec (imap (fun offset c => (c, Z.of_nat offset)) counts)) as Hmax.
  destruct (max_pair _) as [[c b]|]; cbn [mbind option_bind].
  - destruct Hmax as [Hin Hmax]. apply In_imap_pairs in Hin as (o & Ho & Hb).
    cbn [fst snd] in Ho, Hb.
    assert (Hlt : (o < longest seqs)%nat).
    { rewrite <- Hlen. eapply lookup_lt_Some, Ho. }
    split.
    + split; [discriminate|lia].
    + intros best [= <-]. exists o. split; [exact Hb|]. split; [exact Hlt|].
      intros o' Ho'. rewrite (Hc' o Hlt) in Ho. injection Ho as <-.
      specialize (Hmax (starts_at m_given seqs o', Z.of_nat o')).
      cbn [fst snd] in Hmax. subst b.
      destruct Hmax as [H|[H1 H2]]; [|left; exact H|right; split; [exact H1|lia]].
      apply In_imap_pairs. exists o'. cbn [fst snd]. split; [now apply Hc'|reflexivity].
  - split; [|discriminate]. split; [intros _|reflexivity].
    rewrite <- Hlen. apply (f_equal length) in Hmax.
    now rewrite length_imap in Hmax.
Qed.

Lemma get_best_offset_spec_witness :
  exists o : nat, 2 = Z.of_nat o /\ (o < longest [lit "ACAT"; lit "GGCATT"; lit "TTCAG"])%nat /\
    forall o', (o' < longest [lit "ACAT"; lit "GGCATT"; lit "TTCAG"])%nat ->
      starts_at {| Regex.alternatives := [[lit "C"; lit "A"]]; Regex.anchored := false |}
        [lit "ACAT"; lit "GGCATT"; lit "TTCAG"] o'
      < starts_at {| Regex.alternatives := [[lit "C"; lit "A"]]; Regex.anchored := false |}
          [lit "ACAT"; lit "GGCATT"; lit "TTCAG"] o \/
      (starts_at {| Regex.alternatives := [[lit "C"; lit "A"]]; Regex.anchored := false |}
         [lit "ACAT"; lit "GGCATT"; lit "TTCAG"] o'
       = starts_at {| Regex.alternatives := [[lit "C"; lit "A"]]; Regex.anchored := false |}
           [lit "ACAT"; lit "GGCATT"; lit "TTCAG"] o /\ (o' <= o)%nat).
Proof.
  apply (get_best_offset_spec (lit "CA") [lit "ACAT"; lit "GGCATT"; lit "TTCAG"]);
    [easy|reflexivity|vm_compute; reflexivity].
Defined.

(** ** Rounds of the greedy refiner compose *)

Lemma fold_opt_total {A B} (f : A -> B -> option A) (Inv : A -> Prop) (l : list B)
    (a0 : A) :
  (forall a b, In b l -> Inv a -> exists a', f a b = Some a' /\ Inv a') ->
  Inv a0 -> exists a', Py.fold_opt f a0 l = Some a' /\ Inv a'.
Proof.
  revert a0. induction l as [|b l IH]; intros a0 Hstep H0; cbn [Py.fold_opt].
  - now exists a0.
  - destruct (Hstep a0 b (or_introl eq_refl) H0) as (a1 & -> & H1).
    apply IH; [|exact H1]. intros a b' Hb'. apply Hstep. now right.
Qed.

Lemma subst_iupac (re : str) (i : nat) (c : ascii) :
  iupac_pattern re -> is_iupac c = true -> iupac_pattern (Py.subst re i c).
Proof.
  intros Hre Hc. unfold Py.subst, iupac_pattern. apply Forall_app. split.
  - now apply Forall_take.
  - constructor; [exact Hc|]. now apply Forall_drop.
Qed.

Section RefinerRuns.
Context {num : Type}.
Variable num0 : num.
Variable num_lt : num -> num -> bool.
Variable log_getFETprob : Z -> Z -> Z -> Z -> num.
Variable get_best_hamming_alignment :
  str -> list str -> list str -> bool -> Z * num * Z * Z * Z * Z.
Variable allowed_letters : str.
Variable pos_seqs neg_seqs : list str.
Variable given_only : bool.

Local Abbreviation refine hamming_dist :=
  (fun T cands done =>
     re_refine num0 num_lt log_getFETprob get_best_hamming_alignment T cands done
       allowed_letters pos_seqs neg_seqs hamming_dist given_only).

Lemma re_refine_skips_done (hamming_dist : Z)
    (candidate_pvalues : list (str * pvalue_record num))
    (T imp : gmap str (pvalue_record num)) (done : gset str) :
  Forall (fun cand => cand.1 ∈ done) candidate_pvalues ->
  Py.fold_opt
    (fun (st : refine_state) (cand : str * pvalue_record num) =>
       let '(improved_re_pvalues, re_pvalues, done_re_list) := st in
       let re := cand.1 in
       if bool_decide (re ∈ done_re_list) then Some st
       else
         let done_re_list := {[re]} ∪ done_re_list in
         '(improved_re_pvalues, re_pvalues) ←
           refine_candidate num0 num_lt log_getFETprob get_best_hamming_alignment
             re allowed_letters pos_seqs neg_seqs hamming_dist given_only
             (improved_re_pvalues, re_pvalues);
         Some (improved_re_pvalues, re_pvalues, done_re_list))
    (imp, T, done) candidate_pvalues = Some (imp, T, done).
Proof.
  induction 1 as [|cand l Hc _ IH]; cbn [Py.fold_opt]; [reflexivity|].
  now rewrite bool_decide_eq_true_2.
Qed.

(** X16: a round of [re_refine] marks all its candidates as done, so that
    a second round on the same candidates, with the table and the done
    list the first one left, tries nothing: it returns no improved
    pattern and leaves the table and the done list as they are. *)
Theorem re_refine_second_round (hamming_dist : Z)
    (candidate_pvalues : list (str * pvalue_record num))
    (re_pvalues improved re_pvalues' : gmap str (pvalue_record num))
    (done_re_list done_re_list' : gset str) :
  refine hamming_dist re_pvalues candidate_pvalues done_re_list
  = Some (improved, re_pvalues', done_re_list') ->
  refine hamming_dist re_pvalues' candidate_pvalues done_re_list'
  = Some (∅, re_pvalues', done_re_list').
Proof.
  intros H. apply re_refine_round_of in H as [_ Hdone]. cbn [snd] in Hdone.
  unfold re_refine. apply re_refine_skips_done.
  apply Forall_forall. intros cand Hc. now apply Hdone, list_elem_of_In.
Qed.

Local Abbreviation grows :=
  (fun (T : gmap str (pvalue_record num)) (st : gmap str (pvalue_record num)
                                               * gmap str (pvalue_record num)) =>
     forall k, is_Some (T !! k) -> is_Some (st.2 !! k)).

Lemma try_substitution_total (T0 : gmap str (pvalue_record num)) (re : str) (i : nat)
    (old_letter new_letter : ascii)
    (st : gmap str (pvalue_record num) * gmap str (pvalue_record num)) :
  iupac_pattern re -> is_iupac new_letter = true -> is_Some (T0 !! re) ->
  grows T0 st ->
  exists st',
    try_substitution num0 num_lt log_getFETprob get_best_hamming_alignment re
      pos_seqs neg_seqs (-1) given_only i old_letter st new_letter = Some st' /\
    grows T0 st'.
Proof.
  intros Hre Hc Hparent Hst. destruct st as [imp T]. unfold try_substitution.
  destruct (Ascii.eqb new_letter old_letter); [now eexists|].
  cbn zeta. destruct (T !! Py.min _ _) eqn:E; [now eexists|].
  unfold new_record. cbn [Z.eqb Z.opp Pos.eqb]. unfold compute_exact_re_enrichment.
  unfold count_seqs_matching_iupac_re.
  destruct (make_dna_re_total (Py.subst re i new_letter) given_only false) as [ms ->].
  { now apply subst_iupac. }
  cbn [mbind option_bind].
  destruct (Hst re Hparent) as [parent Hp]. cbn [snd] in Hp. rewrite Hp.
  cbn [mbind option_bind]. eexists. split; [reflexivity|].
  intros k Hk. cbn [snd]. apply lookup_insert_is_Some'. right. now apply Hst.
Qed.

Lemma refine_candidate_total (T0 : gmap str (pvalue_record num)) (re : str)
    (st : gmap str (pvalue_record num) * gmap str (pvalue_record num)) :
  iupac_pattern allowed_letters -> iupac_pattern re -> is_Some (T0 !! re) ->
  grows T0 st ->
  exists st',
    refine_candidate num0 num_lt log_getFETprob get_best_hamming_alignment re
      allowed_letters pos_seqs neg_seqs (-1) given_only st = Some st' /\
    grows T0 st'.
Proof.
  intros Hall Hre Hparent Hst. unfold refine_candidate.
  apply (fold_opt_total _ (grows T0)); [|exact Hst].
  intros st1 i Hi Hst1. apply in_seq in Hi.
  destruct (lookup_lt_is_Some_2 re i ltac:(lia)) as [old ->]. cbn [mbind option_bind].
  apply (fold_opt_total _ (grows T0)); [|exact Hst1].
  intros st2 c Hc Hst2. apply try_substitution_total; try assumption.
  unfold iupac_pattern in Hall. rewrite Forall_forall in Hall.
  now apply Hall, list_elem_of_In.
Qed.

(** X17: a round of exact refinement ([hamming_dist = -1]) raises no
    error when the allowed letters and all candidates are over the IUPAC
    letters and every candidate has a record in the table. *)
Theorem re_refine_total (candidate_pvalues : list (str * pvalue_record num))
    (re_pvalues : gmap str (pvalue_record num)) (done_re_list : gset str) :
  iupac_pattern allowed_letters ->
  Forall (fun cand => iupac_pattern cand.1 /\ is_Some (re_pvalues !! cand.1))
    candidate_pvalues ->
  is_Some (refine (-1) re_pvalues candidate_pvalues done_re_list).
Proof.
  intros Hall Hc. unfold re_refine.
  destruct (fold_opt_total
              (fun (st : refine_state) (cand : str * pvalue_record num) =>
                 let '(improved_re_pvalues, re_pvalues, done_re_list) := st in
                 let re := cand.1 in
                 if bool_decide (re ∈ done_re_list) then Some st
                 else
                   let done_re_list := {[re]} ∪ done_re_list in
                   '(improved_re_pvalues, re_pvalues) ←
                     refine_candidate num0 num_lt log_getFETprob
                       get_best_hamming_alignment re allowed_letters pos_seqs
                       neg_seqs (-1) given_only (improved_re_pvalues, re_pvalues);
                   Some (improved_re_pvalues, re_pvalues, done_re_list))
              (fun st : refine_state => grows re_pvalues st.1)
              candidate_pvalues (∅, re_pvalues, done_re_list)) as (st' & Hst' & _).
  - intros [[imp T] done] cand Hin Hinv. cbn [fst] in Hinv.
    cbn beta iota zeta.
    case_bool_decide; [eexists; split; [reflexivity|exact Hinv]|].
    rewrite Forall_forall in Hc. destruct (Hc cand) as [Hre Hp];
      [now apply list_elem_of_In|].
    destruct (refine_candidate_total re_pvalues cand.1 (imp, T) Hall Hre Hp Hinv)
      as ([imp' T'] & -> & Hg).
    cbn [mbind option_bind]. eexists. split; [reflexivity|exact Hg].
  - intros k Hk. exact Hk.
  - exists st'. exact Hst'.
Qed.

End RefinerRuns.

Lemma re_refine_second_round_witness :
  re_refine 0 Z.ltb (fun _ _ _ _ => -3) (fun _ _ _ _ => (0, 0, 0, 0, 0, 0))
    (<[ lit "C" := sample_record_C (-3) ]> {[ lit "A" := sample_record_A ]})
    [(lit "A", sample_record_A)] {[ lit "A" ]} _dna_alphabet sample_pos sample_neg
    (-1) false
  = Some (∅, <[ lit "C" := sample_record_C (-3) ]> {[ lit "A" := sample_record_A ]},
          {[ lit "A" ]}).
Proof.
  apply (re_refine_second_round 0 Z.ltb (fun _ _ _ _ => -3)
           (fun _ _ _ _ => (0, 0, 0, 0, 0, 0)) _dna_alphabet sample_pos sample_neg
           false (-1) [(lit "A", sample_record_A)] {[ lit "A" := sample_record_A ]}
           {[ lit "C" := sample_record_C (-3) ]} _ ∅).
  vm_compute. reflexivity.
Defined.

Lemma re_refine_total_witness :
  is_Some
    (re_refine 0 Z.ltb (fun _ _ _ _ => -3) (fun _ _ _ _ => (0, 0, 0, 0, 0, 0))
       {[ lit "A" := sample_record_A ]} [(lit "A", sample_record_A)] ∅ _dna_alphabet
       sample_pos sample_neg (-1) false).
Proof.
  apply re_refine_total.
  - repeat constructor.
  - repeat constructor. now exists sample_record_A.
Defined.

(** ** What the find-and-erase loop keeps *)

Lemma masked_set_refl (seqs : list str) : masked_set seqs seqs.
Proof. apply Forall_Forall2_diag, Forall_forall. intros s _. apply masked_refl. Qed.

Lemma masked_trans (a b c : ascii) : masked a b -> masked b c -> masked a c.
Proof. unfold masked. intros [->| ->] [->| ->]; auto. Qed.

Lemma masked_seq_trans (s1 s2 s3 : str) :
  Forall2 masked s1 s2 -> Forall2 masked s2 s3 -> Forall2 masked s1 s3.
Proof.
  intros H. revert s3. induction H as [|a b s1 s2 Hab _ IH]; intros s3 H3.
  - apply Forall2_nil_inv_l in H3 as ->. constructor.
  - apply Forall2_cons_inv_l in H3 as (c & s3' & Hbc & H3 & ->).
    constructor; [now apply (masked_trans a b)|now apply IH].
Qed.

Lemma masked_set_trans (l1 l2 l3 : list str) :
  masked_set l1 l2 -> masked_set l2 l3 -> masked_set l1 l3.
Proof.
  unfold masked_set. intros H. revert l3. induction H as [|a b l1 l2 Hab _ IH]; intros l3 H3.
  - apply Forall2_nil_inv_l in H3 as ->. constructor.
  - apply Forall2_cons_inv_l in H3 as (c & l3' & Hbc & H3 & ->).
    constructor; [now apply (masked_seq_trans a b)|now apply IH].
Qed.

Lemma erase_re_masked_set (re : str) (pos_seqs neg_seqs pos' neg' : list str) :
  erase_re re pos_seqs neg_seqs = Some (pos', neg') ->
  masked_set pos_seqs pos' /\ masked_set neg_seqs neg'.
Proof.
  unfold erase_re. intros H.
  destruct (make_dna_re re false false) as [ms|] eqn:Hms; [|discriminate].
  cbn [mbind option_bind] in H. injection H as <- <-.
  destruct (make_dna_re_spec _ _ _ _ Hms) as (Ha & Hdna & _).
  split; apply Forall2_fmap_r, Forall_Forall2_diag, Forall_forall; intros s _;
    now apply sub_shape.
Qed.

Lemma erase_re_upto_masked_set (j : nat) (re : str)
    (pos_seqs neg_seqs pos' neg' : list str) :
  erase_re_upto j re pos_seqs neg_seqs = Some (pos', neg') ->
  masked_set pos_seqs pos' /\ masked_set neg_seqs neg'.
Proof.
  unfold erase_re_upto. intros H.
  destruct (make_dna_re re false false) as [ms|] eqn:Hms; [|discriminate].
  cbn [mbind option_bind] in H. injection H as <- <-.
  destruct (make_dna_re_spec _ _ _ _ Hms) as (Ha & Hdna & _).
  assert (Hfirst : forall k seqs,
            masked_set seqs (map (Regex.sub ms (n_run re)) (take k seqs) ++ drop k seqs)).
  { intros k seqs. rewrite <- (take_drop k seqs) at 1. apply Forall2_app.
    - apply Forall2_fmap_r, Forall_Forall2_diag, Forall_forall; intros s _.
      now apply sub_shape.
    - apply masked_set_refl. }
  split; apply Hfirst.
Qed.

Section LoopInvariants.
Context {num : Type}.
Variable num_lt num_le : num -> num -> bool.
Variable log_ethresh : num.
Variable find_print : config -> Z -> list str -> list str -> option (str * num).
Variable find_times_out : Z -> bool.
Variable deadline_passed : Z -> bool.
Variable erase_times_out : Z -> option nat.

Local Abbreviation loop :=
  (find_erase_loop num_lt num_le log_ethresh find_print find_times_out
     deadline_passed erase_times_out).

(** X18: when the find-and-erase loop stops, the sequence sets are the
    initial ones with some letters overwritten by [N] (as many sequences,
    of the same lengths), also when the time ran out in the middle of an
    erasure; the number of motifs has not decreased; a stop with cause
    [count] means the number of motifs is [max_motifs], and a stop with
    cause [time] that a time limit was given. Every motif counted was
    searched for, at most one search did not count, and there are no more
    erasures than motifs. *)
Theorem loop_stop_invariants (c : config) (fuel : nat) (pos_seqs neg_seqs : list str)
    (nmotifs0 : Z) (evs : list event) (cause : stop_cause) (nmotifs : Z)
    (pos' neg' : list str) :
  loop c fuel pos_seqs neg_seqs nmotifs0 = Some (evs, Stop cause nmotifs pos' neg') ->
  masked_set pos_seqs pos' /\ masked_set neg_seqs neg' /\
  nmotifs0 <= nmotifs /\
  (cause = StopCount -> max_motifs c = Some nmotifs) /\
  (cause = StopTime -> is_Some (max_time c)) /\
  nmotifs - nmotifs0 <= searches evs <= nmotifs - nmotifs0 + 1 /\
  erasures evs <= nmotifs - nmotifs0.
Proof.
  revert pos_seqs neg_seqs nmotifs0 evs.
  induction fuel as [|fuel IH]; intros pos_seqs neg_seqs nmotifs0 evs; [easy|].
  cbn [find_erase_loop].
  assert (Hbase : masked_set pos_seqs pos_seqs /\ masked_set neg_seqs neg_seqs)
    by (split; apply masked_set_refl).
  destruct (bool_decide (is_Some (max_time c))) eqn:Htimed.
  2:{ cbn [andb]. apply bool_decide_eq_false in Htimed.
      destruct (find_print _ _ _ _) as [[word Evalue]|]; [|easy].
      destruct (num_lt _ _).
      { intros [= <- <- <- <- <-]. unfold searches, erasures. cbn.
        repeat split; try easy; try apply masked_set_refl; lia. }
      case_bool_decide as Hmax.
      { intros [= <- <- <- <- <-]. unfold searches, erasures. cbn.
        repeat split; try easy; try apply masked_set_refl; lia. }
      destruct (num_le _ _).
      - destruct (erase_re _ _ _) as [[p n]|] eqn:He; [|easy].
        destruct (find_erase_loop _ _ _ _ _ _ _ _ _ _ _ _) as [[evs' e']|] eqn:Hl;
          [|easy].
        cbn. intros [= <- ->].
        apply IH in Hl as (Hp & Hn & Hle & Hc & Ht & Hs & He').
        apply erase_re_masked_set in He as [Hp1 Hn1].
        unfold searches, erasures in *. cbn [List.filter length].
        repeat split; try assumption; try lia;
          [now apply (masked_set_trans _ p)|now apply (masked_set_trans _ n)].
      - destruct (find_erase_loop _ _ _ _ _ _ _ _ _ _ _ _) as [[evs' e']|] eqn:Hl;
          [|easy].
        cbn. intros [= <- ->].
        apply IH in Hl as (Hp & Hn & Hle & Hc & Ht & Hs & He').
        unfold searches, erasures in *. cbn [List.filter length].
        repeat split; try assumption; lia. }
  apply bool_decide_eq_true in Htimed. cbn [andb].
  destruct (find_times_out _).
  { intros [= <- <- <- <- <-]. unfold searches, erasures. cbn.
    repeat split; try easy; try apply masked_set_refl; lia. }
  destruct (find_print _ _ _ _) as [[word Evalue]|]; [|easy].
  destruct (num_lt _ _).
  { intros [= <- <- <- <- <-]. unfold searches, erasures. cbn.
    repeat split; try easy; try apply masked_set_refl; lia. }
  case_bool_decide as Hmax.
  { intros [= <- <- <- <- <-]. unfold searches, erasures. cbn.
    repeat split; try easy; try apply masked_set_refl; lia. }
  destruct (deadline_passed _).
  { intros [= <- <- <- <- <-]. unfold searches, erasures. cbn.
    repeat split; try easy; try apply masked_set_refl; lia. }
  destruct (num_le _ _).
  - destruct (erase_times_out _) as [j|].
    + destruct (erase_re_upto _ _ _ _) as [[p n]|] eqn:He; [|easy].
      intros [= <- <- <- <- <-].
      apply erase_re_upto_masked_set in He as [Hp1 Hn1].
      unfold searches, erasures. cbn.
      repeat split; try easy; lia.
    + destruct (erase_re _ _ _) as [[p n]|] eqn:He; [|easy].
      destruct (find_erase_loop _ _ _ _ _ _ _ _ _ _ _ _) as [[evs' e']|] eqn:Hl;
        [|easy].
      cbn. intros [= <- ->].
      apply IH in Hl as (Hp & Hn & Hle & Hc & Ht & Hs & He').
      apply erase_re_masked_set in He as [Hp1 Hn1].
      unfold searches, erasures in *. cbn [List.filter length].
      repeat split; try assumption; try lia;
        [now apply (masked_set_trans _ p)|now apply (masked_set_trans _ n)].
  - destruct (find_erase_loop _ _ _ _ _ _ _ _ _ _ _ _) as [[evs' e']|] eqn:Hl;
      [|easy].
    cbn. intros [= <- ->].
    apply IH in Hl as (Hp & Hn & Hle & Hc & Ht & Hs & He').
    unfold searches, erasures in *. cbn [List.filter length].
    repeat split; try assumption; lia.
Qed.

End LoopInvariants.

Lemma loop_stop_invariants_witness :
  masked_set [lit "AACGTT"; lit "ACGTAC"] [lit "ANNNNT"; lit "NNNNAC"] /\
  masked_set [lit "TTTT"] [lit "TTTT"] /\
  0 <= 2 /\
  (StopCount = StopCount -> Some 2 = Some 2) /\
  (StopCount = StopTime -> is_Some (None : option Z)) /\
  2 - 0 <= searches [Looking 1; Erasing (lit "ACGT"); Looking 2]
        <= 2 - 0 + 1 /\
  erasures [Looking 1; Erasing (lit "ACGT"); Looking 2] <= 2 - 0.
Proof.
  apply (loop_stop_invariants Z.ltb Z.leb (-3)
           (fun _ _ _ _ => Some (lit "ACGT", -10)) (fun _ => false) (fun _ => false)
           (fun _ => None)
           {| minw := -1; maxw := -1; mink := 3; maxk := 8;
              max_motifs := Some 2; max_time := None |}
           2 [lit "AACGTT"; lit "ACGTAC"] [lit "TTTT"] 0).
  vm_compute. reflexivity.
Defined.

Section LoopTermination.
Context {num : Type}.
Variable num_lt num_le : num -> num -> bool.
Variable log_ethresh : num.
Variable find_print : config -> Z -> list str -> list str -> option (str * num).
Variable find_times_out : Z -> bool.
Variable deadline_passed : Z -> bool.
Variable erase_times_out : Z -> option nat.

Local Abbreviation loop :=
  (find_erase_loop num_lt num_le log_ethresh find_print find_times_out
     deadline_passed erase_times_out).

(** X19: with a limit [max_motifs = m] above the current number of
    motifs, the find-and-erase loop ends within [m - nmotifs] searches,
    whatever the searches find, and it stops with at most [m] motifs. *)
Theorem loop_ends_within_max_motifs (c : config) (m : Z) (fuel : nat)
    (pos_seqs neg_seqs : list str) (nmotifs0 : Z) :
  max_motifs c = Some m -> nmotifs0 < m ->
  (Z.to_nat (m - nmotifs0) <= fuel)%nat ->
  exists evs e,
    loop c fuel pos_seqs neg_seqs nmotifs0 = Some (evs, e) /\
    searches evs <= m - nmotifs0 /\
    forall cause nmotifs pos' neg',
      e = Stop cause nmotifs pos' neg' -> nmotifs <= m.
Proof.
  intros Hmax. revert pos_seqs neg_seqs nmotifs0.
  induction fuel as [|fuel IH]; intros pos_seqs neg_seqs nmotifs0 Hlt Hfuel; [lia|].
  cbn [find_erase_loop]. rewrite Hmax.
  assert (Hone : searches [Looking (nmotifs0 + 1)] <= m - nmotifs0)
    by (unfold searches; cbn; lia).
  assert (Htwo : forall w, searches [Looking (nmotifs0 + 1); Erasing w] <= m - nmotifs0)
    by (intros w; unfold searches; cbn; lia).
  destruct (_ && find_times_out _).
  { eexists _, _. split; [reflexivity|]. split; [exact Hone|].
    intros ? ? ? ? [= <- <- <- <-]. lia. }
  destruct (find_print _ _ _ _) as [[word Evalue]|].
  2:{ eexists _, _. split; [reflexivity|]. split; [exact Hone|]. intros ? ? ? ? [=]. }
  destruct (num_lt _ _).
  { eexists _, _. split; [reflexivity|]. split; [exact Hone|].
    intros ? ? ? ? [= <- <- <- <-]. lia. }
  case_bool_decide as Hm.
  { eexists _, _. split; [reflexivity|]. split; [exact Hone|].
    intros ? ? ? ? [= <- <- <- <-]. lia. }
  assert (Hnext : nmotifs0 + 1 < m).
  { destruct (Z.eq_dec (nmotifs0 + 1) m) as [E|E]; [|lia]. now rewrite E in Hm. }
  destruct (_ && deadline_passed _).
  { eexists _, _. split; [reflexivity|]. split; [exact Hone|].
    intros ? ? ? ? [= <- <- <- <-]. lia. }
  assert (Hrec : forall p n pre,
            (forall evs, searches (pre ++ evs) = 1 + searches evs) ->
            exists evs e,
              (loop c fuel p n (nmotifs0 + 1)
                 ≫= (fun '(evs, e) => Some (pre ++ evs, e))) = Some (evs, e) /\
              searches evs <= m - nmotifs0 /\
              forall cause nmotifs pos' neg',
                e = Stop cause nmotifs pos' neg' -> nmotifs <= m).
  { intros p n pre Hpre.
    destruct (IH p n (nmotifs0 + 1) Hnext ltac:(lia)) as (evs & e & -> & Hs & Hn).
    cbn [mbind option_bind]. eexists _, _. split; [reflexivity|].
    split; [rewrite Hpre; lia|exact Hn]. }
  destruct (num_le _ _).
  - destruct (if bool_decide _ then _ else _) as [j|].
    + destruct (erase_re_upto _ _ _ _) as [[p n]|].
      * eexists _, _. split; [reflexivity|]. split; [apply Htwo|].
        intros ? ? ? ? [= <- <- <- <-]. lia.
      * eexists _, _. split; [reflexivity|]. split; [apply Htwo|]. intros ? ? ? ? [=].
    + destruct (erase_re _ _ _) as [[p n]|].
      * apply (Hrec p n [Looking (nmotifs0 + 1); Erasing word]).
        intros evs. unfold searches. cbn [app List.filter length]. lia.
      * eexists _, _. split; [reflexivity|]. split; [apply Htwo|]. intros ? ? ? ? [=].
  - apply (Hrec pos_seqs neg_seqs [Looking (nmotifs0 + 1)]).
    intros evs. unfold searches. cbn [app List.filter length]. lia.
Qed.

End LoopTermination.

Lemma loop_ends_within_max_motifs_witness :
  exists evs e,
    find_erase_loop Z.ltb Z.leb (-3) (fun _ _ _ _ => Some (lit "ACGT", -10))
      (fun _ => false) (fun _ => false) (fun _ => None)
      {| minw := -1; maxw := -1; mink := 3; maxk := 8;
         max_motifs := Some 2; max_time := None |}
      2 [lit "AACGTT"; lit "ACGTAC"] [lit "TTTT"] 0 = Some (evs, e) /\
    searches evs <= 2 - 0 /\
    forall cause nmotifs pos' neg',
      e = Stop cause nmotifs pos' neg' -> nmotifs <= 2.
Proof.
  apply loop_ends_within_max_motifs; [reflexivity|lia|cbn; lia].
Defined.

(** ** The widths [main] passes on *)

(** X20: when the checks of [main] on the widths pass, the core widths it
    passes on are in order and within the motif width,
    [mink <= maxk <= maxw]; a minimum motif width that was given
    ([0 <= minw]) is kept and is at most the maximum width passed on. *)
Theorem check_widths_bounds (c c' : config) :
  check_widths c = Some c' ->
  mink c' <= maxk c' /\ maxk c' <= maxw c' /\
  max_motifs c' = max_motifs c /\ max_time c' = max_time c /\
  (0 <= minw c -> minw c' = minw c /\ minw c' <= maxw c').
Proof.
  unfold check_widths. intros H.
  destruct (Z.gtb_spec (minw c) (maxw c)) as [Hgt|Hle].
  - destruct (Z.eqb_spec (maxw c) (-1)) as [E|E]; [|discriminate].
    cbn [mbind option_bind] in H.
    destruct (Z.gtb_spec (mink c) (maxk c)); [discriminate|].
    injection H as <-. cbn [minw maxw mink maxk max_motifs max_time].
    destruct (Z.eqb_spec (minw c) (-1)); [lia|]. repeat split; lia.
  - cbn [mbind option_bind] in H.
    destruct (Z.gtb_spec (mink c) (maxk c)); [discriminate|].
    injection H as <-. cbn [minw maxw mink maxk max_motifs max_time].
    destruct (Z.eqb_spec (minw c) (-1)), (Z.eqb_spec (maxw c) (-1));
      repeat split; lia.
Qed.

Lemma check_widths_bounds_witness :
  mink {| minw := 3; maxw := 8; mink := 3; maxk := 8;
          max_motifs := None; max_time := None |}
  <= maxk {| minw := 3; maxw := 8; mink := 3; maxk := 8;
             max_motifs := None; max_time := None |}.
Proof.
  exact (proj1 (check_widths_bounds default_config _ eq_refl)).
Defined.

(** ** The census agrees with the matcher *)

Lemma bases_only_iupac (w : str) : bases_only w -> iupac_pattern w.
Proof.
  intros Hw. eapply Forall_impl; [exact Hw|]. intros c Hc. unfold is_iupac, all_letters.
  rewrite existsb_app. unfold is_base in Hc. now rewrite Hc.
Qed.

Lemma is_base_cases (c : ascii) : is_base c = true -> In c _dna_alphabet.
Proof.
  unfold is_base. intros H. apply existsb_exists in H as (x & Hin & Heq).
  apply Ascii.eqb_eq in Heq. now subst.
Qed.

Lemma letter_matches_base (L c : ascii) :
  is_base L = true -> letter_matches L c <-> c = L.
Proof.
  intros HL. apply is_base_cases in HL. cbn in HL. unfold letter_matches.
  repeat (destruct HL as [<-|HL];
          [split; [intros (cls & [= <-] & [<-|[]]); reflexivity
                  |intros ->; eexists; split; [reflexivity|now left]]|]).
  destruct HL.
Qed.

Lemma instance_of_base_word (w x : str) :
  bases_only w -> instance_of w x <-> x = w.
Proof.
  intros Hw. unfold instance_of. split.
  - intros H. induction H as [|L c w x HLc _ IH]; [reflexivity|].
    apply Forall_cons in Hw as [HL Hw]. apply (letter_matches_base L c HL) in HLc.
    subst c. f_equal. now apply IH.
  - intros ->. induction Hw as [|L w HL _ IH]; constructor; [|exact IH].
    now apply letter_matches_base.
Qed.

Lemma complement_to_base (c : ascii) :
  is_base (default c (Py.assoc rc_table c)) = true -> c <> "U"%char ->
  is_base c = true.
Proof.
  destruct (Py.assoc rc_table c) as [v|] eqn:E; [|easy].
  apply assoc_In in E. cbn in E. cbn [default from_option id].
  repeat (destruct E as [E|E];
          [injection E as <- <-; first [reflexivity | discriminate | congruence]|]).
  destruct E.
Qed.

Lemma get_rc_to_bases (x : str) :
  bases_only (get_rc x) -> ~ In "U"%char x -> bases_only x.
Proof.
  unfold bases_only, get_rc, translate. intros H HU.
  apply Forall_rev in H. rewrite rev_involutive in H.
  apply Forall_map in H. apply Forall_forall. intros c Hc.
  rewrite Forall_forall in H. apply complement_to_base; [now apply H|].
  intros ->. now apply HU, list_elem_of_In.
Qed.

Lemma canonical_base_word (w x : str) :
  bases_only w -> ~ In "U"%char x -> canonical x = canonical w ->
  x = w \/ x = get_rc w.
Proof.
  intros Hw HU E. pose proof (get_rc_bases w Hw) as Hrc.
  assert (Hinv : forall y, bases_only y -> get_rc (get_rc y) = y).
  { intros y Hy. now apply get_rc_involutive, bases_only_iupac. }
  unfold canonical in E.
  destruct (py_min_cases x (get_rc x)) as [Ex|Ex], (py_min_cases w (get_rc w)) as [Ew|Ew];
    rewrite Ex, Ew in E; auto.
  - right. assert (Hx : bases_only x) by (apply get_rc_to_bases; [now rewrite E|exact HU]).
    rewrite <- (Hinv x Hx). now rewrite E.
  - left. assert (Hx : bases_only x) by (apply get_rc_to_bases; [now rewrite E|exact HU]).
    rewrite <- (Hinv x Hx), E. now apply Hinv.
Qed.

Lemma bases_not_ambiguous (w : str) : bases_only w -> Census.has_ambiguous w = false.
Proof.
  intros Hw. unfold Census.has_ambiguous. cbn [lit list_ascii_of_string existsb].
  rewrite orb_false_r. apply orb_false_intro; apply not_true_is_false; intros H;
    apply existsb_exists in H as (c & Hc & E); apply Ascii.eqb_eq in E; subst c;
    unfold bases_only in Hw; rewrite Forall_forall in Hw;
    apply list_elem_of_In, Hw in Hc; discriminate.
Qed.

Lemma canonical_rc_base_word (w : str) :
  bases_only w -> canonical (get_rc w) = canonical w.
Proof.
  intros Hw. unfold canonical.
  rewrite (get_rc_involutive w) by now apply bases_only_iupac.
  apply py_min_comm.
Qed.

Lemma occurs_iff_site (given_only : bool) (w s : str) :
  bases_only w -> ~ In "U"%char s ->
  occurs given_only (census_key given_only w) s <-> has_site w given_only s.
Proof.
  intros Hw HU. unfold occurs, has_site. split.
  - intros (a & x & b & -> & Hamb & Hkey). exists a, x, b. split; [reflexivity|].
    unfold census_key in Hkey. destruct given_only.
    + left. now apply instance_of_base_word.
    + destruct (canonical_base_word w x Hw) as [->| ->]; [|exact Hkey| |].
      * intros Hin. apply HU. rewrite !in_app_iff. auto.
      * left. now apply instance_of_base_word.
      * right. split; [reflexivity|]. apply instance_of_base_word; [|reflexivity].
        now apply get_rc_bases.
  - intros (a & x & b & -> & H). exists a, x, b. split; [reflexivity|].
    destruct H as [H|[-> H]].
    + apply (instance_of_base_word w x Hw) in H as ->.
      split; [now apply bases_not_ambiguous|reflexivity].
    + apply instance_of_base_word in H as ->; [|now apply get_rc_bases].
      split; [now apply bases_not_ambiguous, get_rc_bases|].
      unfold census_key. now apply canonical_rc_base_word.
Qed.

Lemma number_with_count (P : str -> Prop) (ms : Regex.matcher) (seqs : list str) (n : Z) :
  number_with P seqs n ->
  Forall (fun s => P s <-> is_Some (Regex.search ms s)) seqs ->
  n = count_matching ms seqs.
Proof.
  unfold count_matching.
  induction 1 as [|s seqs n Hs _ IH|s seqs n Hs _ IH]; intros HF.
  - reflexivity.
  - apply Forall_cons in HF as [Hiff HF]. rewrite filter_cons.
    destruct (decide (is_Some (Regex.search ms s))) as [Hm|Hm].
    + cbn [length]. rewrite (IH HF). lia.
    + exfalso. now apply Hm, Hiff.
  - apply Forall_cons in HF as [Hiff HF]. rewrite filter_cons.
    destruct (decide (is_Some (Regex.search ms s))) as [Hm|Hm].
    + exfalso. now apply Hs, Hiff.
    + exact (IH HF).
Qed.

Section CensusAndMatcher.
Context {num : Type}.
Variable num0 : num.
Variable log_getFETprob : Z -> Z -> Z -> Z -> num.

(** X21: for sequences without the letter [U], the record that
    [apply_fisher_test] makes from the census for a word over A, C, G and
    T of a width in [0 <= minw .. maxw] is the exact enrichment of the
    word: [compute_exact_re_enrichment], which scans the sequences with
    the matcher of the word, returns the same record. *)
Theorem word_record_is_exact (pos_seqs neg_seqs : list str) (minw maxw : Z)
    (given_only : bool) (w : str) (r : pvalue_record num) :
  0 <= minw -> minw <= Py.len w <= maxw -> bases_only w ->
  Forall (fun s => ~ In "U"%char s) (pos_seqs ++ neg_seqs) ->
  apply_fisher_test num0 log_getFETprob
    (Census.count_seqs_with_words pos_seqs minw maxw given_only)
    (Census.count_seqs_with_words neg_seqs minw maxw given_only)
    (Z.of_nat (length pos_seqs)) (Z.of_nat (length neg_seqs))
    !! census_key given_only w = Some r ->
  compute_exact_re_enrichment num0 log_getFETprob w pos_seqs neg_seqs given_only
  = Some r.
Proof.
  intros Hmin Hin Hw HU Hr. apply Forall_app in HU as [HUp HUn].
  rewrite apply_fisher_test_lookup in Hr.
  set (key := census_key given_only w) in *.
  assert (Hlen : Py.len key = Py.len w).
  { unfold key, Py.len. now rewrite census_key_length. }
  rewrite <- Hlen in Hin.
  pose proof (census_key_in_range pos_seqs minw maxw given_only key Hmin Hin) as Hp.
  pose proof (census_key_in_range neg_seqs minw maxw given_only key Hmin Hin) as Hn.
  destruct (Census.count_seqs_with_words pos_seqs minw maxw given_only !! key)
    as [[p l]|] eqn:E; [|discriminate].
  assert (Hpc : seq_count (Census.count_seqs_with_words pos_seqs minw maxw given_only) key
                = p) by (unfold seq_count; now rewrite E).
  rewrite Hpc in Hp. injection Hr as <-. cbn [fst].
  unfold compute_exact_re_enrichment, count_seqs_matching_iupac_re.
  destruct (make_dna_re_total w given_only false (bases_only_iupac w Hw)) as [ms Hms].
  rewrite Hms. cbn [mbind option_bind].
  assert (Hcount : forall seqs n,
            Forall (fun s => ~ In "U"%char s) seqs ->
            number_with (occurs given_only key) seqs n -> n = count_matching ms seqs).
  { intros seqs n HUs Hnum. apply (number_with_count _ _ _ _ Hnum).
    eapply Forall_impl; [exact HUs|]. intros s Hs. cbn beta.
    rewrite (search_has_site _ _ _ s Hms). now apply occurs_iff_site. }
  rewrite <- (Hcount pos_seqs p HUp Hp), <- (Hcount neg_seqs _ HUn Hn). reflexivity.
Qed.

End CensusAndMatcher.

Lemma word_record_is_exact_witness :
  compute_exact_re_enrichment 0 (fun a b c d => a - d) (lit "AC")
    [lit "ACGTACGT"; lit "TTNT"] [lit "GGAC"] false
  = Some (mk_record 1 2 1 1 0 None).
Proof.
  apply (word_record_is_exact 0 (fun a b c d => a - d) [lit "ACGTACGT"; lit "TTNT"]
           [lit "GGAC"] 2 3 false (lit "AC")).
  - lia.
  - unfold Py.len. cbn [lit list_ascii_of_string length]. lia.
  - repeat constructor.
  - repeat constructor; cbn; intuition discriminate.
  - vm_compute. reflexivity.
Defined.

(** ** Exact refinement keeps the records well-formed *)

Lemma fold_opt_preserves {A B} (f : A -> B -> option A) (Inv : A -> Prop) (l : list B) :
  (forall a b a', f a b = Some a' -> Inv a -> Inv a') ->
  forall a a', Inv a -> Py.fold_opt f a l = Some a' -> Inv a'.
Proof.
  intros Hstep. induction l as [|b l IH]; intros a a' Ha; cbn [Py.fold_opt].
  - now intros [= <-].
  - destruct (f a b) as [a1|] eqn:E; [|easy]. apply IH. exact (Hstep _ _ _ E Ha).
Qed.

Lemma count_matching_bounds (ms : Regex.matcher) (seqs : list str) :
  0 <= count_matching ms seqs <= Z.of_nat (length seqs).
Proof.
  unfold count_matching.
  pose proof (length_filter (fun s => is_Some (Regex.search ms s)) seqs). lia.
Qed.

Lemma records_ok_insert {num : Type} (P N : Z) (T : gmap str (pvalue_record num))
    (key : str) (r : pvalue_record num) :
  records_ok P N T ->
  r_P r = P /\ r_N r = N /\ 0 <= r_p r <= P /\ 0 <= r_n r <= N /\ get_type r = lit "RE" ->
  records_ok P N (<[key := r]> T).
Proof.
  intros HT Hr k r'. destruct (decide (key = k)) as [<-|Hne].
  - rewrite lookup_insert_eq. now intros [= <-].
  - rewrite lookup_insert_ne by exact Hne. apply HT.
Qed.

Section RefinerRecords.
Context {num : Type}.
Variable num0 : num.
Variable num_lt : num -> num -> bool.
Variable log_getFETprob : Z -> Z -> Z -> Z -> num.
Variable get_best_hamming_alignment :
  str -> list str -> list str -> bool -> Z * num * Z * Z * Z * Z.
Variable allowed_letters : str.
Variable pos_seqs neg_seqs : list str.
Variable given_only : bool.

Local Abbreviation P := (Z.of_nat (length pos_seqs)).
Local Abbreviation N := (Z.of_nat (length neg_seqs)).

Lemma compute_exact_re_enrichment_ok (re : str) (r : pvalue_record num) :
  compute_exact_re_enrichment num0 log_getFETprob re pos_seqs neg_seqs given_only
  = Some r ->
  r_P r = P /\ r_N r = N /\ 0 <= r_p r <= P /\ 0 <= r_n r <= N /\ get_type r = lit "RE".
Proof.
  unfold compute_exact_re_enrichment, count_seqs_matching_iupac_re.
  destruct (make_dna_re re given_only false) as [ms|]; [|easy].
  cbn [mbind option_bind]. intros [= <-]. cbn [r_p r_P r_n r_N].
  pose proof (count_matching_bounds ms pos_seqs).
  pose proof (count_matching_bounds ms neg_seqs). now repeat split.
Qed.

Local Abbreviation both_ok :=
  (fun st : gmap str (pvalue_record num) * gmap str (pvalue_record num) =>
     records_ok P N st.1 /\ records_ok P N st.2).

Lemma try_substitution_ok (re : str) (i : nat) (old_letter new_letter : ascii)
    (st st' : gmap str (pvalue_record num) * gmap str (pvalue_record num)) :
  try_substitution num0 num_lt log_getFETprob get_best_hamming_alignment re
    pos_seqs neg_seqs (-1) given_only i old_letter st new_letter = Some st' ->
  both_ok st -> both_ok st'.
Proof.
  destruct st as [imp T]. unfold try_substitution.
  destruct (Ascii.eqb new_letter old_letter); [now intros [= <-]|].
  cbn zeta. destruct (T !! Py.min _ _); [now intros [= <-]|].
  unfold new_record. cbn [Z.eqb Z.opp Pos.eqb].
  destruct (compute_exact_re_enrichment _ _ _ _ _ _) as [r|] eqn:Er; [|easy].
  cbn [mbind option_bind]. destruct (T !! re) as [parent|]; [|easy].
  cbn [mbind option_bind]. intros [= <-] [Himp HT]. cbn [fst snd] in *.
  apply compute_exact_re_enrichment_ok in Er.
  split; [|now apply records_ok_insert].
  destruct (num_lt _ _); [now apply records_ok_insert|exact Himp].
Qed.

Lemma refine_candidate_ok (re : str)
    (st st' : gmap str (pvalue_record num) * gmap str (pvalue_record num)) :
  refine_candidate num0 num_lt log_getFETprob get_best_hamming_alignment re
    allowed_letters pos_seqs neg_seqs (-1) given_only st = Some st' ->
  both_ok st -> both_ok st'.
Proof.
  unfold refine_candidate. intros H Hst. revert H.
  apply (fold_opt_preserves _ both_ok); [|exact Hst].
  intros a i a' Hstep Ha. destruct (re !! i) as [old|]; [|easy].
  cbn [mbind option_bind] in Hstep. revert Hstep.
  apply (fold_opt_preserves _ both_ok); [|exact Ha].
  intros b c b' Hsub Hb. exact (try_substitution_ok _ _ _ _ _ _ Hsub Hb).
Qed.

(** X22: a round of exact refinement keeps the records well-formed: when
    all records of the table are five-item records over the sizes of the
    two sequence sets with counts within these sizes, so are the records
    of the table afterwards and those of the improved patterns. *)
Theorem re_refine_records_ok (candidate_pvalues : list (str * pvalue_record num))
    (re_pvalues improved re_pvalues' : gmap str (pvalue_record num))
    (done_re_list done_re_list' : gset str) :
  records_ok P N re_pvalues ->
  re_refine num0 num_lt log_getFETprob get_best_hamming_alignment re_pvalues
    candidate_pvalues done_re_list allowed_letters pos_seqs neg_seqs (-1) given_only
  = Some (improved, re_pvalues', done_re_list') ->
  records_ok P N re_pvalues' /\ records_ok P N improved.
Proof.
  intros HT H. unfold re_refine in H.
  enough (both_ok (improved, re_pvalues', done_re_list').1) as [Hi Ht] by now split.
  revert H. apply (fold_opt_preserves _ (fun st : refine_state => both_ok st.1)).
  - intros [[imp T] done] cand a'. cbn beta iota zeta.
    case_bool_decide; [now intros [= <-]|].
    destruct (refine_candidate _ _ _ _ _ _ _ _ _ _ _) as [[imp' T']|] eqn:Hc; [|easy].
    cbn [mbind option_bind]. intros [= <-]. cbn [fst].
    exact (refine_candidate_ok _ _ _ Hc).
  - cbn [fst snd]. split; [|exact HT]. intros k r. now rewrite lookup_empty.
Qed.

End RefinerRecords.

Lemma re_refine_records_ok_witness :
  records_ok 2 2 (<[ lit "C" := sample_record_C (-3) ]> {[ lit "A" := sample_record_A ]}
                  : gmap str (pvalue_record Z)) /\
  records_ok 2 2 ({[ lit "C" := sample_record_C (-3) ]} : gmap str (pvalue_record Z)).
Proof.
  apply (re_refine_records_ok 0 Z.ltb (fun _ _ _ _ => -3)
           (fun _ _ _ _ => (0, 0, 0, 0, 0, 0)) _dna_alphabet sample_pos sample_neg false
           [(lit "A", sample_record_A)] {[ lit "A" := sample_record_A ]} _ _ ∅ {[ lit "A" ]}).
  - intros k r H. apply lookup_singleton_Some in H as [_ <-]. now cbn.
  - vm_compute. reflexivity.
Defined.

(** ** Sequence strings *)

Lemma normalise_char (c : ascii) :
  let ms := maketrans (lit "URYKMBVDHSW") (lit "TNNNNNNNNNN") in
  let d := default (upper_char c) (Py.assoc ms (upper_char c)) in
  default (upper_char d) (Py.assoc ms (upper_char d)) = d /\
  is_lower d = false /\
  existsb (Ascii.eqb d) (lit "URYKMBVDHSW") = false /\
  (existsb (Ascii.eqb c) (lit "ACGTN") = true -> d = c).
Proof.
  destruct c as [[] [] [] [] [] [] [] []]; vm_compute; repeat split; congruence.
Qed.

(** X23: [get_strings_from_seqs] returns as many strings as it is given,
    each of the length of its input; no letter of the result is a
    lower-case letter, a [U] or one of the ambiguity codes it replaces; a
    string over A, C, G, T and N is left as it is; applying it again
    changes nothing. *)
Theorem get_strings_from_seqs_normalises (seqs : list str) :
  Forall2 (fun s t => length t = length s) seqs (get_strings_from_seqs seqs) /\
  Forall (Forall (fun c => is_lower c = false /\
                           existsb (Ascii.eqb c) (lit "URYKMBVDHSW") = false))
    (get_strings_from_seqs seqs) /\
  Forall2 (fun s t => Forall (fun c => existsb (Ascii.eqb c) (lit "ACGTN") = true) s ->
                      t = s)
    seqs (get_strings_from_seqs seqs) /\
  get_strings_from_seqs (get_strings_from_seqs seqs) = get_strings_from_seqs seqs.
Proof.
  unfold get_strings_from_seqs, translate, upper. cbn zeta. split; [|split; [|split]].
  - apply Forall2_fmap_r, Forall_Forall2_diag, Forall_forall. intros s _.
    unfold compose. cbn beta. now rewrite !length_map.
  - apply Forall_map, Forall_forall. intros s _. rewrite map_map.
    apply Forall_map, Forall_forall. intros c _.
    destruct (normalise_char c) as (_ & Hl & Hu & _). now split.
  - apply Forall2_fmap_r, Forall_Forall2_diag, Forall_forall. intros s _.
    unfold compose. cbn beta. intros Hs. rewrite map_map. induction Hs as [|c s Hc _ IH]; [reflexivity|].
    cbn [map]. f_equal; [|exact IH].
    destruct (normalise_char c) as (_ & _ & _ & Hk). now apply Hk.
  - rewrite map_map. apply map_ext. intros s. rewrite !map_map.
    apply map_ext. intros c.
    destruct (normalise_char c) as (Hi & _). exact Hi.
Qed.

(** ** The components of a motif *)

Lemma at_end_spec (s : str) :
  Regex.at_end s = true <-> s = [] \/ s = ["010"%char].
Proof.
  destruct s as [|c [|d s]]; cbn [Regex.at_end].
  - split; auto.
  - rewrite Ascii.eqb_eq. split; [intros ->; now right|].
    intros [[=]|[= ->]]. reflexivity.
  - split; [discriminate|]. intros [[=]|[=]].
Qed.

Lemma search_from_anchored_later (m : Regex.matcher) (p : nat) (s : str) :
  Regex.anchored m = true -> Regex.search_from m (S p) s = None.
Proof.
  intros Ha. revert p. induction s as [|c s IH]; intros p; cbn [Regex.search_from];
    unfold Regex.match_here; rewrite Ha; cbn [Nat.eqb]; [reflexivity|apply IH].
Qed.

Lemma search_anchored_start (m : Regex.matcher) (s : str) :
  Regex.anchored m = true ->
  is_Some (Regex.search m s)
  <-> is_Some (Regex.alternatives_match (Regex.alternatives m) true s).
Proof.
  intros Ha. unfold Regex.search.
  assert (E : Regex.search_from m 0 s
              = match Regex.alternatives_match (Regex.alternatives m) true s with
                | Some n => Some (0%nat, n)
                | None => None
                end).
  { destruct s as [|c s]; cbn [Regex.search_from]; unfold Regex.match_here;
      rewrite Ha; cbn [Nat.eqb];
      destruct (Regex.alternatives_match (Regex.alternatives m) true _);
      try reflexivity.
    now apply search_from_anchored_later. }
  rewrite E. destruct (Regex.alternatives_match (Regex.alternatives m) true s).
  - split; intros _; now eexists.
  - split; intros [? [=]].
Qed.

Lemma search_anchored (re : str) (ms : Regex.matcher) (s : str) :
  make_dna_re re true true = Some ms ->
  is_Some (Regex.search ms s) <-> full_match re s.
Proof.
  unfold make_dna_re. intros H.
  destruct (expand_classes re) as [RE|] eqn:HRE; [|discriminate].
  cbn [mbind option_bind negb] in H. injection H as <-.
  assert (Hhere : is_Some (Regex.alternatives_match [RE] true s) <-> full_match re s).
  { cbn [Regex.alternatives_match negb orb]. unfold full_match.
    destruct (Regex.classes_match RE s) as [n|] eqn:E.
    - assert (Hm : is_Some (Regex.classes_match RE s)) by (rewrite E; now eexists).
      apply (classes_match_instance _ _ _ HRE) in Hm as [Hlen Hi].
      pose proof (classes_match_length _ _ _ E) as [Hn _].
      pose proof (expand_classes_spec _ _ HRE) as [Hl _].
      assert (n = length re) as -> by lia.
      destruct (Regex.at_end (drop (length re) s)) eqn:He.
      + split; [intros _|now eexists]. apply at_end_spec in He.
        exists (take (length re) s), (drop (length re) s).
        now rewrite take_drop.
      + split; [intros [? [=]]|]. intros (w & rest & -> & Hw & Hrest).
        pose proof (instance_of_length _ _ Hw) as Hwl.
        rewrite <- Hwl, drop_app_length in He.
        apply at_end_spec in Hrest. congruence.
    - split; [intros [? [=]]|]. intros (w & rest & -> & Hw & _).
      assert (Hm : is_Some (Regex.classes_match RE (w ++ rest))).
      { apply (classes_match_instance _ _ _ HRE).
        pose proof (instance_of_length _ _ Hw) as Hwl.
        rewrite length_app. split; [lia|]. now rewrite <- Hwl, take_app_length. }
      rewrite E in Hm. now destruct Hm. }
  rewrite <- Hhere. now apply search_anchored_start.
Qed.

Section ComponentsProperties.
Context {num : Type}.
Variable num_lt : num -> num -> bool.
Variable log_evalue : num -> nat -> num.

(** X24: every component [get_matching_significant_components] lists is
    a non-empty word that as a whole is an instance of the motif on the
    given strand (a final newline apart): a key of the table or, when the
    key itself is none, its reverse complement; it carries the counts and
    the log p-value of the record of that key, which is below the
    threshold. Every non-empty key that is such an instance and has a
    log p-value below the threshold is listed. *)
Theorem components_match_motif (best_re : str)
    (re_pvalues : list (str * pvalue_record num)) (log_add_pthresh : num)
    (components : list (MotifComponent num)) :
  get_matching_significant_components num_lt log_evalue best_re re_pvalues
    log_add_pthresh = Some components ->
  Forall (fun c =>
            c_re c <> [] /\ full_match best_re (c_re c) /\
            exists item, In item re_pvalues /\
              (c_re c = item.1 \/
               (~ full_match best_re item.1 /\ c_re c = get_rc item.1)) /\
              num_lt (r_logp item.2) log_add_pthresh = true /\
              c_p c = r_p item.2 /\ c_n c = r_n item.2 /\
              c_log_pv c = r_logp item.2)
    components /\
  (forall item, In item re_pvalues -> item.1 <> [] -> full_match best_re item.1 ->
     num_lt (r_logp item.2) log_add_pthresh = true ->
     exists c, In c components /\ c_re c = item.1 /\
               c_p c = r_p item.2 /\ c_n c = r_n item.2).
Proof.
  unfold get_matching_significant_components. intros H.
  destruct (make_dna_re best_re true true) as [m_given|] eqn:Hm; [|discriminate].
  cbn [mbind option_bind] in H. injection H as <-.
  pose proof (fun s => search_anchored best_re m_given s Hm) as Hs. split.
  - apply Forall_forall. intros c Hc. apply list_elem_of_In, in_flat_map in Hc
      as (item & Hitem & Hc). cbn zeta in Hc.
    destruct (negb _ && num_lt _ _) eqn:Hcond; [|destruct Hc].
    destruct Hc as [<-|[]]. apply andb_true_iff in Hcond as [Hne Hsig].
    apply negb_true_iff, bool_decide_eq_false in Hne. cbn [c_re c_p c_n c_log_pv].
    split; [exact Hne|].
    destruct (bool_decide_reflect (is_Some (Regex.search m_given item.1))) as [H1|H1].
    + split; [now apply Hs|]. exists item. auto 10.
    + destruct (bool_decide_reflect (is_Some (Regex.search m_given (get_rc item.1))))
        as [H2|H2]; [|easy].
      split; [now apply Hs|]. exists item. split; [exact Hitem|].
      split; [right; split; [|reflexivity]|auto]. intros Hf. now apply H1, Hs.
  - intros item Hitem Hne Hfull Hsig.
    exists (mk_component item.1 (r_p item.2) (r_n item.2) (r_logp item.2)
              (log_evalue (r_logp item.2) (length re_pvalues))).
    split; [|auto]. apply in_flat_map. exists item. split; [exact Hitem|].
    cbn zeta. rewrite (bool_decide_eq_true_2 (is_Some (Regex.search m_given item.1)))
      by now apply Hs.
    rewrite (bool_decide_eq_false_2 (item.1 = [])) by exact Hne.
    rewrite Hsig. now left.
Qed.

End ComponentsProperties.

Lemma components_match_motif_witness :
  Forall (fun c =>
            c_re c <> [] /\ full_match (lit "CAY") (c_re c) /\
            exists item, In item [(lit "CAT", sample_record_C (-9)); (lit "GTG", sample_record_A)] /\
              (c_re c = item.1 \/
               (~ full_match (lit "CAY") item.1 /\ c_re c = get_rc item.1)) /\
              Z.ltb (r_logp item.2) (-5) = true /\
              c_p c = r_p item.2 /\ c_n c = r_n item.2 /\
              c_log_pv c = r_logp item.2)
    [mk_component (lit "CAT") 2 0 (-9) (-7)].
Proof.
  apply (components_match_motif Z.ltb (fun x n => x + Z.of_nat n) (lit "CAY")
           [(lit "CAT", sample_record_C (-9)); (lit "GTG", sample_record_A)] (-5)).
  vm_compute. reflexivity.
Defined.

(** ** The alignment and the counts *)

Lemma finditer_go_search (m : Regex.matcher) (s : str) (pos : nat) :
  is_Some (Regex.search_from m pos s) <-> Regex.finditer_go m pos 0 s <> [].
Proof.
  revert pos. induction s as [|c s IH]; intros pos;
    cbn [Regex.search_from Regex.finditer_go].
  - destruct (Regex.match_here m pos []); [split; [easy|now eexists]|].
    split; [intros [? [=]]|easy].
  - destruct (Regex.match_here m pos (c :: s)); [split; [easy|now eexists]|].
    apply IH.
Qed.

Lemma alignment_length (m_both m_given : Regex.matcher) (seqs : list str) :
  count_matching m_both seqs
  <= Z.of_nat (length (flat_map
       (fun seqstr =>
          map (fun m => match Regex.search m_given m with
                        | Some _ => m
                        | None => get_rc m
                        end)
            (Regex.findall m_both seqstr))
       seqs)) /\
  (count_matching m_both seqs = 0 ->
   flat_map
     (fun seqstr =>
        map (fun m => match Regex.search m_given m with
                      | Some _ => m
                      | None => get_rc m
                      end)
          (Regex.findall m_both seqstr))
     seqs = []).
Proof.
  unfold count_matching. induction seqs as [|s seqs [IH1 IH2]]; [cbn; split; [lia|easy]|].
  cbn [flat_map]. rewrite length_app, length_map, filter_cons.
  unfold Regex.findall at 1 3. rewrite length_map.
  pose proof (finditer_go_search m_both s 0) as Hs.
  fold (Regex.search m_both s) in Hs. fold (Regex.finditer m_both s) in Hs.
  destruct (decide (is_Some (Regex.search m_both s))) as [Hm|Hm].
  - apply Hs in Hm. cbn [length]. split; [|lia].
    destruct (Regex.finditer m_both s); [easy|]. cbn [length]. lia.
  - split; [lia|]. intros H0.
    assert (E : Regex.finditer m_both s = []).
    { destruct (Regex.finditer m_both s) eqn:E; [reflexivity|].
      exfalso. apply Hm, Hs. easy. }
    unfold Regex.findall. rewrite E. cbn [map app]. now apply IH2.
Qed.

(** X25: the alignment [get_alignment_from_re] returns has at least one
    string for every sequence that [count_seqs_matching_iupac_re] counts
    as matching the pattern, and it is empty when no sequence matches. *)
Theorem alignment_covers_matching_seqs (re : str) (pos_seqs neg_seqs : list str)
    (given_only : bool) (aln : list str) (p n : Z) :
  get_alignment_from_re re pos_seqs given_only = Some aln ->
  count_seqs_matching_iupac_re re pos_seqs neg_seqs given_only = Some (p, n) ->
  p <= Z.of_nat (length aln) /\ (p = 0 -> aln = []).
Proof.
  unfold get_alignment_from_re, count_seqs_matching_iupac_re.
  destruct (make_dna_re re given_only false) as [m_both|]; [|discriminate].
  cbn [mbind option_bind].
  destruct (make_dna_re re true false) as [m_given|]; [|discriminate].
  cbn [mbind option_bind]. intros [= <-] [= <- _].
  apply alignment_length.
Qed.

Lemma alignment_covers_matching_seqs_witness :
  1 <= Z.of_nat (length [lit "CAT"; lit "CAC"]) /\
  (1 = 0 -> [lit "CAT"; lit "CAC"] = ([] : list str)).
Proof.
  apply (alignment_covers_matching_seqs (lit "CAY") [lit "ACATGGCAC"; lit "GGGA"]
           [lit "TTTT"] true _ 1 0); reflexivity.
Defined.

(** ** The census on the other strand *)

Lemma get_rc_ambiguous (x : str) :
  iupac_pattern x -> Census.has_ambiguous (get_rc x) = Census.has_ambiguous x.
Proof.
  intros Hx. unfold Census.has_ambiguous. cbn [lit list_ascii_of_string existsb].
  rewrite !orb_false_r.
  assert (Hn : forall y, iupac_pattern y -> existsb (Ascii.eqb "n"%char) y = false).
  { intros y Hy. apply not_true_is_false. intros H.
    apply existsb_exists in H as (c & Hc & E). apply Ascii.eqb_eq in E. subst c.
    unfold iupac_pattern in Hy. rewrite Forall_forall in Hy.
    apply list_elem_of_In, Hy in Hc. discriminate. }
  rewrite !Hn by (try apply get_rc_iupac; exact Hx). cbn [orb].
  destruct (existsb (Ascii.eqb "N"%char) x) eqn:E.
  - apply existsb_exists in E as (c & Hc & E). apply Ascii.eqb_eq in E. subst c.
    apply existsb_exists. exists "N"%char. split; [|reflexivity].
    unfold get_rc, translate. rewrite <- in_rev.
    apply in_map_iff. exists "N"%char. split; [reflexivity|exact Hc].
  - apply not_true_is_false. intros H.
    apply existsb_exists in H as (c & Hc & Ec). apply Ascii.eqb_eq in Ec. subst c.
    apply (get_rc_no_N x); [|exact Hc]. intros Hin.
    assert (existsb (Ascii.eqb "N"%char) x = true); [|congruence].
    apply existsb_exists. exists "N"%char. split; [exact Hin|reflexivity].
Qed.

Lemma iupac_app (a b : str) : iupac_pattern (a ++ b) <-> iupac_pattern a /\ iupac_pattern b.
Proof. apply Forall_app. Qed.

Lemma get_rc_app3 (a x b : str) :
  get_rc (a ++ x ++ b) = get_rc b ++ get_rc x ++ get_rc a.
Proof.
  unfold get_rc, translate. rewrite !map_app, !rev_app_distr. now rewrite app_assoc.
Qed.

Lemma occurs_get_rc (key s : str) :
  iupac_pattern s -> occurs false key s -> occurs false key (get_rc s).
Proof.
  intros Hs (a & x & b & -> & Hamb & Hkey).
  apply iupac_app in Hs as [Ha Hs]. apply iupac_app in Hs as [Hx Hb].
  exists (get_rc b), (get_rc x), (get_rc a). split; [apply get_rc_app3|].
  split; [now rewrite get_rc_ambiguous|].
  unfold census_key, canonical in *. rewrite (get_rc_involutive x Hx).
  now rewrite py_min_comm.
Qed.

Lemma number_with_unique (P Q : str -> Prop) (l : list str) (f : str -> str) (n m : Z) :
  (forall s, In s l -> (P s <-> Q (f s))) ->
  number_with P l n -> number_with Q (map f l) m -> n = m.
Proof.
  intros H Hn. revert m. induction Hn as [|s l n Hs _ IH|s l n Hs _ IH]; intros m Hm;
    cbn [map] in Hm; inversion Hm; subst.
  - reflexivity.
  - f_equal. apply IH; [|assumption]. intros s' Hs'. apply H. now right.
  - exfalso. match goal with Hq : ~ Q _ |- _ => apply Hq end. apply H; [now left|exact Hs].
  - exfalso. apply Hs. apply H; [now left|assumption].
  - apply IH; [|assumption]. intros s' Hs'. apply H. now right.
Qed.

(** X26: counting on both strands, the census does not depend on the
    strand the sequences are given on: for sequences over the IUPAC
    letters and widths from [minw >= 0], every key has the same count
    after each sequence is replaced by its reverse complement. *)
Theorem census_strand_symmetric (seqs : list str) (minw maxw : Z) (key : str) :
  0 <= minw -> Forall iupac_pattern seqs ->
  seq_count (Census.count_seqs_with_words (map get_rc seqs) minw maxw false) key
  = seq_count (Census.count_seqs_with_words seqs minw maxw false) key.
Proof.
  intros Hmin Hseqs.
  destruct (decide (minw <= Py.len key <= maxw)) as [Hin|Hout].
  - symmetry.
    apply (number_with_unique (occurs false key) (occurs false key) seqs get_rc).
    + intros s Hs. unfold iupac_pattern in Hseqs. rewrite Forall_forall in Hseqs.
      assert (Hi : iupac_pattern s) by now apply Hseqs, list_elem_of_In.
      split; [now apply occurs_get_rc|]. intros H.
      rewrite <- (get_rc_involutive s Hi). apply occurs_get_rc; [|exact H].
      now apply get_rc_iupac.
    + now apply census_key_in_range.
    + now apply census_key_in_range.
  - unfold seq_count. now rewrite !census_key_out_of_range.
Qed.

Lemma census_strand_symmetric_witness :
  seq_count (Census.count_seqs_with_words (map get_rc [lit "ACGTAC"; lit "TTNT"]) 2 3 false)
    (lit "AC")
  = seq_count (Census.count_seqs_with_words [lit "ACGTAC"; lit "TTNT"] 2 3 false)
      (lit "AC").
Proof. apply census_strand_symmetric; [lia|repeat constructor]. Defined.

(** ** An erased word is not found again *)

Lemma masked_no_U (s s' : str) :
  Forall2 masked s s' -> ~ In "U"%char s -> ~ In "U"%char s'.
Proof.
  induction 1 as [|a b s s' Hab _ IH]; [easy|]. intros HU [Hb|Hin].
  - destruct Hab as [Hab|Hab]; [|congruence]. apply HU. left. congruence.
  - apply IH; [|exact Hin]. intros H. apply HU. now right.
Qed.

Lemma number_with_none (P : str -> Prop) (l : list str) (n : Z) :
  Forall (fun s => ~ P s) l -> number_with P l n -> n = 0.
Proof.
  intros HF Hn. induction Hn as [|s l n Hs _ IH|s l n Hs _ IH]; [reflexivity| |];
    apply Forall_cons in HF as [Hns HF]; [contradiction|now apply IH].
Qed.

Lemma erased_no_site (re : str) (ms : Regex.matcher) (s : str) :
  re <> [] -> make_dna_re re false false = Some ms ->
  ~ has_site re false (Regex.sub ms (n_run re) s).
Proof.
  intros Hne Hms Hs.
  destruct (make_dna_re_spec _ _ _ _ Hms) as (Ha & Hdna & _).
  destruct re as [|L re]; [easy|]. cbn [length] in Hdna.
  apply (search_has_site _ _ _ _ Hms) in Hs.
  apply (sub_changes _ _ _ Ha Hdna) in Hs. apply Hs.
  exact (sub_idempotent ms (S (length re)) s Ha Hdna).
Qed.

(** X27: after [erase_re] has erased a non-empty word over A, C, G and T
    from sequences without the letter [U], the word census of the erased
    sets, for widths from [minw >= 0], has no entry for the word: the
    next search cannot find the same word again. *)
Theorem erased_word_not_counted (w : str) (pos_seqs neg_seqs pos' neg' : list str)
    (minw maxw : Z) (given_only : bool) :
  w <> [] -> bases_only w -> 0 <= minw ->
  Forall (fun s => ~ In "U"%char s) (pos_seqs ++ neg_seqs) ->
  erase_re w pos_seqs neg_seqs = Some (pos', neg') ->
  Census.count_seqs_with_words pos' minw maxw given_only !! census_key given_only w
  = None /\
  Census.count_seqs_with_words neg' minw maxw given_only !! census_key given_only w
  = None.
Proof.
  intros Hne Hw Hmin HU He. apply Forall_app in HU as [HUp HUn].
  unfold erase_re in He.
  destruct (make_dna_re w false false) as [ms|] eqn:Hms; [|discriminate].
  cbn [mbind option_bind] in He. injection He as <- <-.
  destruct (make_dna_re_spec _ _ _ _ Hms) as (Ha & Hdna & _).
  assert (Hnone : forall seqs,
            Forall (fun s => ~ In "U"%char s) seqs ->
            Census.count_seqs_with_words (map (Regex.sub ms (n_run w)) seqs)
              minw maxw given_only !! census_key given_only w = None).
  { intros seqs HUs.
    destruct (decide (minw <= Py.len (census_key given_only w) <= maxw)) as [Hin|Hout];
      [|now apply census_key_out_of_range].
    pose proof (census_key_in_range (map (Regex.sub ms (n_run w)) seqs) minw maxw
                  given_only _ Hmin Hin) as Hnum.
    apply number_with_none in Hnum.
    - pose proof (census_entry_count (map (Regex.sub ms (n_run w)) seqs) minw maxw
                    given_only (census_key given_only w)) as Hentry.
      cbn zeta in Hentry. rewrite Hnum in Hentry.
      destruct (Census.count_seqs_with_words _ _ _ _ !! _); [|reflexivity].
      exfalso. assert (0 < 0) by (apply Hentry; now eexists). lia.
    - apply Forall_map. eapply Forall_impl; [exact HUs|]. intros s Hs. cbn beta.
      intros Hocc. apply occurs_iff_site in Hocc; [|exact Hw|].
      + apply has_site_given in Hocc. exact (erased_no_site w ms s Hne Hms Hocc).
      + apply (masked_no_U s); [|exact Hs]. now apply sub_shape. }
  split; now apply Hnone.
Qed.

Lemma erased_word_not_counted_witness :
  Census.count_seqs_with_words [lit "ANNNNT"; lit "NNNNAC"] 2 4 false
    !! census_key false (lit "ACGT") = None /\
  Census.count_seqs_with_words [lit "TTTT"] 2 4 false
    !! census_key false (lit "ACGT") = None.
Proof.
  apply (erased_word_not_counted (lit "ACGT") [lit "AACGTT"; lit "ACGTAC"] [lit "TTTT"]);
    [easy|repeat constructor|lia| |reflexivity].
  repeat constructor; cbn; intuition discriminate.
Defined.

(** ** The best pattern *)

Section BestREProperties.
Context {num : Type}.
Variable num0 : num.
Variable num_lt num_eqb : num -> num -> bool.
Variable log_getFETprob : Z -> Z -> Z -> Z -> num.
Variable huge : num.
Variable log_evalue : num -> nat -> num.
Variable re_keys : gmap str (pvalue_record num) -> list str.

(** The order of the log p-values: [<] is irreflexive and transitive, and
    equal values are not less than one another and are above the same
    values. *)
Hypothesis num_lt_irrefl : forall a, num_lt a a = false.
Hypothesis num_lt_trans : forall a b c,
  num_lt a b = true -> num_lt b c = true -> num_lt a c = true.
Hypothesis num_eqb_not_lt : forall a b, num_eqb a b = true -> num_lt a b = false.
Hypothesis num_eqb_lt : forall a b c,
  num_eqb a b = true -> num_lt c a = true -> num_lt c b = true.

Lemma min_fold (l : list (num * str)) (x : num * str) (seen : list (num * str)) :
  In x seen -> (forall y, In y seen -> num_lt y.1 x.1 = false) ->
  let best := fold_left (fun best y => if candidate_lt num_lt num_eqb y best
                                       then y else best) l x in
  In best (seen ++ l) /\ forall y, In y (seen ++ l) -> num_lt y.1 best.1 = false.
Proof.
  cbn zeta. revert x seen. induction l as [|z l IH]; intros x seen Hx Hmin;
    cbn [fold_left].
  - rewrite app_nil_r. now split.
  - replace (seen ++ z :: l) with ((seen ++ [z]) ++ l) by now rewrite <- app_assoc.
    apply IH.
    + destruct (candidate_lt _ _ z x); apply in_app_iff; [right; now left|now left].
    + intros y Hy. apply in_app_iff in Hy as [Hy|[<-|[]]].
      * unfold candidate_lt. destruct (num_eqb z.1 x.1) eqn:Eq.
        -- destruct (Py.str_lt z.2 x.2); [|now apply Hmin].
           destruct (num_lt y.1 z.1) eqn:E; [|reflexivity].
           apply (num_eqb_lt _ _ _ Eq) in E. rewrite Hmin in E by exact Hy. discriminate.
        -- destruct (num_lt z.1 x.1) eqn:Elt; [|now apply Hmin].
           destruct (num_lt y.1 z.1) eqn:E; [|reflexivity].
           pose proof (num_lt_trans _ _ _ E Elt) as Hc.
           rewrite (Hmin y Hy) in Hc. discriminate.
      * unfold candidate_lt. destruct (num_eqb z.1 x.1) eqn:Eq.
        -- destruct (Py.str_lt z.2 x.2); [apply num_lt_irrefl|now apply num_eqb_not_lt].
        -- destruct (num_lt z.1 x.1) eqn:Elt; [apply num_lt_irrefl|exact Elt].
Qed.

Lemma candidates_spec (T : gmap str (pvalue_record num)) (keys : list str)
    (candidates : list (num * str)) :
  mapM (fun re => r ← T !! re; Some (r_logp r, re)) keys = Some candidates ->
  (forall c, In c candidates <->
     exists r, In c.2 keys /\ T !! c.2 = Some r /\ c.1 = r_logp r) /\
  (candidates = [] <-> keys = []).
Proof.
  intros H. apply mapM_Some in H.
  induction H as [|re c keys cands Hc _ [IH1 IH2]].
  - split; [|easy]. intros c. split; [intros []|intros (r & [] & _)].
  - split; [|split; discriminate].
    destruct (T !! re) as [r|] eqn:Hr; [|discriminate].
    cbn [mbind option_bind] in Hc. injection Hc as <-.
    intros c. cbn [In]. rewrite IH1. split.
    + intros [<-|(r' & Hin & Hr' & Hl)].
      * exists r. cbn [fst snd]. auto.
      * exists r'. auto.
    + intros (r' & [Hre|Hin] & Hr' & Hl).
      * left. destruct c as [c1 c2]. cbn [fst snd] in *. subst c2.
        rewrite Hr in Hr'. injection Hr' as <-. now subst c1.
      * right. exists r'. auto.
Qed.

(** X28: what [output_best_re] returns, for a table whose keys the
    iteration visits: when no key has a width within [minw..maxw] it
    returns the empty pattern with the value [1e300] three times; else,
    when it raises no error, the pattern it returns is a key of the
    table with a width within the range, with its reverse complement,
    the log p-value of its five-item record and the log E-value made of
    it, and no key within the range has a smaller log p-value. *)
Theorem output_best_re_selects (re_pvalues : gmap str (pvalue_record num))
    (minw maxw : Z) (unerased_pos_seqs unerased_neg_seqs : list str)
    (given_only : bool) (best : best_re_result num) :
  (forall k, In k (re_keys re_pvalues) <-> is_Some (re_pvalues !! k)) ->
  output_best_re num0 num_lt num_eqb log_getFETprob huge log_evalue re_keys
    re_pvalues minw maxw unerased_pos_seqs unerased_neg_seqs given_only = Some best ->
  ((forall k, is_Some (re_pvalues !! k) -> ~ in_width_range minw maxw k) ->
   best = mk_best [] [] huge huge huge) /\
  (forall k, is_Some (re_pvalues !! k) -> in_width_range minw maxw k ->
   exists r,
     re_pvalues !! b_re best = Some r /\ in_width_range minw maxw (b_re best) /\
     b_rc best = get_rc (b_re best) /\ r_dist r = None /\
     b_log_pvalue best = r_logp r /\
     b_log_Evalue best = log_evalue (r_logp r) (size re_pvalues) /\
     forall k' r', re_pvalues !! k' = Some r' -> in_width_range minw maxw k' ->
       num_lt (r_logp r') (r_logp r) = false).
Proof.
  intros Hkeys. unfold output_best_re.
  set (keys := List.filter _ (re_keys re_pvalues)).
  assert (Hin : forall k, In k keys <->
                  is_Some (re_pvalues !! k) /\ in_width_range minw maxw k).
  { intros k. unfold keys. rewrite filter_In, Hkeys, andb_true_iff, Z.leb_le, Z.leb_le.
    reflexivity. }
  destruct (mapM _ keys) as [candidates|] eqn:Hc; [|discriminate].
  cbn [mbind option_bind].
  destruct (candidates_spec _ _ _ Hc) as [Hcand Hnil].
  destruct candidates as [|x l].
  - intros [= <-]. split; [reflexivity|]. intros k Hk Hw.
    assert (Hk' : In k keys) by now apply Hin.
    rewrite (proj1 Hnil eq_refl) in Hk'. destruct Hk'.
  - destruct (min_fold l x [x] (or_introl eq_refl)) as [Hbest Hmin].
    { intros y [<-|[]]. apply num_lt_irrefl. }
    fold (min_candidate num_lt num_eqb x l) in Hbest, Hmin.
    cbn [app] in Hbest, Hmin.
    apply Hcand in Hbest as (r & Hbk & Hr & Hlogp).
    set (b := min_candidate num_lt num_eqb x l) in *. rewrite Hr.
    cbn [mbind option_bind]. case_bool_decide as Hdist; [|discriminate].
    destruct (compute_exact_re_enrichment _ _ _ _ _ _) as [u|]; [|discriminate].
    cbn [mbind option_bind]. intros [= <-]. split.
    + intros Hnone. exfalso. apply Hin in Hbk as [Hs Hw]. exact (Hnone _ Hs Hw).
    + intros _ _ _. exists r. cbn [b_re b_rc b_log_pvalue b_log_Evalue].
      apply Hin in Hbk as [_ Hw]. repeat split; try assumption; try reflexivity.
      * apply Hw.
      * apply Hw.
      * intros k' r' Hk' Hw'. rewrite <- Hlogp.
        apply (Hmin (r_logp r', k')). apply Hcand. exists r'. cbn [fst snd].
        split; [apply Hin; split; [exists r'; exact Hk'|exact Hw']|auto].
Qed.

End BestREProperties.

Lemma output_best_re_selects_witness :
  ((forall k, is_Some (sample_table !! k) -> ~ in_width_range 3 8 k) ->
   mk_best (lit "CAA") (lit "TTG") (-20) (-18) (-28)
   = mk_best [] [] 1000 1000 1000) /\
  (forall k, is_Some (sample_table !! k) -> in_width_range 3 8 k ->
   exists r,
     sample_table !! lit "CAA" = Some r /\ in_width_range 3 8 (lit "CAA") /\
     lit "TTG" = get_rc (lit "CAA") /\ r_dist r = None /\
     -20 = r_logp r /\ -18 = r_logp r + Z.of_nat (size sample_table) /\
     forall k' r', sample_table !! k' = Some r' -> in_width_range 3 8 k' ->
       (r_logp r' <? r_logp r) = false).
Proof.
  apply (output_best_re_selects 0 Z.ltb Z.eqb (fun _ _ _ _ => -30) 1000
           (fun x n => x + Z.of_nat n) (fun T => (map_to_list T).*1)
           Z.ltb_irrefl
           (fun a b c Hab Hbc => proj2 (Z.ltb_lt a c)
              (Z.lt_trans _ _ _ (proj1 (Z.ltb_lt a b) Hab) (proj1 (Z.ltb_lt b c) Hbc)))
           (fun a b Hab => proj2 (Z.ltb_ge a b)
              (Z.eq_le_incl _ _ (eq_sym (proj1 (Z.eqb_eq a b) Hab))))
           (fun a b c Hab Hca => eq_ind a (fun z => (c <? z) = true) Hca b
              (proj1 (Z.eqb_eq a b) Hab))
           sample_table 3 8 [lit "CAAT"] [lit "TTTT"] false).
  - intros k. rewrite <- list_elem_of_In, list_elem_of_fmap. split.
    + intros ([k' r] & -> & Hin). apply elem_of_map_to_list in Hin. now exists r.
    + intros [r Hr]. exists (k, r). split; [reflexivity|]. now apply elem_of_map_to_list.
  - vm_compute. reflexivity.
Defined.
